(** * Game of Life engine of [src/app/page.tsx]

    A shallow embedding of the cellular-automaton engine of the page
    ([createInitialGrid], [getNeighbors], [createNextGeneration],
    [getNextCellState], [countLiveNeighbors], [shouldSurvive],
    [shouldBeBorn], [areGridsEqual]) and the proofs of its properties.

    The cells of a grid are JavaScript objects: they are mutated after their
    creation ([cell.state = ...], [cell.neighbors = ...]) and they refer to
    each other through their [neighbors] arrays.  They are therefore kept in
    an explicit store, and a grid holds references into that store.  Arrays
    are never mutated once they are visible to another object, so they are
    plain lists.

    Numbers are modelled by [Z]; the limit on array lengths (2^32 - 1) and
    the exhaustion of memory are outside the model.  The numbers of the
    code are doubles, on which [generation + 1] is the exact sum only from
    -2^53 up to 2^53 - 1 (from 2^53 on the sum is rounded and the counter
    no longer grows): the embedding of [createNextGeneration] agrees with
    the code on the counters of that range, [exactCounter], and a grid
    handed to it with a counter outside of it is outside the model.

    The page itself ([Home]: its state variables and its handlers) and
    [getGenerationColor] are embedded too; the rendering and the timer are
    not. *)

From Stdlib Require Import ZArith Lia String.
From stdpp Require Import base tactics option list list_numbers.

Local Open Scope Z_scope.

(** ** Data model ([src/types/gameOfLife]) *)

Inductive CellState : Type := alive | dead.

#[global] Instance CellState_eq_dec : EqDecision CellState.
Proof. solve_decision. Defined.

(** A reference to a cell object of the store. *)
Abbreviation ref := nat (only parsing).

Module Cell.

(** An entry of [neighbors] is a reference or [undefined] ([None]):
    [getNeighbors] pushes whatever [cells[newY][newX]] evaluates to. *)
Record t : Type := mk {
  state : CellState;
  x : Z;
  y : Z;
  neighbors : list (option ref)
}.

Definition set_state (c : t) (s : CellState) : t :=
  mk s (x c) (y c) (neighbors c).

Definition set_neighbors (c : t) (ns : list (option ref)) : t :=
  mk (state c) (x c) (y c) ns.

End Cell.

Module Grid.

Record t : Type := mk {
  cells : list (list ref);
  width : Z;
  height : Z;
  generation : Z
}.

End Grid.

(** The store of cell objects; a reference is an index, and an allocation
    appends. *)
Abbreviation Heap := (list Cell.t) (only parsing).

(** ** Exceptions, readers and commands *)

Inductive Exn : Type :=
  | RangeError   (* [Array(n)] with an invalid length *)
  | TypeError    (* a property of [undefined] is read or set *)
  | DanglingRef. (* a reference outside the store: never arises in JavaScript *)

Inductive Result (A : Type) : Type :=
  | Ok (a : A)
  | Throw (e : Exn).
Arguments Ok {A} a.
Arguments Throw {A} e.

(** Code that only reads the store. *)
Definition R (A : Type) : Type := list Cell.t -> Result A.
(** Code that may allocate and mutate. *)
Definition M (A : Type) : Type := list Cell.t -> Result (A * list Cell.t).

Definition retR {A} (a : A) : R A := fun _ => Ok a.
Definition throwR {A} (e : Exn) : R A := fun _ => Throw e.
Definition bindR {A B} (m : R A) (k : A -> R B) : R B :=
  fun h => match m h with
           | Ok a => k a h
           | Throw e => Throw e
           end.

Definition ret {A} (a : A) : M A := fun h => Ok (a, h).
Definition throw {A} (e : Exn) : M A := fun _ => Throw e.
Definition bind {A B} (m : M A) (k : A -> M B) : M B :=
  fun h => match m h with
           | Ok (a, h') => k a h'
           | Throw e => Throw e
           end.
Definition liftR {A} (m : R A) : M A :=
  fun h => match m h with
           | Ok a => Ok (a, h)
           | Throw e => Throw e
           end.

Notation "x <~ m ;; k" := (bindR m (fun x => k))
  (at level 100, m at next level, right associativity).
Notation "x <- m ;; k" := (bind m (fun x => k))
  (at level 100, m at next level, right associativity).
Notation "m ;; k" := (bind m (fun _ => k))
  (at level 100, right associativity).

(** [for (const a of l) body(a)] *)
Fixpoint forM_ {A} (body : A -> M unit) (l : list A) : M unit :=
  match l with
  | [] => ret tt
  | a :: l' => body a ;; forM_ body l'
  end.

(** [l.map(f)] *)
Fixpoint mapM {A B} (f : A -> M B) (l : list A) : M (list B) :=
  match l with
  | [] => ret []
  | a :: l' => b <- f a ;; bs <- mapM f l' ;; ret (b :: bs)
  end.

(** [l.filter(p)] *)
Fixpoint filterR {A} (p : A -> R bool) (l : list A) : R (list A) :=
  match l with
  | [] => retR []
  | a :: l' =>
      keep <~ p a ;; rest <~ filterR p l' ;;
      retR (if keep : bool then a :: rest else rest)
  end.

(** [for (const a of l) acc = body(acc, a)], for a loop that only reads the
    store. *)
Fixpoint foldR {A B} (body : B -> A -> R B) (l : list A) (acc : B) : R B :=
  match l with
  | [] => retR acc
  | a :: l' => acc' <~ body acc a ;; foldR body l' acc'
  end.

(** [for (const a of l) { if (!test(a)) return false; } return true] *)
Fixpoint allR {A} (test : A -> R bool) (l : list A) : R bool :=
  match l with
  | [] => retR true
  | a :: l' => ok <~ test a ;; if ok : bool then allR test l' else retR false
  end.

(** [l[i]] on an array: [undefined] ([None]) outside [0 .. length - 1]. *)
Definition jsIndex {A} (l : list A) (i : Z) : option A :=
  if 0 <=? i then l !! Z.to_nat i else None.

(** Access to a property of [v]: a [TypeError] when [v] is [undefined]. *)
Definition member {A} (v : option A) : R A :=
  match v with
  | Some a => retR a
  | None => throwR TypeError
  end.

(** [Array(n).fill(null).map((_, i) => f(i))] *)
Definition arrayInit {A} (n : Z) (f : Z -> M A) : M (list A) :=
  if n <? 0 then throw RangeError else mapM f (seqZ 0 n).

(** The object behind a reference. *)
Definition deref (r : ref) : R Cell.t :=
  fun h => match h !! r with
           | Some c => Ok c
           | None => Throw DanglingRef
           end.

(** An object literal [{ state, x, y, neighbors }]. *)
Definition alloc (c : Cell.t) : M ref :=
  fun h => Ok (length h, h ++ [c]).

(** [cell.state = s] and [cell.neighbors = ns] *)
Definition assign (r : ref) (f : Cell.t -> Cell.t) : M unit :=
  fun h => match h !! r with
           | Some c => Ok (tt, <[r := f c]> h)
           | None => Throw DanglingRef
           end.
Definition setState (r : ref) (s : CellState) : M unit :=
  assign r (fun c => Cell.set_state c s).
Definition setNeighbors (r : ref) (ns : list (option ref)) : M unit :=
  assign r (fun c => Cell.set_neighbors c ns).

(** ** The engine *)

Definition directions : list (Z * Z) :=
  [ (-1, -1); (-1, 0); (-1, 1);
    (0, -1);           (0, 1);
    (1, -1);  (1, 0);  (1, 1) ].

Definition getNeighbors (cells : list (list ref)) (cell : ref)
    (width height : Z) : R (list (option ref)) :=
  foldR (fun neighbors direction =>
    c <~ deref cell ;;
    let newX := Cell.x c + fst direction in
    let newY := Cell.y c + snd direction in
    if (0 <=? newX) && (newX <? width) && (0 <=? newY) && (newY <? height)
    then
      row <~ member (jsIndex cells newY) ;;
      retR (neighbors ++ [jsIndex row newX])
    else retR neighbors) directions [].

(** The loop [for (const row of cells) for (const cell of row)
    cell.neighbors = getNeighbors(cells, cell, width, height)] shared by
    [createInitialGrid] and [createNextGeneration]. *)
Definition assignNeighbors (cells : list (list ref)) (width height : Z)
    : M unit :=
  forM_ (fun row =>
    forM_ (fun cell =>
      ns <- liftR (getNeighbors cells cell width height) ;;
      setNeighbors cell ns) row) cells.

Definition createInitialGrid (width height : Z) (aliveCells : list Cell.t)
    : M Grid.t :=
  cells <- arrayInit height (fun y =>
             arrayInit width (fun x => alloc (Cell.mk dead x y []))) ;;
  forM_ (fun aliveCell =>
    if (Cell.x aliveCell <? width) && (Cell.y aliveCell <? height) then
      row <- liftR (member (jsIndex cells (Cell.y aliveCell))) ;;
      cell <- liftR (member (jsIndex row (Cell.x aliveCell))) ;;
      setState cell alive
    else ret tt) aliveCells ;;
  assignNeighbors cells width height ;;
  ret (Grid.mk cells width height 0).

Definition isAlive (s : CellState) : bool :=
  match s with alive => true | dead => false end.
Definition isDead (s : CellState) : bool :=
  match s with alive => false | dead => true end.

Definition countLiveNeighbors (cell : ref) : R nat :=
  c <~ deref cell ;;
  live <~ filterR (fun neighbor =>
            n <~ member neighbor ;;
            nc <~ deref n ;;
            retR (isAlive (Cell.state nc))) (Cell.neighbors c) ;;
  retR (length live).

Definition shouldSurvive (cell : ref) : R bool :=
  liveNeighbors <~ countLiveNeighbors cell ;;
  c <~ deref cell ;;
  retR (isAlive (Cell.state c)
        && ((liveNeighbors =? 2)%nat || (liveNeighbors =? 3)%nat)).

Definition shouldBeBorn (cell : ref) : R bool :=
  liveNeighbors <~ countLiveNeighbors cell ;;
  c <~ deref cell ;;
  retR (isDead (Cell.state c) && (liveNeighbors =? 3)%nat).

Definition getNextCellState (cell : ref) : R CellState :=
  survive <~ shouldSurvive cell ;;
  if survive : bool then retR alive
  else
    born <~ shouldBeBorn cell ;;
    retR (if born : bool then alive else dead).

(** The counter of the new grid is [currentGrid.generation + 1], a sum of
    doubles: it is the sum in [Z] for the counters of [exactCounter]. *)
Definition createNextGeneration (currentGrid : Grid.t) : M Grid.t :=
  newCells <- mapM (fun row =>
                mapM (fun cell =>
                  state <- liftR (getNextCellState cell) ;;
                  c <- liftR (deref cell) ;;
                  alloc (Cell.mk state (Cell.x c) (Cell.y c)
                           (Cell.neighbors c))) row)
                (Grid.cells currentGrid) ;;
  assignNeighbors newCells (Grid.width currentGrid)
    (Grid.height currentGrid) ;;
  ret (Grid.mk newCells (Grid.width currentGrid) (Grid.height currentGrid)
         (Grid.generation currentGrid + 1)).

(** [grid.cells[y][x].state] *)
Definition stateOf (grid : Grid.t) (x y : Z) : R CellState :=
  row <~ member (jsIndex (Grid.cells grid) y) ;;
  cell <~ member (jsIndex row x) ;;
  c <~ deref cell ;;
  retR (Cell.state c).

Definition areGridsEqual (grid1 grid2 : Grid.t) : R bool :=
  if negb (Grid.width grid1 =? Grid.width grid2)
     || negb (Grid.height grid1 =? Grid.height grid2)
  then retR false
  else
    allR (fun y =>
      allR (fun x =>
        s1 <~ stateOf grid1 x y ;;
        s2 <~ stateOf grid2 x y ;;
        retR (bool_decide (s1 = s2))) (seqZ 0 (Grid.width grid1)))
      (seqZ 0 (Grid.height grid1)).

(** An element of [aliveCells], as the page builds it. *)
Definition aliveAt (x y : Z) : Cell.t := Cell.mk alive x y [].

(** ** Specification vocabulary *)

(** [cells[y][x]], [None] when either index is out of range. *)
Definition cellAt (cells : list (list ref)) (x y : Z) : option ref :=
  match jsIndex cells y with
  | Some row => jsIndex row x
  | None => None
  end.

Definition inBounds (width height : Z) (p : Z * Z) : bool :=
  (0 <=? fst p) && (fst p <? width) && (0 <=? snd p) && (snd p <? height).

(** The 3x3 block around [(x, y)] minus its centre, in the order of
    [directions]. *)
Definition around (x y : Z) : list (Z * Z) :=
  map (fun d => (x + fst d, y + snd d)) directions.

(** The adjacency rule: the in-bounds coordinates of [around], each looked
    up in [cells]. *)
Definition neighborList (cells : list (list ref)) (width height x y : Z)
    : list (option ref) :=
  map (fun p => cellAt cells (fst p) (snd p))
      (filter (fun p => inBounds width height p) (around x y)).

(** A neighbour entry that is a live cell of the store. *)
Definition liveRef (heap : Heap) (n : option ref) : bool :=
  match n with
  | Some r => match heap !! r with
              | Some nc => isAlive (Cell.state nc)
              | None => false
              end
  | None => false
  end.

(** The number of cached neighbours of [c] that are alive in [heap]. *)
Definition liveNeighborCount (heap : Heap) (c : Cell.t) : nat :=
  length (filter (fun n => liveRef heap n) (Cell.neighbors c)).

(** The rule of the spec: survive with 2 or 3 live neighbours, be born with
    exactly 3, otherwise dead. *)
Definition nextState (s : CellState) (n : nat) : CellState :=
  match s with
  | alive => if ((n =? 2) || (n =? 3))%nat then alive else dead
  | dead => if (n =? 3)%nat then alive else dead
  end.

(** Every object of [h] is still in [h'], unchanged. *)
Definition heapExt (h h' : Heap) : Prop :=
  forall r c, h !! r = Some c -> h' !! r = Some c.

(** The shape invariant of a grid: [height] rows of [width] cells, the cell
    at [cells[y][x]] carrying the coordinates [(x, y)]. *)
Definition gridShape (heap : Heap) (cells : list (list ref))
    (width height : Z) : Prop :=
  Z.of_nat (length cells) = height /\
  Forall (fun row : list ref => Z.of_nat (length row) = width) cells /\
  forall (i j : nat) (row : list ref) (r : ref),
    cells !! i = Some row -> row !! j = Some r ->
    exists c, heap !! r = Some c /\
              Cell.x c = Z.of_nat j /\ Cell.y c = Z.of_nat i.

(** Every neighbour entry of every cell of the grid is a cell of the same
    grid. *)
Definition neighborsInGrid (heap : Heap) (cells : list (list ref)) : Prop :=
  forall r c, r ∈ concat cells -> heap !! r = Some c ->
    Forall (fun n : option ref => exists r', n = Some r' /\ r' ∈ concat cells)
           (Cell.neighbors c).

(** The neighbour cache of every cell is the adjacency rule applied to the
    cell's coordinates. *)
Definition cacheExact (heap : Heap) (g : Grid.t) : Prop :=
  forall r c, r ∈ concat (Grid.cells g) -> heap !! r = Some c ->
    Cell.neighbors c =
      neighborList (Grid.cells g) (Grid.width g) (Grid.height g)
                   (Cell.x c) (Cell.y c).

Definition wellFormed (heap : Heap) (g : Grid.t) : Prop :=
  gridShape heap (Grid.cells g) (Grid.width g) (Grid.height g) /\
  neighborsInGrid heap (Grid.cells g).

Definition allDead (heap : Heap) (cells : list (list ref)) : Prop :=
  forall r c, r ∈ concat cells -> heap !! r = Some c -> Cell.state c = dead.

(** The state of the cell at [(x, y)] of a grid, when there is one. *)
Definition stateAt (heap : Heap) (g : Grid.t) (x y : Z) : option CellState :=
  match cellAt (Grid.cells g) x y with
  | Some r => match heap !! r with
              | Some c => Some (Cell.state c)
              | None => None
              end
  | None => None
  end.

(** The value a command returns from the empty store. *)
Definition eval {A} (m : M A) : Result A :=
  match m [] with
  | Ok (a, _) => Ok a
  | Throw e => Throw e
  end.

(** The effect of the neighbour-assignment loop over the cells [rs] on the
    object behind [r]. *)
Definition refreshed (cells : list (list ref)) (width height : Z)
    (rs : list ref) (r : ref) (c : Cell.t) : Cell.t :=
  if decide (r ∈ rs)
  then Cell.set_neighbors c
         (neighborList cells width height (Cell.x c) (Cell.y c))
  else c.

(** [h'] holds the objects of [h], at the same coordinates; only cells of
    [cells] may differ otherwise. *)
Definition sameCells (cells : list (list ref)) (h h' : Heap) : Prop :=
  length h' = length h /\
  forall r c, h !! r = Some c ->
    exists c', h' !! r = Some c' /\
               Cell.x c' = Cell.x c /\ Cell.y c' = Cell.y c /\
               (r ∉ concat cells -> c' = c).

(** A coordinate that [createInitialGrid] processes without an exception:
    one that its guard rejects, or one that is not negative. *)
Definition safeCoord (width height : Z) (a : Cell.t) : Prop :=
  ~ (Cell.x a < width /\ Cell.y a < height) \/
  (0 <= Cell.x a /\ 0 <= Cell.y a).

(** Every neighbour entry of [c] is an object of the store. *)
Definition validNeighbors (heap : Heap) (c : Cell.t) : Prop :=
  Forall (fun n : option ref => exists r, n = Some r /\ is_Some (heap !! r))
         (Cell.neighbors c).

(** [new] is the copy [{ ...cell, state }] that [createNextGeneration] makes
    of the cell [old] of the store [heap], in the store [heap1]. *)
Definition stepped (heap : Heap) (old new : ref) (heap1 : Heap) : Prop :=
  (length heap <= new)%nat /\
  exists c, heap !! old = Some c /\
    heap1 !! new
    = Some (Cell.mk (nextState (Cell.state c) (liveNeighborCount heap c))
              (Cell.x c) (Cell.y c) (Cell.neighbors c)).

(** The cell [new] of the store [heap'] is the successor of the cell [old]
    of the store [heap]: same coordinates, and the state the rule gives. *)
Definition successor (heap heap' : Heap) (old new : ref) : Prop :=
  exists c c',
    heap !! old = Some c /\ heap' !! new = Some c' /\
    Cell.state c' = nextState (Cell.state c) (liveNeighborCount heap c) /\
    Cell.x c' = Cell.x c /\ Cell.y c' = Cell.y c.

(** The counters on which the double addition [generation + 1] of
    [createNextGeneration] is exact: every integer from -2^53 up to
    2^53 - 1 is a double, and so is its successor. *)
Definition exactCounter (generation : Z) : Prop :=
  - 2 ^ 53 <= generation < 2 ^ 53.

(** [n] calls of [createNextGeneration] in a row, as the driver makes
    them. *)
Fixpoint stepN (n : nat) (g : Grid.t) : M Grid.t :=
  match n with
  | O => ret g
  | S n' => g' <- createNextGeneration g ;; stepN n' g'
  end.

(** ** The functional Game of Life

    A board gives the state of every place; the engine is compared with
    the step function on boards. *)

Definition Board : Type := Z -> Z -> CellState.

(** The board with the given coordinates alive. *)
Definition boardOf (aliveCells : list Cell.t) : Board :=
  fun x y =>
    if existsb (fun a => (Cell.x a =? x) && (Cell.y a =? y)) aliveCells
    then alive else dead.

(** The number of live places among the in-bounds places around [(x, y)]. *)
Definition liveAround (width height : Z) (b : Board) (x y : Z) : nat :=
  length (filter (fun p => isAlive (b (fst p) (snd p)))
            (filter (fun p => inBounds width height p) (around x y))).

Definition lifeStep (width height : Z) (b : Board) : Board :=
  fun x y => nextState (b x y) (liveAround width height b x y).

Definition boardsEqual (width height : Z) (b1 b2 : Board) : bool :=
  forallb (fun y =>
    forallb (fun x => bool_decide (b1 x y = b2 x y)) (seqZ 0 width))
    (seqZ 0 height).

(** The grid [g] of the store [heap] holds the board [b]. *)
Definition represents (heap : Heap) (g : Grid.t) (b : Board) : Prop :=
  forall x y, 0 <= x < Grid.width g -> 0 <= y < Grid.height g ->
    stateAt heap g x y = Some (b x y).

(** ** Patterns *)

Definition blockCells : list Cell.t :=
  [aliveAt 1 1; aliveAt 1 2; aliveAt 2 1; aliveAt 2 2].

Definition blinkerCells : list Cell.t :=
  [aliveAt 1 2; aliveAt 2 2; aliveAt 3 2].

(** The blinker on a 5x5 grid, built in the empty store: the grid and the
    store. *)
Definition blinker : Grid.t * list Cell.t :=
  Eval vm_compute in
    match createInitialGrid 5 5 blinkerCells [] with
    | Ok p => p
    | Throw _ => (Grid.mk [] 0 0 0, [])
    end.

(** The cell at the centre of [blinker]. *)
Definition blinkerCentre : Cell.t :=
  Eval vm_compute in
    match snd blinker !! 12%nat with
    | Some c => c
    | None => aliveAt 0 0
    end.

(** ** The colour of a generation ([getGenerationColor]) *)

Definition colors : list string :=
  [ "bg-red-500"%string; "bg-rose-500"%string; "bg-pink-500"%string;
    "bg-fuchsia-500"%string; "bg-purple-500"%string;
    "bg-violet-500"%string; "bg-indigo-500"%string; "bg-blue-500"%string;
    "bg-sky-500"%string; "bg-cyan-500"%string;
    "bg-teal-500"%string; "bg-emerald-500"%string; "bg-green-500"%string;
    "bg-lime-500"%string; "bg-yellow-500"%string;
    "bg-amber-500"%string; "bg-orange-500"%string; "bg-red-500"%string ].

(** [colors[generation % colors.length]]: the remainder has the sign of
    [generation], and the result is [undefined] ([None]) at a negative
    index. *)
Definition getGenerationColor (generation : Z) : option string :=
  jsIndex colors (Z.rem generation (Z.of_nat (length colors))).

(** ** Arrays of the page *)

(** [l.findIndex(p)]: the first index whose element satisfies [p], -1 when
    there is none. *)
Fixpoint findIndexFrom {A} (p : A -> bool) (l : list A) (i : Z) : Z :=
  match l with
  | [] => -1
  | a :: l' => if p a then i else findIndexFrom p l' (i + 1)
  end.

Definition findIndex {A} (p : A -> bool) (l : list A) : Z :=
  findIndexFrom p l 0.

(** [l.filter((a, index) => p(a, index))] *)
Fixpoint filterIndexFrom {A} (p : A -> Z -> bool) (l : list A) (i : Z)
    : list A :=
  match l with
  | [] => []
  | a :: l' =>
      if p a i then a :: filterIndexFrom p l' (i + 1)
      else filterIndexFrom p l' (i + 1)
  end.

Definition filterIndex {A} (p : A -> Z -> bool) (l : list A) : list A :=
  filterIndexFrom p l 0.

(** ** The page ([Home])

    The state of the component is the record of its six state variables.
    A handler is run on the state of the render that created it and gives
    the state of the next render: the updates it queues are applied
    together, a functional update to the state it read.  The timer and the
    rendering are not modelled; [Advance] stands for a call of
    [advanceGeneration], by the button or by the interval. *)

Module Home.

Definition width : Z := 25.

Definition height : Z := 25.

Record t : Type := mk {
  aliveCells : list Cell.t;
  grid : Grid.t;
  isRunning : bool;
  isAutoAdvancing : bool;
  isDragging : bool;
  dragState : CellState
}.

(** The state of the first render. *)
Definition initial : M t :=
  grid0 <- createInitialGrid width height [] ;;
  ret (mk [] grid0 false false false alive).

Definition advanceGeneration (s : t) : M t :=
  nextGrid <- createNextGeneration (grid s) ;;
  equal <- liftR (areGridsEqual (grid s) nextGrid) ;;
  if equal : bool
  then ret (mk (aliveCells s) nextGrid false false
              (isDragging s) (dragState s))
  else ret (mk (aliveCells s) nextGrid (isRunning s) (isAutoAdvancing s)
              (isDragging s) (dragState s)).

Definition toggleCellState (x y : Z) (s : t) : M t :=
  if isRunning s then ret s
  else
    let aliveCells' :=
      let cellIndex :=
        findIndex (fun cell => (Cell.x cell =? x) && (Cell.y cell =? y))
                  (aliveCells s) in
      if cellIndex >? -1
      then filterIndex (fun _ index => negb (index =? cellIndex))
                       (aliveCells s)
      else aliveCells s ++ [Cell.mk alive x y []] in
    let newAliveCells := aliveCells s ++ [Cell.mk alive x y []] in
    newGrid <- createInitialGrid width height newAliveCells ;;
    ret (mk aliveCells' newGrid (isRunning s) (isAutoAdvancing s)
           (isDragging s) (dragState s)).

Definition handleMouseDown (x y : Z) (s : t) : M t :=
  if isRunning s then ret s
  else
    state <- liftR (stateOf (grid s) x y) ;;
    let newState := if isAlive state then dead else alive in
    s' <- toggleCellState x y s ;;
    ret (mk (aliveCells s') (grid s') (isRunning s') (isAutoAdvancing s')
           true newState).

Definition handleMouseEnter (x y : Z) (s : t) : M t :=
  if isRunning s || negb (isDragging s) then ret s
  else
    paint <- (if isAlive (dragState s)
              then state <- liftR (stateOf (grid s) x y) ;;
                   ret (isDead state)
              else ret false) ;;
    if paint : bool then toggleCellState x y s
    else
      erase <- (if isDead (dragState s)
                then state <- liftR (stateOf (grid s) x y) ;;
                     ret (isAlive state)
                else ret false) ;;
      if erase : bool then toggleCellState x y s else ret s.

Definition handleMouseUp (s : t) : t :=
  mk (aliveCells s) (grid s) (isRunning s) (isAutoAdvancing s)
     false (dragState s).

Definition startSimulation (s : t) : t :=
  mk (aliveCells s) (grid s) true (isAutoAdvancing s)
     (isDragging s) (dragState s).

Definition toggleAutoAdvance (s : t) : t :=
  mk (aliveCells s) (grid s) (isRunning s) (negb (isAutoAdvancing s))
     (isDragging s) (dragState s).

Definition resetGrid (s : t) : M t :=
  grid0 <- createInitialGrid width height [] ;;
  ret (mk [] grid0 false false (isDragging s) (dragState s)).

(** What the user and the interval do to the page. *)
Inductive Event : Type :=
  | MouseDown (x y : Z)   (* on the cell at [(x, y)] *)
  | MouseEnter (x y : Z)  (* on the cell at [(x, y)] *)
  | MouseUp               (* anywhere in the window *)
  | MouseLeave            (* of the grid: [setIsDragging(false)] *)
  | Start
  | Advance               (* the button Next, or the interval *)
  | Auto
  | Reset.

Definition dispatch (e : Event) (s : t) : M t :=
  match e with
  | MouseDown x y => handleMouseDown x y s
  | MouseEnter x y => handleMouseEnter x y s
  | MouseUp => ret (handleMouseUp s)
  | MouseLeave => ret (handleMouseUp s)
  | Start => ret (startSimulation s)
  | Advance => advanceGeneration s
  | Auto => ret (toggleAutoAdvance s)
  | Reset => resetGrid s
  end.

Fixpoint run (es : list Event) (s : t) : M t :=
  match es with
  | [] => ret s
  | e :: es' => s' <- dispatch e s ;; run es' s'
  end.

(** The events carry the coordinates of a cell that is rendered. *)
Definition validEvent (e : Event) : Prop :=
  match e with
  | MouseDown x y | MouseEnter x y => 0 <= x < width /\ 0 <= y < height
  | _ => True
  end.


End Home.

(** The coordinates of an element of [aliveCells]. *)
Definition coordOf (a : Cell.t) : Z * Z := (Cell.x a, Cell.y a).

(** Some element of [l] has the coordinates [(x, y)]. *)
Definition listed (l : list Cell.t) (x y : Z) : Prop :=
  exists a, a ∈ l /\ Cell.x a = x /\ Cell.y a = y.

(** [l] without its first element that satisfies [p]. *)
Fixpoint removeFirst {A} (p : A -> bool) (l : list A) : list A :=
  match l with
  | [] => []
  | a :: l' => if p a then l' else a :: removeFirst p l'
  end.

(** What holds of the page in every render: the grid is a well-formed 25x25
    grid with exact neighbour caches and a generation that is not negative;
    the alive coordinates are inside the grid and pairwise distinct. *)
Definition pageInv (heap : Heap) (s : Home.t) : Prop :=
  wellFormed heap (Home.grid s) /\ cacheExact heap (Home.grid s) /\
  Grid.width (Home.grid s) = Home.width /\
  Grid.height (Home.grid s) = Home.height /\
  0 <= Grid.generation (Home.grid s) /\
  Forall (fun a => 0 <= Cell.x a < Home.width /\ 0 <= Cell.y a < Home.height)
         (Home.aliveCells s) /\
  NoDup (map coordOf (Home.aliveCells s)).

(** The board a grid of the store holds, dead outside the grid. *)
Definition boardIn (heap : Heap) (g : Grid.t) : Board :=
  fun x y => match stateAt heap g x y with
             | Some s => s
             | None => dead
             end.

(** The number of the in-bounds coordinates among [k - 1], [k] and [k + 1]
    in a range of [n]. *)
Definition span (n k : Z) : nat :=
  (if 0 <? k then 1%nat else 0%nat) + 1
  + (if k <? n - 1 then 1%nat else 0%nat).

(** The list of alive coordinates after a click on [(x, y)]: without its
    first element at [(x, y)] when there is one, with a new last element
    otherwise. *)
Definition toggled (x y : Z) (l : list Cell.t) : list Cell.t :=
  if existsb (fun cell => (Cell.x cell =? x) && (Cell.y cell =? y)) l
  then removeFirst (fun cell => (Cell.x cell =? x) && (Cell.y cell =? y)) l
  else l ++ [aliveAt x y].

(** ** Readers and commands: basic equations *)

Lemma bind_Ok {A B} (m : M A) (k : A -> M B) h a h' :
  m h = Ok (a, h') -> bind m k h = k a h'.
Proof. intros E. unfold bind. now rewrite E. Qed.

Lemma bind_Throw {A B} (m : M A) (k : A -> M B) h e :
  m h = Throw e -> bind m k h = Throw e.
Proof. intros E. unfold bind. now rewrite E. Qed.

Lemma bind_inv {A B} (m : M A) (k : A -> M B) h b h2 :
  bind m k h = Ok (b, h2) ->
  exists a h1, m h = Ok (a, h1) /\ k a h1 = Ok (b, h2).
Proof.
  unfold bind. destruct (m h) as [[a h1]|e]; [eauto | discriminate].
Qed.

Lemma bindR_Ok {A B} (m : R A) (k : A -> R B) h a :
  m h = Ok a -> bindR m k h = k a h.
Proof. intros E. unfold bindR. now rewrite E. Qed.

Lemma liftR_Ok {A} (m : R A) h a : m h = Ok a -> liftR m h = Ok (a, h).
Proof. intros E. unfold liftR. now rewrite E. Qed.

Lemma deref_Ok h r c : h !! r = Some c -> deref r h = Ok c.
Proof. intros E. unfold deref. now rewrite E. Qed.

Lemma assign_Ok h r c f :
  h !! r = Some c -> assign r f h = Ok (tt, <[r := f c]> h).
Proof. intros E. unfold assign. now rewrite E. Qed.

Lemma jsIndex_nat {A} (l : list A) (i : nat) :
  jsIndex l (Z.of_nat i) = l !! i.
Proof.
  unfold jsIndex. destruct (Z.leb_spec 0 (Z.of_nat i)); [|lia].
  now rewrite Nat2Z.id.
Qed.

Lemma jsIndex_Some {A} (l : list A) (i : Z) a :
  jsIndex l i = Some a <-> 0 <= i /\ l !! Z.to_nat i = Some a.
Proof.
  unfold jsIndex. destruct (Z.leb_spec 0 i); [tauto|].
  split; [discriminate | lia].
Qed.

Lemma jsIndex_in_range {A} (l : list A) (i : Z) :
  0 <= i < Z.of_nat (length l) -> exists a, jsIndex l i = Some a.
Proof.
  intros Hi. destruct (lookup_lt_is_Some_2 l (Z.to_nat i)) as [a Ha]; [lia|].
  exists a. apply jsIndex_Some. split; [lia | done].
Qed.

Lemma jsIndex_None {A} (l : list A) (i : Z) :
  i < 0 \/ Z.of_nat (length l) <= i -> jsIndex l i = None.
Proof.
  intros Hi. unfold jsIndex. destruct (Z.leb_spec 0 i); [|done].
  apply lookup_ge_None. lia.
Qed.

(** ** The store only grows *)

Lemma heapExt_refl h : heapExt h h.
Proof. now intros r c. Qed.

Lemma heapExt_trans h1 h2 h3 : heapExt h1 h2 -> heapExt h2 h3 -> heapExt h1 h3.
Proof. intros H12 H23 r c E. auto. Qed.

Lemma heapExt_length h h' : heapExt h h' -> (length h <= length h')%nat.
Proof.
  intros He. destruct h as [|c0 h0] using rev_ind; [simpl; lia|].
  clear IHh0.
  assert (E : (h0 ++ [c0]) !! length h0 = Some c0).
  { rewrite lookup_app_r by lia. now rewrite Nat.sub_diag. }
  apply He, lookup_lt_Some in E. rewrite length_app. simpl. lia.
Qed.

Lemma heapExt_alloc h c : heapExt h (h ++ [c]).
Proof. intros r c' E. now apply lookup_app_l_Some. Qed.

(** ** Loops *)

Lemma forM__app {A} (body : A -> M unit) l1 l2 h :
  forM_ body (l1 ++ l2) h = (forM_ body l1 ;; forM_ body l2) h.
Proof.
  revert h. induction l1 as [|a l1 IH]; intros h; simpl; [reflexivity|].
  unfold bind. destruct (body a h) as [[[] h1]|e]; [|done].
  apply IH.
Qed.

Lemma forM__concat {A} (body : A -> M unit) (ls : list (list A)) h :
  forM_ (fun row => forM_ body row) ls h = forM_ body (concat ls) h.
Proof.
  revert h. induction ls as [|row ls IH]; intros h; simpl; [done|].
  rewrite forM__app. unfold bind.
  destruct (forM_ body row h) as [[[] h1]|e]; [apply IH | done].
Qed.

(** A loop whose body keeps an invariant keeps it, when it returns. *)
Lemma forM__invariant {A} (body : A -> M unit) (I : Heap -> Prop) l h h' :
  (forall a h1 h2, a ∈ l -> I h1 -> body a h1 = Ok (tt, h2) -> I h2) ->
  I h -> forM_ body l h = Ok (tt, h') -> I h'.
Proof.
  revert h. induction l as [|a l IH]; intros h Hbody HI; simpl.
  - intros [= <-]. exact HI.
  - intros E. apply bind_inv in E as ([] & h1 & E1 & E2).
    apply (IH h1); [| |exact E2].
    + intros a' h2 h3 Ha'. apply Hbody. now right.
    + apply (Hbody a h h1); [left | exact HI | exact E1].
Qed.

(** A loop whose body returns under an invariant it keeps, returns. *)
Lemma forM__total {A} (body : A -> M unit) (I : Heap -> Prop) l h :
  (forall a h1, a ∈ l -> I h1 -> exists h2, body a h1 = Ok (tt, h2) /\ I h2) ->
  I h -> exists h', forM_ body l h = Ok (tt, h') /\ I h'.
Proof.
  revert h. induction l as [|a l IH]; intros h Hbody HI; simpl.
  - exists h. split; [done | exact HI].
  - destruct (Hbody a h) as (h1 & E1 & HI1); [left | exact HI |].
    destruct (IH h1) as (h' & E' & HI'); [|exact HI1|].
    + intros a' h2 Ha'. apply Hbody. now right.
    + exists h'. split; [|exact HI']. now rewrite (bind_Ok _ _ _ _ _ E1).
Qed.

(** A loop whose body does nothing on every element does nothing. *)
Lemma forM__skip {A} (body : A -> M unit) l h :
  (forall a, a ∈ l -> body a h = Ok (tt, h)) -> forM_ body l h = Ok (tt, h).
Proof.
  induction l as [|a l IH]; intros Hbody; simpl; [done|].
  rewrite (bind_Ok _ _ _ _ _ (Hbody a ltac:(left))).
  apply IH. intros a' Ha'. apply Hbody. now right.
Qed.

(** [map] with a callback that only allocates: every result satisfies the
    postcondition [Q] of the callback in the final store. *)
Lemma mapM_spec {A B} (f : A -> M B) (Q : A -> B -> Heap -> Prop) l h :
  (forall a b h1 h2, Q a b h1 -> heapExt h1 h2 -> Q a b h2) ->
  (forall a h1, a ∈ l -> heapExt h h1 ->
     exists b h2, f a h1 = Ok (b, h2) /\ heapExt h1 h2 /\ Q a b h2) ->
  exists bs h', mapM f l h = Ok (bs, h') /\ heapExt h h' /\
                Forall2 (fun a b => Q a b h') l bs.
Proof.
  intros Hmono. revert h. induction l as [|a l IH]; intros h Hf; simpl.
  - exists [], h. split; [done|]. split; [apply heapExt_refl | constructor].
  - destruct (Hf a h) as (b & h1 & E1 & Hext1 & HQ);
      [left | apply heapExt_refl |].
    destruct (IH h1) as (bs & h' & E' & Hext' & HQs).
    { intros a' h2 Ha' Hext2. apply Hf; [now right|].
      eapply heapExt_trans; eassumption. }
    exists (b :: bs), h'. split; [|split].
    + rewrite (bind_Ok _ _ _ _ _ E1), (bind_Ok _ _ _ _ _ E'). done.
    + eapply heapExt_trans; eassumption.
    + constructor; [eapply Hmono; eassumption | exact HQs].
Qed.

(** ** [getNeighbors] computes the adjacency rule *)

Lemma cellAt_row cells row x y :
  jsIndex cells y = Some row -> cellAt cells x y = jsIndex row x.
Proof. intros E. unfold cellAt. now rewrite E. Qed.

Lemma foldR_Ok {A B} (body : B -> A -> R B) (g : B -> A -> B) l acc h :
  (forall acc a, body acc a h = Ok (g acc a)) ->
  foldR body l acc h = Ok (fold_left g l acc).
Proof.
  intros Hbody. revert acc. induction l as [|a l IH]; intros acc; [done|].
  cbn [foldR fold_left]. rewrite (bindR_Ok _ _ _ _ (Hbody acc a)). apply IH.
Qed.

Lemma fold_left_neighbors cells width height x y ds acc :
  fold_left (fun ns (d : Z * Z) =>
      if inBounds width height (x + fst d, y + snd d)
      then ns ++ [cellAt cells (x + fst d) (y + snd d)] else ns) ds acc
  = acc ++ map (fun p => cellAt cells (fst p) (snd p))
               (filter (fun p => inBounds width height p)
                  (map (fun d => (x + fst d, y + snd d)) ds)).
Proof.
  revert acc. induction ds as [|d ds IH]; intros acc; cbn [fold_left map].
  - now rewrite app_nil_r.
  - rewrite IH, filter_cons.
    destruct (inBounds width height (x + d.1, y + d.2)) eqn:Hin.
    + rewrite decide_True by done.
      cbn [map fst snd]. now rewrite <- app_assoc.
    + rewrite decide_False by (intros []). done.
Qed.

Lemma getNeighbors_Ok cells cell width height heap c :
  heap !! cell = Some c ->
  Z.of_nat (length cells) = height ->
  getNeighbors cells cell width height heap
  = Ok (neighborList cells width height (Cell.x c) (Cell.y c)).
Proof.
  intros Hc Hlen. unfold getNeighbors, neighborList, around.
  erewrite foldR_Ok; [now rewrite fold_left_neighbors|].
  intros acc d. rewrite (bindR_Ok _ _ _ _ (deref_Ok _ _ _ Hc)). cbv zeta.
  unfold inBounds. cbn [fst snd].
  destruct ((0 <=? Cell.x c + d.1) && (Cell.x c + d.1 <? width)
            && (0 <=? Cell.y c + d.2) && (Cell.y c + d.2 <? height))
    eqn:Hin; [|done].
  destruct (jsIndex_in_range cells (Cell.y c + d.2)) as [row Hrow].
  { rewrite !andb_true_iff in Hin. lia. }
  unfold bindR. rewrite Hrow. cbn. now rewrite (cellAt_row _ _ _ _ Hrow).
Qed.

(** ** The neighbour-assignment loop *)

Lemma assignLoop_spec cells width height rs heap :
  Z.of_nat (length cells) = height ->
  (forall r, r ∈ rs -> is_Some (heap !! r)) ->
  exists heap',
    forM_ (fun cell =>
      ns <- liftR (getNeighbors cells cell width height) ;;
      setNeighbors cell ns) rs heap = Ok (tt, heap') /\
    length heap' = length heap /\
    forall r, heap' !! r = refreshed cells width height rs r <$> heap !! r.
Proof.
  intros Hlen. revert heap. induction rs as [|a rs IH]; intros heap Hvalid.
  - exists heap. split; [done|]. split; [done|]. intros r.
    unfold refreshed. destruct (heap !! r); cbn; [|done].
    rewrite decide_False; [done | apply not_elem_of_nil].
  - destruct (Hvalid a) as [ca Hca]; [left|].
    set (ns := neighborList cells width height (Cell.x ca) (Cell.y ca)).
    set (h1 := <[a := Cell.set_neighbors ca ns]> heap).
    destruct (IH h1) as (heap' & E' & Hlen' & Hget').
    { intros r Hr. apply lookup_lt_is_Some. unfold h1. rewrite length_insert.
      apply lookup_lt_is_Some, Hvalid. now right. }
    exists heap'. split; [|split].
    + cbn [forM_].
      erewrite bind_Ok; [exact E'|].
      erewrite bind_Ok;
        [|apply liftR_Ok, (getNeighbors_Ok _ _ _ _ _ _ Hca Hlen)].
      unfold setNeighbors. now rewrite (assign_Ok _ _ _ _ Hca).
    + rewrite Hlen'. unfold h1. apply length_insert.
    + intros r. rewrite Hget'. unfold h1.
      destruct (decide (r = a)) as [->|Hne].
      * rewrite list_lookup_insert_eq by (now apply lookup_lt_Some in Hca).
        rewrite Hca. cbn. f_equal. unfold refreshed.
        rewrite (decide_True (P := a ∈ a :: rs)) by left.
        destruct (decide (a ∈ rs)); [|done].
        now destruct ca.
      * rewrite list_lookup_insert_ne by done.
        destruct (heap !! r) as [c|]; cbn; [|done]. f_equal.
        unfold refreshed.
        destruct (decide (r ∈ rs)) as [Hin|Hout].
        -- rewrite decide_True; [done | now right].
        -- rewrite decide_False; [done|].
           intros [?|?]%elem_of_cons; done.
Qed.

Lemma assignNeighbors_spec cells width height heap :
  Z.of_nat (length cells) = height ->
  (forall r, r ∈ concat cells -> is_Some (heap !! r)) ->
  exists heap',
    assignNeighbors cells width height heap = Ok (tt, heap') /\
    length heap' = length heap /\
    forall r, heap' !! r
              = refreshed cells width height (concat cells) r <$> heap !! r.
Proof.
  intros Hlen Hvalid. unfold assignNeighbors.
  destruct (assignLoop_spec cells width height (concat cells) heap Hlen Hvalid)
    as (heap' & E & Hl & Hget).
  exists heap'. split; [|done].
  now rewrite forM__concat.
Qed.

(** ** Grid shapes *)

Lemma elem_of_concat_lookup {A} (ls : list (list A)) (a : A) :
  a ∈ concat ls <->
  exists i j row, ls !! i = Some row /\ row !! j = Some a.
Proof.
  rewrite list_elem_of_In, in_concat. split.
  - intros (row & Hrow & Ha).
    apply list_elem_of_In, list_elem_of_lookup in Ha as [j Hj].
    apply list_elem_of_In, list_elem_of_lookup in Hrow as [i Hi]. eauto.
  - intros (i & j & row & Hi & Hj). exists row.
    split; eapply list_elem_of_In, list_elem_of_lookup_2; eassumption.
Qed.

Lemma gridShape_valid heap cells width height r :
  gridShape heap cells width height -> r ∈ concat cells ->
  is_Some (heap !! r).
Proof.
  intros (_ & _ & Hc) (i & j & row & Hi & Hj)%elem_of_concat_lookup.
  destruct (Hc i j row r Hi Hj) as (c & E & _). eauto.
Qed.

Lemma gridShape_cellAt heap cells width height x y r :
  gridShape heap cells width height -> cellAt cells x y = Some r ->
  0 <= x < width /\ 0 <= y < height /\ r ∈ concat cells /\
  exists c, heap !! r = Some c /\ Cell.x c = x /\ Cell.y c = y.
Proof.
  intros (Hh & Hw & Hc). unfold cellAt.
  destruct (jsIndex cells y) as [row|] eqn:Hrow; [|discriminate].
  intros Hr. apply jsIndex_Some in Hrow as [Hy Hrow].
  apply jsIndex_Some in Hr as [Hx Hr].
  pose proof (lookup_lt_Some _ _ _ Hrow) as Hylt.
  pose proof (lookup_lt_Some _ _ _ Hr) as Hxlt.
  pose proof (Forall_lookup_1 _ _ _ _ Hw Hrow) as Hroww. cbn in Hroww.
  destruct (Hc _ _ _ _ Hrow Hr) as (c & E & Ex & Ey).
  split; [lia|]. split; [lia|]. split.
  - apply elem_of_concat_lookup. eauto.
  - exists c. split; [done|]. lia.
Qed.

Lemma gridShape_in_range heap cells width height x y :
  gridShape heap cells width height ->
  0 <= x < width -> 0 <= y < height ->
  exists r, cellAt cells x y = Some r.
Proof.
  intros (Hh & Hw & _) Hx Hy. unfold cellAt.
  destruct (jsIndex_in_range cells y) as [row Hrow]; [lia|].
  rewrite Hrow. apply jsIndex_in_range.
  apply jsIndex_Some in Hrow as [_ Hrow].
  pose proof (Forall_lookup_1 _ _ _ _ Hw Hrow) as Hroww. cbn in Hroww. lia.
Qed.

Lemma gridShape_elem heap cells width height r :
  gridShape heap cells width height -> r ∈ concat cells ->
  exists c, heap !! r = Some c /\
            cellAt cells (Cell.x c) (Cell.y c) = Some r.
Proof.
  intros (Hh & Hw & Hc) (i & j & row & Hi & Hj)%elem_of_concat_lookup.
  destruct (Hc i j row r Hi Hj) as (c & E & Ex & Ey).
  exists c. split; [done|]. rewrite Ex, Ey. unfold cellAt.
  now rewrite jsIndex_nat, Hi, jsIndex_nat.
Qed.

Lemma sameCells_refl cells h : sameCells cells h h.
Proof. split; [done|]. intros r c E. exists c. auto. Qed.

Lemma sameCells_trans cells h1 h2 h3 :
  sameCells cells h1 h2 -> sameCells cells h2 h3 -> sameCells cells h1 h3.
Proof.
  intros [L12 H12] [L23 H23]. split; [congruence|].
  intros r c E. destruct (H12 r c E) as (c2 & E2 & Ex2 & Ey2 & Hout2).
  destruct (H23 r c2 E2) as (c3 & E3 & Ex3 & Ey3 & Hout3).
  exists c3. repeat split; [done|congruence|congruence|].
  intros Hout. rewrite Hout3, Hout2; done.
Qed.

Lemma sameCells_assign cells h r c f :
  h !! r = Some c -> r ∈ concat cells ->
  Cell.x (f c) = Cell.x c -> Cell.y (f c) = Cell.y c ->
  sameCells cells h (<[r := f c]> h).
Proof.
  intros Hc Hin Hx Hy. split; [apply length_insert|].
  intros r' c' E. destruct (decide (r' = r)) as [->|Hne].
  - exists (f c). rewrite list_lookup_insert_eq
      by (now apply lookup_lt_Some in Hc).
    assert (c' = c) as -> by congruence. done.
  - exists c'. now rewrite list_lookup_insert_ne.
Qed.

Lemma sameCells_shape cells h h' width height :
  sameCells cells h h' -> gridShape h cells width height ->
  gridShape h' cells width height.
Proof.
  intros [_ Hsame] (Hh & Hw & Hc). split; [done|]. split; [done|].
  intros i j row r Hi Hj. destruct (Hc i j row r Hi Hj) as (c & E & Ex & Ey).
  destruct (Hsame r c E) as (c' & E' & Ex' & Ey' & _).
  exists c'. split; [done|]. split; congruence.
Qed.

Lemma sameCells_ext cells h h' h0 :
  sameCells cells h h' -> heapExt h0 h ->
  (forall r, r ∈ concat cells -> (length h0 <= r)%nat) ->
  heapExt h0 h'.
Proof.
  intros [_ Hsame] Hext Hfresh r c E.
  destruct (Hsame r c (Hext r c E)) as (c' & E' & _ & _ & Hout).
  rewrite E', Hout; [done|]. intros Hin%Hfresh.
  apply lookup_lt_Some in E. lia.
Qed.

Lemma refreshed_x cells width height rs r c :
  Cell.x (refreshed cells width height rs r c) = Cell.x c.
Proof. unfold refreshed. now destruct (decide _). Qed.

Lemma refreshed_y cells width height rs r c :
  Cell.y (refreshed cells width height rs r c) = Cell.y c.
Proof. unfold refreshed. now destruct (decide _). Qed.

Lemma refreshed_state cells width height rs r c :
  Cell.state (refreshed cells width height rs r c) = Cell.state c.
Proof. unfold refreshed. now destruct (decide _). Qed.

Lemma refreshed_sameCells cells width height h h' :
  length h' = length h ->
  (forall r, h' !! r
             = refreshed cells width height (concat cells) r <$> h !! r) ->
  sameCells cells h h'.
Proof.
  intros Hlen Hget. split; [done|]. intros r c E.
  exists (refreshed cells width height (concat cells) r c).
  rewrite Hget, E. split; [done|].
  rewrite refreshed_x, refreshed_y. repeat split.
  intros Hout. unfold refreshed. now rewrite decide_False.
Qed.

Lemma neighborList_inGrid heap cells width height x y :
  gridShape heap cells width height ->
  Forall (fun n : option ref => exists r', n = Some r' /\ r' ∈ concat cells)
         (neighborList cells width height x y).
Proof.
  intros Hshape. apply Forall_forall. intros n Hn.
  apply list_elem_of_fmap in Hn as ([px py] & -> & Hp).
  apply list_elem_of_filter in Hp as [Hin _].
  unfold inBounds in Hin. cbn [fst snd] in *.
  apply Is_true_eq_true in Hin. rewrite !andb_true_iff in Hin.
  destruct (gridShape_in_range _ _ _ _ px py Hshape) as [r Hr]; [lia..|].
  exists r. split; [done|].
  now apply (gridShape_cellAt _ _ _ _ _ _ _ Hshape Hr).
Qed.

(** The neighbour-assignment loop on a grid of the right shape returns; it
    leaves the shape and the states alone and makes every cache exact. *)
Lemma assignNeighbors_grid heap cells width height :
  gridShape heap cells width height ->
  exists heap',
    assignNeighbors cells width height heap = Ok (tt, heap') /\
    (forall r, heap' !! r
               = refreshed cells width height (concat cells) r <$> heap !! r) /\
    sameCells cells heap heap' /\
    gridShape heap' cells width height /\
    neighborsInGrid heap' cells /\
    (forall gen, cacheExact heap' (Grid.mk cells width height gen)).
Proof.
  intros Hshape.
  destruct (assignNeighbors_spec cells width height heap)
    as (heap' & E & Hlen & Hget).
  { apply Hshape. }
  { intros r. apply (gridShape_valid _ _ _ _ _ Hshape). }
  pose proof (refreshed_sameCells _ _ _ _ _ Hlen Hget) as Hsame.
  assert (Hexact : forall r c, r ∈ concat cells -> heap' !! r = Some c ->
            Cell.neighbors c
            = neighborList cells width height (Cell.x c) (Cell.y c)).
  { intros r c Hin. rewrite Hget.
    destruct (heap !! r) as [c0|]; cbn; [|discriminate].
    intros [= <-]. rewrite refreshed_x, refreshed_y.
    unfold refreshed. now rewrite decide_True. }
  assert (Hshape' : gridShape heap' cells width height)
    by (eapply sameCells_shape; eassumption).
  exists heap'. split; [done|]. split; [done|]. split; [done|].
  split; [done|]. split; [|exact (fun _ => Hexact)].
  intros r c Hin Hc. rewrite (Hexact r c Hin Hc).
  eapply neighborList_inGrid. eassumption.
Qed.

(** ** [createInitialGrid] *)

(** The allocation of the cells: row by row, every cell dead, at its
    coordinates, fresh. *)
Lemma initCells_spec width height heap :
  0 <= height -> 0 <= width \/ height = 0 ->
  exists cells heap1,
    arrayInit height (fun y =>
      arrayInit width (fun x => alloc (Cell.mk dead x y []))) heap
    = Ok (cells, heap1) /\
    heapExt heap heap1 /\
    gridShape heap1 cells width height /\
    allDead heap1 cells /\
    (forall r, r ∈ concat cells -> (length heap <= r)%nat).
Proof.
  intros Hh Hw. unfold arrayInit at 1.
  destruct (Z.ltb_spec height 0) as [|_]; [lia|].
  destruct (mapM_spec
    (fun y => arrayInit width (fun x => alloc (Cell.mk dead x y [])))
    (fun y row h1 =>
       Forall2 (fun x r => (length heap <= r)%nat /\
                           h1 !! r = Some (Cell.mk dead x y []))
               (seqZ 0 width) row)
    (seqZ 0 height) heap) as (cells & heap1 & E & Hext & Hall).
  { intros y row h1 h2 HQ Hext12. eapply Forall2_impl; [exact HQ|].
    cbn. intros x r [Hfresh Hr]. auto. }
  { intros y h1 Hy Hext1. apply elem_of_seqZ in Hy.
    unfold arrayInit. destruct (Z.ltb_spec width 0) as [|_]; [lia|].
    apply mapM_spec.
    - intros x r h2 h3 [Hfresh Hr] Hext23. auto.
    - intros x h2 _ Hext2. exists (length h2), (h2 ++ [Cell.mk dead x y []]).
      split; [done|]. split; [apply heapExt_alloc|]. split.
      + transitivity (length h1); apply heapExt_length; assumption.
      + rewrite lookup_app_r by lia. now rewrite Nat.sub_diag. }
  assert (Hcell : forall i j row r,
            cells !! i = Some row -> row !! j = Some r ->
            Z.of_nat i < height /\ Z.of_nat j < width /\
            (length heap <= r)%nat /\
            heap1 !! r = Some (Cell.mk dead (Z.of_nat j) (Z.of_nat i) [])).
  { intros i j row r Hi Hj.
    destruct (Forall2_lookup_r _ _ _ _ _ Hall Hi) as (y & Hy & Hrow).
    destruct (Forall2_lookup_r _ _ _ _ _ Hrow Hj) as (x & Hx & Hfresh & Hr).
    apply lookup_seqZ in Hy as [-> Hy]. apply lookup_seqZ in Hx as [-> Hx].
    rewrite !Z.add_0_l in Hr. done. }
  exists cells, heap1. split; [done|]. split; [done|]. split; [|split].
  - split; [|split].
    + rewrite <- (Forall2_length _ _ _ Hall), length_seqZ. lia.
    + apply Forall_lookup. intros i row Hi.
      destruct (Forall2_lookup_r _ _ _ _ _ Hall Hi) as (y & Hy & Hrow).
      apply lookup_seqZ in Hy as [_ Hy].
      rewrite <- (Forall2_length _ _ _ Hrow), length_seqZ. lia.
    + intros i j row r Hi Hj.
      destruct (Hcell i j row r Hi Hj) as (_ & _ & _ & Hr). eauto.
  - intros r c (i & j & row & Hi & Hj)%elem_of_concat_lookup Hc.
    destruct (Hcell i j row r Hi Hj) as (_ & _ & _ & Hr).
    rewrite Hr in Hc. now injection Hc as <-.
  - intros r (i & j & row & Hi & Hj)%elem_of_concat_lookup.
    now destruct (Hcell i j row r Hi Hj) as (_ & _ & Hfresh & _).
Qed.

(** [Array(n)] with a negative [n] raises. *)
Lemma initCells_RangeError width height heap :
  height < 0 \/ (0 < height /\ width < 0) ->
  arrayInit height (fun y =>
    arrayInit width (fun x => alloc (Cell.mk dead x y []))) heap
  = Throw RangeError.
Proof.
  intros [Hh|[Hh Hw]]; unfold arrayInit at 1.
  - now destruct (Z.ltb_spec height 0); [|lia].
  - destruct (Z.ltb_spec height 0); [lia|].
    rewrite seqZ_cons by lia. cbn [mapM]. apply bind_Throw.
    unfold arrayInit. now destruct (Z.ltb_spec width 0); [|lia].
Qed.

(** One iteration of the loop over [aliveCells]. *)
Lemma markAlive_eq cells width height (aliveCell : Cell.t) h :
  (if (Cell.x aliveCell <? width) && (Cell.y aliveCell <? height) then
     row <- liftR (member (jsIndex cells (Cell.y aliveCell))) ;;
     cell <- liftR (member (jsIndex row (Cell.x aliveCell))) ;;
     setState cell alive
   else ret tt) h
  = if (Cell.x aliveCell <? width) && (Cell.y aliveCell <? height) then
      match cellAt cells (Cell.x aliveCell) (Cell.y aliveCell) with
      | Some r => match h !! r with
                  | Some c => Ok (tt, <[r := Cell.set_state c alive]> h)
                  | None => Throw DanglingRef
                  end
      | None => Throw TypeError
      end
    else Ok (tt, h).
Proof.
  destruct ((Cell.x aliveCell <? width) && (Cell.y aliveCell <? height));
    [|done].
  unfold cellAt, bind, liftR.
  destruct (jsIndex cells (Cell.y aliveCell)) as [row|]; cbn; [|done].
  destruct (jsIndex row (Cell.x aliveCell)) as [r|]; cbn; [|done].
  unfold setState, assign. now destruct (h !! r).
Qed.

(** The loop over [aliveCells] keeps the shape, when it returns. *)
Lemma markAlive_inv cells width height aliveCells h h' :
  gridShape h cells width height ->
  forM_ (fun aliveCell : Cell.t =>
    if (Cell.x aliveCell <? width) && (Cell.y aliveCell <? height) then
      row <- liftR (member (jsIndex cells (Cell.y aliveCell))) ;;
      cell <- liftR (member (jsIndex row (Cell.x aliveCell))) ;;
      setState cell alive
    else ret tt) aliveCells h = Ok (tt, h') ->
  sameCells cells h h'.
Proof.
  intros Hshape E.
  eapply (forM__invariant _ (fun h1 => sameCells cells h h1)); [| |exact E].
  - intros a h1 h2 _ Hsame. cbv beta. rewrite markAlive_eq.
    destruct (_ && _); [|intros [= <-]; exact Hsame].
    destruct (cellAt cells (Cell.x a) (Cell.y a)) as [r|] eqn:Hr;
      [|discriminate].
    destruct (h1 !! r) as [c|] eqn:Hc; [|discriminate].
    intros [= <-]. eapply sameCells_trans; [exact Hsame|].
    apply (sameCells_assign cells h1 r c (fun c => Cell.set_state c alive));
      [done| |done..].
    eapply gridShape_cellAt; [|exact Hr].
    eapply sameCells_shape; eassumption.
  - apply sameCells_refl.
Qed.

(** The loop over [aliveCells] returns when no coordinate is negative. *)
Lemma markAlive_total cells width height aliveCells h :
  gridShape h cells width height ->
  Forall (safeCoord width height) aliveCells ->
  exists h',
    forM_ (fun aliveCell : Cell.t =>
      if (Cell.x aliveCell <? width) && (Cell.y aliveCell <? height) then
        row <- liftR (member (jsIndex cells (Cell.y aliveCell))) ;;
        cell <- liftR (member (jsIndex row (Cell.x aliveCell))) ;;
        setState cell alive
      else ret tt) aliveCells h = Ok (tt, h').
Proof.
  intros Hshape Hsafe.
  edestruct (forM__total
    (fun aliveCell : Cell.t =>
      if (Cell.x aliveCell <? width) && (Cell.y aliveCell <? height) then
        row <- liftR (member (jsIndex cells (Cell.y aliveCell))) ;;
        cell <- liftR (member (jsIndex row (Cell.x aliveCell))) ;;
        setState cell alive
      else ret tt)
    (fun h1 => sameCells cells h h1) aliveCells h) as (h' & E & _);
    [|apply sameCells_refl|eauto].
  intros a h1 Ha Hsame. cbv beta. rewrite markAlive_eq.
  destruct (_ && _) eqn:Hguard; [|eauto].
  rewrite andb_true_iff, !Z.ltb_lt in Hguard.
  pose proof (proj1 (Forall_forall _ _) Hsafe a Ha) as [Hout|Hnonneg];
    [tauto|].
  pose proof (sameCells_shape _ _ _ _ _ Hsame Hshape) as Hshape1.
  destruct (gridShape_in_range _ _ _ _ (Cell.x a) (Cell.y a) Hshape1)
    as [r Hr]; [lia..|].
  rewrite Hr.
  destruct (gridShape_cellAt _ _ _ _ _ _ _ Hshape1 Hr)
    as (_ & _ & Hin & c & Hc & _).
  rewrite Hc. eexists. split; [reflexivity|].
  eapply sameCells_trans; [exact Hsame|].
  now apply (sameCells_assign cells h1 r c (fun c => Cell.set_state c alive)).
Qed.

(** [createInitialGrid] is its three loops in sequence. *)
Lemma createInitialGrid_phases width height aliveCells heap g heap3 :
  createInitialGrid width height aliveCells heap = Ok (g, heap3) <->
  exists cells heap1 heap2,
    arrayInit height (fun y =>
      arrayInit width (fun x => alloc (Cell.mk dead x y []))) heap
    = Ok (cells, heap1) /\
    forM_ (fun aliveCell : Cell.t =>
      if (Cell.x aliveCell <? width) && (Cell.y aliveCell <? height) then
        row <- liftR (member (jsIndex cells (Cell.y aliveCell))) ;;
        cell <- liftR (member (jsIndex row (Cell.x aliveCell))) ;;
        setState cell alive
      else ret tt) aliveCells heap1 = Ok (tt, heap2) /\
    assignNeighbors cells width height heap2 = Ok (tt, heap3) /\
    g = Grid.mk cells width height 0.
Proof.
  unfold createInitialGrid. split.
  - intros E. apply bind_inv in E as (cells & heap1 & E1 & E).
    apply bind_inv in E as ([] & heap2 & E2 & E).
    apply bind_inv in E as ([] & heap3' & E3 & E).
    injection E as <- <-. exists cells, heap1, heap2. done.
  - intros (cells & heap1 & heap2 & E1 & E2 & E3 & ->).
    rewrite (bind_Ok _ _ _ _ _ E1), (bind_Ok _ _ _ _ _ E2),
      (bind_Ok _ _ _ _ _ E3). done.
Qed.

Lemma initCells_dims width height heap cells heap1 :
  arrayInit height (fun y =>
    arrayInit width (fun x => alloc (Cell.mk dead x y []))) heap
  = Ok (cells, heap1) ->
  0 <= height /\ (0 <= width \/ height = 0).
Proof.
  intros E.
  destruct (decide (height < 0 \/ (0 < height /\ width < 0))) as [Hbad|Hok].
  - now rewrite (initCells_RangeError _ _ _ Hbad) in E.
  - lia.
Qed.

(** What every grid returned by [createInitialGrid] satisfies. *)
Lemma createInitialGrid_inv width height aliveCells heap g heap' :
  createInitialGrid width height aliveCells heap = Ok (g, heap') ->
  Grid.width g = width /\ Grid.height g = height /\ Grid.generation g = 0 /\
  wellFormed heap' g /\ cacheExact heap' g /\ heapExt heap heap' /\
  (forall r, r ∈ concat (Grid.cells g) -> (length heap <= r)%nat).
Proof.
  intros (cells & heap1 & heap2 & E1 & E2 & E3 & ->)%createInitialGrid_phases.
  destruct (initCells_dims _ _ _ _ _ E1) as [Hh Hw].
  destruct (initCells_spec width height heap Hh Hw)
    as (cells' & heap1' & E1' & Hext1 & Hshape1 & _ & Hfresh).
  rewrite E1 in E1'. injection E1' as <- <-.
  pose proof (markAlive_inv _ _ _ _ _ _ Hshape1 E2) as Hsame2.
  pose proof (sameCells_shape _ _ _ _ _ Hsame2 Hshape1) as Hshape2.
  destruct (assignNeighbors_grid _ _ _ _ Hshape2)
    as (heap3 & E3' & _ & Hsame3 & Hshape3 & Hin3 & Hexact3).
  rewrite E3 in E3'. injection E3' as <-.
  cbn [Grid.width Grid.height Grid.generation Grid.cells].
  split; [done|]. split; [done|]. split; [done|].
  split; [split; assumption|]. split; [apply Hexact3|]. split; [|done].
  eapply sameCells_ext; [exact Hsame3| |exact Hfresh].
  eapply sameCells_ext; [exact Hsame2|exact Hext1|exact Hfresh].
Qed.

(** [createInitialGrid] returns for all dimensions that [Array] accepts and
    all coordinates that are not negative. *)
Lemma createInitialGrid_total width height aliveCells heap :
  0 <= height -> 0 <= width \/ height = 0 ->
  Forall (safeCoord width height) aliveCells ->
  exists g heap', createInitialGrid width height aliveCells heap = Ok (g, heap').
Proof.
  intros Hh Hw Hsafe.
  destruct (initCells_spec width height heap Hh Hw)
    as (cells & heap1 & E1 & _ & Hshape1 & _).
  destruct (markAlive_total _ _ _ _ _ Hshape1 Hsafe) as (heap2 & E2).
  pose proof (markAlive_inv _ _ _ _ _ _ Hshape1 E2) as Hsame2.
  pose proof (sameCells_shape _ _ _ _ _ Hsame2 Hshape1) as Hshape2.
  destruct (assignNeighbors_grid _ _ _ _ Hshape2) as (heap3 & E3 & _).
  exists (Grid.mk cells width height 0), heap3.
  apply createInitialGrid_phases. exists cells, heap1, heap2. done.
Qed.

(** Without alive coordinates every cell of the grid is dead. *)
Lemma createInitialGrid_empty_dead width height heap g heap' :
  createInitialGrid width height [] heap = Ok (g, heap') ->
  allDead heap' (Grid.cells g).
Proof.
  intros (cells & heap1 & heap2 & E1 & E2 & E3 & ->)%createInitialGrid_phases.
  destruct (initCells_dims _ _ _ _ _ E1) as [Hh Hw].
  destruct (initCells_spec width height heap Hh Hw)
    as (cells' & heap1' & E1' & _ & Hshape1 & Hdead1 & _).
  rewrite E1 in E1'. injection E1' as <- <-.
  cbn in E2. injection E2 as <-.
  destruct (assignNeighbors_grid _ _ _ _ Hshape1)
    as (heap3 & E3' & Hget & _).
  rewrite E3 in E3'. injection E3' as <-.
  intros r c Hin. cbn [Grid.cells] in Hin. rewrite Hget.
  destruct (heap1 !! r) as [c1|] eqn:Hc1; cbn; [|discriminate].
  intros [= <-]. rewrite refreshed_state. eapply Hdead1; eassumption.
Qed.

(** ** [getNextCellState] computes the rule *)

Lemma filterLive_Ok heap (ns : list (option ref)) :
  Forall (fun n => exists r, n = Some r /\ is_Some (heap !! r)) ns ->
  filterR (fun neighbor =>
            n <~ member neighbor ;;
            nc <~ deref n ;;
            retR (isAlive (Cell.state nc))) ns heap
  = Ok (filter (fun n => liveRef heap n) ns).
Proof.
  intros Hvalid. set (p := fun neighbor : option ref => _).
  induction Hvalid as [|n ns (r & -> & nc & Hnc) _ IH]; [done|].
  assert (Hp : p (Some r) heap = Ok (isAlive (Cell.state nc))).
  { unfold p, bindR, member, retR. now rewrite (deref_Ok _ _ _ Hnc). }
  cbn [filterR]. rewrite (bindR_Ok _ _ _ _ Hp), (bindR_Ok _ _ _ _ IH).
  rewrite filter_cons. cbn [liveRef]. rewrite Hnc.
  now destruct (isAlive (Cell.state nc)).
Qed.

Lemma countLiveNeighbors_Ok heap cell c :
  heap !! cell = Some c -> validNeighbors heap c ->
  countLiveNeighbors cell heap = Ok (liveNeighborCount heap c).
Proof.
  intros Hc Hvalid. unfold countLiveNeighbors.
  rewrite (bindR_Ok _ _ _ _ (deref_Ok _ _ _ Hc)).
  now rewrite (bindR_Ok _ _ _ _ (filterLive_Ok _ _ Hvalid)).
Qed.

Lemma shouldSurvive_Ok heap cell c :
  heap !! cell = Some c -> validNeighbors heap c ->
  shouldSurvive cell heap
  = Ok (isAlive (Cell.state c)
        && ((liveNeighborCount heap c =? 2)%nat
            || (liveNeighborCount heap c =? 3)%nat)).
Proof.
  intros Hc Hvalid. unfold shouldSurvive.
  rewrite (bindR_Ok _ _ _ _ (countLiveNeighbors_Ok _ _ _ Hc Hvalid)).
  now rewrite (bindR_Ok _ _ _ _ (deref_Ok _ _ _ Hc)).
Qed.

Lemma shouldBeBorn_Ok heap cell c :
  heap !! cell = Some c -> validNeighbors heap c ->
  shouldBeBorn cell heap
  = Ok (isDead (Cell.state c) && (liveNeighborCount heap c =? 3)%nat).
Proof.
  intros Hc Hvalid. unfold shouldBeBorn.
  rewrite (bindR_Ok _ _ _ _ (countLiveNeighbors_Ok _ _ _ Hc Hvalid)).
  now rewrite (bindR_Ok _ _ _ _ (deref_Ok _ _ _ Hc)).
Qed.

Lemma getNextCellState_Ok heap cell c :
  heap !! cell = Some c -> validNeighbors heap c ->
  getNextCellState cell heap
  = Ok (nextState (Cell.state c) (liveNeighborCount heap c)).
Proof.
  intros Hc Hvalid. unfold getNextCellState.
  rewrite (bindR_Ok _ _ _ _ (shouldSurvive_Ok _ _ _ Hc Hvalid)).
  set (n := liveNeighborCount heap c).
  destruct (isAlive (Cell.state c) && ((n =? 2)%nat || (n =? 3)%nat))
    eqn:Hsurvive.
  - unfold nextState. fold n. destruct (Cell.state c); [|done].
    cbn in Hsurvive. now rewrite Hsurvive.
  - rewrite (bindR_Ok _ _ _ _ (shouldBeBorn_Ok _ _ _ Hc Hvalid)).
    unfold nextState, retR. fold n.
    destruct (Cell.state c); cbn in *; [now rewrite Hsurvive | done].
Qed.

Lemma liveRef_ext h h' n :
  heapExt h h' -> (exists r, n = Some r /\ is_Some (h !! r)) ->
  liveRef h' n = liveRef h n.
Proof.
  intros Hext (r & -> & c & Hc). cbn. now rewrite Hc, (Hext _ _ Hc).
Qed.

Lemma liveNeighborCount_ext h h' c :
  heapExt h h' -> validNeighbors h c ->
  liveNeighborCount h' c = liveNeighborCount h c.
Proof.
  intros Hext Hvalid. unfold liveNeighborCount. f_equal.
  induction Hvalid as [|n ns Hn _ IH]; [done|].
  rewrite !filter_cons, IH, (liveRef_ext _ _ _ Hext Hn). done.
Qed.

Lemma validNeighbors_ext h h' c :
  heapExt h h' -> validNeighbors h c -> validNeighbors h' c.
Proof.
  intros Hext Hvalid. eapply Forall_impl; [exact Hvalid|].
  cbn. intros n (r & -> & c' & Hc'). exists r. split; [done|].
  exists c'. auto.
Qed.

Lemma wellFormed_validNeighbors heap g r c :
  wellFormed heap g -> r ∈ concat (Grid.cells g) -> heap !! r = Some c ->
  validNeighbors heap c.
Proof.
  intros [Hshape Hin] Hr Hc. eapply Forall_impl; [exact (Hin r c Hr Hc)|].
  cbn. intros n (r' & -> & Hr'). exists r'. split; [done|].
  eapply gridShape_valid; eassumption.
Qed.

(** ** [createNextGeneration] *)

Lemma Forall2_cellAt (P : ref -> ref -> Prop) cells cells' x y r :
  Forall2 (Forall2 P) cells cells' -> cellAt cells x y = Some r ->
  exists r', cellAt cells' x y = Some r' /\ P r r'.
Proof.
  intros Hall. unfold cellAt.
  destruct (jsIndex cells y) as [row|] eqn:Hrow; [|discriminate].
  intros Hr. apply jsIndex_Some in Hrow as [Hy Hrow].
  apply jsIndex_Some in Hr as [Hx Hr].
  destruct (Forall2_lookup_l _ _ _ _ _ Hall Hrow) as (row' & Hrow' & Hrows).
  destruct (Forall2_lookup_l _ _ _ _ _ Hrows Hr) as (r' & Hr' & HP).
  exists r'. split; [|done].
  rewrite (proj2 (jsIndex_Some cells' y row')) by done.
  now apply jsIndex_Some.
Qed.

Lemma Forall2_grid_lookup_r (P : ref -> ref -> Prop) cells cells' i j row' r' :
  Forall2 (Forall2 P) cells cells' ->
  cells' !! i = Some row' -> row' !! j = Some r' ->
  exists row r, cells !! i = Some row /\ row !! j = Some r /\ P r r'.
Proof.
  intros Hall Hi Hj.
  destruct (Forall2_lookup_r _ _ _ _ _ Hall Hi) as (row & Hrow & Hrows).
  destruct (Forall2_lookup_r _ _ _ _ _ Hrows Hj) as (r & Hr & HP).
  eauto.
Qed.

(** The copies of the cells: each carries the next state of its original,
    computed in the store as it was before the step. *)
Lemma newCells_spec heap cells :
  (forall r, r ∈ concat cells ->
     exists c, heap !! r = Some c /\ validNeighbors heap c) ->
  exists newCells heap1,
    mapM (fun row =>
      mapM (fun cell =>
        state <- liftR (getNextCellState cell) ;;
        c <- liftR (deref cell) ;;
        alloc (Cell.mk state (Cell.x c) (Cell.y c) (Cell.neighbors c))) row)
      cells heap = Ok (newCells, heap1) /\
    heapExt heap heap1 /\
    Forall2 (Forall2 (fun old new => stepped heap old new heap1))
            cells newCells.
Proof.
  intros Hvalid.
  apply (mapM_spec _
    (fun row newRow h1 =>
       Forall2 (fun old new => stepped heap old new h1) row newRow)).
  { intros row newRow h1 h2 HQ Hext. eapply Forall2_impl; [exact HQ|].
    cbn. intros old new (Hfresh & c & Hc & Hnew). split; [done|]. eauto. }
  intros row h1 Hrow Hext1.
  apply (mapM_spec _ (fun old new h2 => stepped heap old new h2)).
  { intros old new h2 h3 (Hfresh & c & Hc & Hnew) Hext. split; [done|]. eauto. }
  intros old h2 Hold Hext2.
  assert (Hext : heapExt heap h2) by (eapply heapExt_trans; eassumption).
  destruct (Hvalid old) as (c & Hc & Hns).
  { apply list_elem_of_In, in_concat. exists row.
    split; now apply list_elem_of_In. }
  eexists _, _. split; [|split; [apply heapExt_alloc|]].
  - erewrite bind_Ok; cycle 1.
    { apply liftR_Ok, (getNextCellState_Ok h2 old c); [now apply Hext|].
      eapply validNeighbors_ext; eassumption. }
    erewrite bind_Ok; [|apply liftR_Ok, deref_Ok, Hext, Hc].
    reflexivity.
  - split; [now apply heapExt_length|]. exists c. split; [done|].
    rewrite lookup_app_r by lia. rewrite Nat.sub_diag. cbn.
    now rewrite (liveNeighborCount_ext _ _ _ Hext Hns).
Qed.

(** [createNextGeneration] on a well-formed grid: it returns, the store it
    was given is untouched, and the new grid is made of fresh cells, each the
    successor of the cell at the same place. *)
Lemma createNextGeneration_spec heap g :
  wellFormed heap g ->
  exists newCells heap',
    createNextGeneration g heap
    = Ok (Grid.mk newCells (Grid.width g) (Grid.height g)
            (Grid.generation g + 1), heap') /\
    heapExt heap heap' /\
    gridShape heap' newCells (Grid.width g) (Grid.height g) /\
    neighborsInGrid heap' newCells /\
    (forall gen,
       cacheExact heap' (Grid.mk newCells (Grid.width g) (Grid.height g) gen)) /\
    (forall r, r ∈ concat newCells -> (length heap <= r)%nat) /\
    Forall2 (Forall2 (successor heap heap')) (Grid.cells g) newCells.
Proof.
  intros Hwf. pose proof Hwf as [Hshape Hin].
  destruct (newCells_spec heap (Grid.cells g))
    as (newCells & heap1 & E1 & Hext1 & Hall).
  { intros r Hr. destruct (gridShape_valid _ _ _ _ _ Hshape Hr) as [c Hc].
    exists c. split; [done|]. eapply wellFormed_validNeighbors; eassumption. }
  assert (Hfresh : forall r, r ∈ concat newCells -> (length heap <= r)%nat).
  { intros r (i & j & row & Hi & Hj)%elem_of_concat_lookup.
    destruct (Forall2_grid_lookup_r _ _ _ _ _ _ _ Hall Hi Hj)
      as (_ & _ & _ & _ & Hr & _). exact Hr. }
  assert (Hshape1 : gridShape heap1 newCells (Grid.width g) (Grid.height g)).
  { destruct Hshape as (Hh & Hw & Hc). split; [|split].
    - now rewrite <- (Forall2_length _ _ _ Hall).
    - apply Forall_lookup. intros i row' Hi.
      destruct (Forall2_lookup_r _ _ _ _ _ Hall Hi) as (row & Hrow & Hrows).
      rewrite <- (Forall2_length _ _ _ Hrows).
      exact (Forall_lookup_1 _ _ _ _ Hw Hrow).
    - intros i j row' r' Hi Hj.
      destruct (Forall2_grid_lookup_r _ _ _ _ _ _ _ Hall Hi Hj)
        as (row & r & Hrow & Hr & _ & c & Hold & Hnew).
      destruct (Hc i j row r Hrow Hr) as (c0 & Hc0 & Hx & Hy).
      assert (c0 = c) as -> by congruence.
      eexists. split; [exact Hnew|]. done. }
  destruct (assignNeighbors_grid _ _ _ _ Hshape1)
    as (heap2 & E2 & Hget & Hsame & Hshape2 & Hin2 & Hexact2).
  exists newCells, heap2. split; [|split; [|split; [|split; [|split; [|split]]]]];
    try done.
  - unfold createNextGeneration.
    now rewrite (bind_Ok _ _ _ _ _ E1), (bind_Ok _ _ _ _ _ E2).
  - eapply sameCells_ext; eassumption.
  - eapply Forall2_impl; [exact Hall|]. cbn. intros row row' Hrows.
    eapply Forall2_impl; [exact Hrows|]. cbn.
    intros old new (_ & c & Hold & Hnew).
    exists c. eexists. split; [done|]. rewrite Hget, Hnew. cbn.
    split; [reflexivity|].
    now rewrite refreshed_state, refreshed_x, refreshed_y.
Qed.

(** ** [areGridsEqual] *)

Lemma allR_spec {A} (test : A -> R bool) (l : list A) h :
  (forall a, a ∈ l -> exists b, test a h = Ok b) ->
  exists b, allR test l h = Ok b /\
            (b = true <-> forall a, a ∈ l -> test a h = Ok true).
Proof.
  induction l as [|a l IH]; intros Htest.
  - exists true. split; [done|]. split; [|done].
    intros _ a Ha. now apply not_elem_of_nil in Ha.
  - destruct (Htest a) as [b Hb]; [left|].
    cbn [allR]. rewrite (bindR_Ok _ _ _ _ Hb). destruct b.
    + destruct IH as (b & E & Hiff).
      { intros a' Ha'. apply Htest. now right. }
      exists b. split; [done|]. rewrite Hiff. split.
      * intros Hl a' [->|Ha']%elem_of_cons; auto.
      * intros Hl a' Ha'. apply Hl. now right.
    + exists false. split; [done|]. split; [done|].
      intros Hl. specialize (Hl a ltac:(left)). congruence.
Qed.

Lemma allR_ext {A} (test test' : A -> R bool) (l : list A) h h' :
  (forall a, a ∈ l -> test a h = test' a h') ->
  allR test l h = allR test' l h'.
Proof.
  induction l as [|a l IH]; intros Htest; [done|].
  cbn [allR]. unfold bindR. rewrite (Htest a) by left.
  destruct (test' a h') as [[]|]; [|done..].
  apply IH. intros a' Ha'. apply Htest. now right.
Qed.

Lemma stateOf_eq g x y h :
  stateOf g x y h
  = match cellAt (Grid.cells g) x y with
    | Some r => match h !! r with
                | Some c => Ok (Cell.state c)
                | None => Throw DanglingRef
                end
    | None => Throw TypeError
    end.
Proof.
  unfold stateOf, cellAt, bindR.
  destruct (jsIndex (Grid.cells g) y) as [row|]; cbn; [|done].
  destruct (jsIndex row x) as [r|]; cbn; [|done].
  unfold deref. now destruct (h !! r).
Qed.

Lemma stateOf_Ok heap g x y :
  gridShape heap (Grid.cells g) (Grid.width g) (Grid.height g) ->
  0 <= x < Grid.width g -> 0 <= y < Grid.height g ->
  exists s, stateOf g x y heap = Ok s /\ stateAt heap g x y = Some s.
Proof.
  intros Hshape Hx Hy.
  destruct (gridShape_in_range _ _ _ _ x y Hshape Hx Hy) as [r Hr].
  destruct (gridShape_cellAt _ _ _ _ _ _ _ Hshape Hr)
    as (_ & _ & _ & c & Hc & _).
  exists (Cell.state c). rewrite stateOf_eq. unfold stateAt.
  now rewrite Hr, Hc.
Qed.

Lemma areGridsEqual_dims g1 g2 heap :
  Grid.width g1 <> Grid.width g2 \/ Grid.height g1 <> Grid.height g2 ->
  areGridsEqual g1 g2 heap = Ok false.
Proof.
  intros Hdims. unfold areGridsEqual.
  destruct (Z.eqb_spec (Grid.width g1) (Grid.width g2));
    destruct (Z.eqb_spec (Grid.height g1) (Grid.height g2)); cbn;
    first [done | tauto].
Qed.

Lemma areGridsEqual_spec heap g1 g2 :
  gridShape heap (Grid.cells g1) (Grid.width g1) (Grid.height g1) ->
  gridShape heap (Grid.cells g2) (Grid.width g2) (Grid.height g2) ->
  exists b, areGridsEqual g1 g2 heap = Ok b /\
    (b = true <->
     Grid.width g1 = Grid.width g2 /\ Grid.height g1 = Grid.height g2 /\
     forall x y, 0 <= x < Grid.width g1 -> 0 <= y < Grid.height g1 ->
                 stateAt heap g1 x y = stateAt heap g2 x y).
Proof.
  intros Hshape1 Hshape2.
  destruct (decide (Grid.width g1 = Grid.width g2
                    /\ Grid.height g1 = Grid.height g2)) as [[Hw Hh]|Hdims].
  2:{ exists false. split; [apply areGridsEqual_dims; lia|].
      split; [done | tauto]. }
  unfold areGridsEqual.
  rewrite (proj2 (Z.eqb_eq _ _) Hw), (proj2 (Z.eqb_eq _ _) Hh). cbn [negb orb].
  assert (Hcell : forall x y,
    0 <= x < Grid.width g1 -> 0 <= y < Grid.height g1 ->
    (s1 <~ stateOf g1 x y ;; s2 <~ stateOf g2 x y ;;
     retR (bool_decide (s1 = s2))) heap
    = Ok (bool_decide (stateAt heap g1 x y = stateAt heap g2 x y))).
  { intros x y Hx Hy.
    destruct (stateOf_Ok _ _ x y Hshape1) as (s1 & E1 & ->); [lia..|].
    destruct (stateOf_Ok _ _ x y Hshape2) as (s2 & E2 & ->); [lia..|].
    rewrite (bindR_Ok _ _ _ _ E1), (bindR_Ok _ _ _ _ E2). unfold retR.
    f_equal. apply bool_decide_ext. split; congruence. }
  assert (Hrow : forall y, 0 <= y < Grid.height g1 ->
    exists b,
      allR (fun x => s1 <~ stateOf g1 x y ;; s2 <~ stateOf g2 x y ;;
                     retR (bool_decide (s1 = s2)))
           (seqZ 0 (Grid.width g1)) heap = Ok b /\
      (b = true <-> forall x, 0 <= x < Grid.width g1 ->
                      stateAt heap g1 x y = stateAt heap g2 x y)).
  { intros y Hy.
    edestruct (allR_spec
      (fun x => s1 <~ stateOf g1 x y ;; s2 <~ stateOf g2 x y ;;
                retR (bool_decide (s1 = s2)))
      (seqZ 0 (Grid.width g1)) heap) as (b & E & Hiff).
    { intros x Hx%elem_of_seqZ. rewrite Hcell by lia. eauto. }
    exists b. split; [done|]. rewrite Hiff. split.
    - intros Hall x Hx. specialize (Hall x). rewrite Hcell in Hall by lia.
      assert (Hb : Ok (bool_decide (stateAt heap g1 x y = stateAt heap g2 x y))
                   = Ok true) by (apply Hall, elem_of_seqZ; lia).
      injection Hb as Hb. now apply bool_decide_eq_true in Hb.
    - intros Hall x Hx%elem_of_seqZ. rewrite Hcell by lia.
      f_equal. apply bool_decide_eq_true. apply Hall. lia. }
  edestruct (allR_spec
    (fun y => allR (fun x => s1 <~ stateOf g1 x y ;; s2 <~ stateOf g2 x y ;;
                             retR (bool_decide (s1 = s2)))
                   (seqZ 0 (Grid.width g1)))
    (seqZ 0 (Grid.height g1)) heap) as (b & E & Hiff).
  { intros y Hy%elem_of_seqZ. destruct (Hrow y) as (b & E & _); [lia|]. eauto. }
  exists b. split; [done|]. rewrite Hiff. split.
  - intros Hall. split; [done|]. split; [done|]. intros x y Hx Hy.
    destruct (Hrow y Hy) as (b' & E' & Hiff').
    rewrite Hall in E' by (apply elem_of_seqZ; lia).
    injection E' as <-. now apply Hiff'.
  - intros (_ & _ & Hall) y Hy%elem_of_seqZ.
    destruct (Hrow y) as (b' & E' & Hiff'); [lia|].
    rewrite E'. f_equal. apply Hiff'. intros x Hx. apply Hall; lia.
Qed.

(** The result depends on the widths, the heights, the cell arrays and the
    states of the cells; on nothing else. *)
Lemma areGridsEqual_ext g1 g2 g1' g2' h h' :
  Grid.cells g1' = Grid.cells g1 -> Grid.width g1' = Grid.width g1 ->
  Grid.height g1' = Grid.height g1 ->
  Grid.cells g2' = Grid.cells g2 -> Grid.width g2' = Grid.width g2 ->
  Grid.height g2' = Grid.height g2 ->
  (forall r, Cell.state <$> h' !! r = Cell.state <$> h !! r) ->
  areGridsEqual g1' g2' h' = areGridsEqual g1 g2 h.
Proof.
  intros Hc1 Hw1 Hh1 Hc2 Hw2 Hh2 Hstates. unfold areGridsEqual.
  rewrite Hw1, Hh1, Hw2, Hh2.
  destruct (negb _ || negb _); [done|].
  apply allR_ext. intros y _. apply allR_ext. intros x _.
  assert (Hstate : forall g g', Grid.cells g' = Grid.cells g ->
                     stateOf g' x y h' = stateOf g x y h).
  { intros g g' Hc. rewrite !stateOf_eq, Hc.
    destruct (cellAt (Grid.cells g) x y) as [r|]; [|done].
    specialize (Hstates r).
    destruct (h' !! r), (h !! r); cbn in Hstates; congruence. }
  unfold bindR. now rewrite (Hstate g1 g1' Hc1), (Hstate g2 g2' Hc2).
Qed.

(** ** The adjacency rule *)

Lemma inBounds_iff width height p :
  inBounds width height p <-> 0 <= fst p < width /\ 0 <= snd p < height.
Proof.
  unfold inBounds. rewrite !andb_True, !Is_true_true.
  rewrite !Z.leb_le, !Z.ltb_lt. lia.
Qed.

Lemma around_eq x y :
  around x y = [ (x - 1, y - 1); (x - 1, y); (x - 1, y + 1);
                 (x, y - 1);                 (x, y + 1);
                 (x + 1, y - 1); (x + 1, y); (x + 1, y + 1) ].
Proof.
  unfold around, directions. cbn [map fst snd].
  repeat (f_equal; try lia).
Qed.

Lemma elem_of_around x y p :
  p ∈ around x y <->
  x - 1 <= fst p <= x + 1 /\ y - 1 <= snd p <= y + 1 /\ p <> (x, y).
Proof.
  rewrite around_eq. destruct p as [px py]. cbn [fst snd].
  rewrite !elem_of_cons, elem_of_nil. split.
  - intros H. repeat destruct H as [H|H]; try done;
      injection H as -> ->; (split; [lia|]; split; [lia|]);
      intros Hc; injection Hc; lia.
  - intros (Hx & Hy & Hne).
    assert (Hpx : px = x - 1 \/ px = x \/ px = x + 1) by lia.
    assert (Hpy : py = y - 1 \/ py = y \/ py = y + 1) by lia.
    destruct Hpx as [-> | [-> | ->]]; destruct Hpy as [-> | [-> | ->]];
      tauto.
Qed.

Lemma around_NoDup x y : NoDup (around x y).
Proof.
  rewrite around_eq.
  repeat (apply NoDup_cons; split;
          [rewrite ?elem_of_cons, elem_of_nil; intros H;
           repeat destruct H as [H|H]; try done; injection H; lia|]).
  apply NoDup_nil_2.
Qed.

Lemma cellAt_inj heap cells width height p q r :
  gridShape heap cells width height ->
  cellAt cells (fst p) (snd p) = Some r ->
  cellAt cells (fst q) (snd q) = Some r -> p = q.
Proof.
  intros Hshape Hp Hq.
  destruct (gridShape_cellAt _ _ _ _ _ _ _ Hshape Hp)
    as (_ & _ & _ & c & Hc & Hx & Hy).
  destruct (gridShape_cellAt _ _ _ _ _ _ _ Hshape Hq)
    as (_ & _ & _ & c' & Hc' & Hx' & Hy').
  assert (c' = c) as -> by congruence.
  destruct p, q. cbn in *. congruence.
Qed.

Lemma elem_of_neighborList heap cells width height x y n :
  gridShape heap cells width height ->
  n ∈ neighborList cells width height x y <->
  exists x' y' r', n = Some r' /\ cellAt cells x' y' = Some r' /\
    x - 1 <= x' <= x + 1 /\ y - 1 <= y' <= y + 1 /\ (x', y') <> (x, y).
Proof.
  intros Hshape. unfold neighborList. rewrite list_elem_of_fmap. split.
  - intros ([px py] & -> & Hp). cbn [fst snd].
    apply list_elem_of_filter in Hp as [Hin Hp].
    apply inBounds_iff in Hin. apply elem_of_around in Hp.
    cbn [fst snd] in *.
    destruct (gridShape_in_range _ _ _ _ px py Hshape) as [r' Hr']; [lia..|].
    exists px, py, r'. tauto.
  - intros (x' & y' & r' & -> & Hr' & Hx & Hy & Hne).
    exists (x', y'). split; [done|]. apply list_elem_of_filter. split.
    + apply inBounds_iff. cbn [fst snd].
      destruct (gridShape_cellAt _ _ _ _ _ _ _ Hshape Hr'). lia.
    + apply elem_of_around. done.
Qed.

Lemma neighborList_NoDup heap cells width height x y :
  gridShape heap cells width height ->
  NoDup (neighborList cells width height x y).
Proof.
  intros Hshape. unfold neighborList. apply NoDup_fmap_2_strong.
  - intros p q Hp Hq Heq.
    apply list_elem_of_filter in Hp as [Hp _]. apply inBounds_iff in Hp.
    destruct (gridShape_in_range _ _ _ _ (fst p) (snd p) Hshape)
      as [r Hr]; [lia..|].
    rewrite Hr in Heq. symmetry in Heq.
    eapply cellAt_inj; eassumption.
  - apply NoDup_filter, around_NoDup.
Qed.

Lemma neighborList_not_self heap cells width height x y r :
  gridShape heap cells width height ->
  cellAt cells x y = Some r ->
  Some r ∉ neighborList cells width height x y.
Proof.
  intros Hshape Hr
    (x' & y' & r' & [= <-] & Hr' & _ & _ & Hne)%(elem_of_neighborList heap).
  2: exact Hshape.
  apply Hne. symmetry.
  exact (cellAt_inj _ _ _ _ (x, y) (x', y') r Hshape Hr Hr').
Qed.

Lemma neighborList_length_interior cells width height x y :
  0 < x < width - 1 -> 0 < y < height - 1 ->
  length (neighborList cells width height x y) = 8%nat.
Proof.
  intros Hx Hy. unfold neighborList. rewrite length_map, around_eq.
  repeat (rewrite filter_cons_True by (apply inBounds_iff; cbn; lia)).
  done.
Qed.

Lemma neighborList_length_edge cells width height x y :
  x = 0 \/ x = width - 1 \/ y = 0 \/ y = height - 1 ->
  (length (neighborList cells width height x y) < 8)%nat.
Proof.
  intros Hedge. unfold neighborList. rewrite length_map.
  assert (Hout : exists p, p ∈ around x y /\ ~ inBounds width height p).
  { rewrite around_eq.
    destruct Hedge as [-> | [-> | [-> | ->]]];
      [exists (0 - 1, y) | exists (width - 1 + 1, y)
       | exists (x, 0 - 1) | exists (x, height - 1 + 1)];
      (split; [rewrite !elem_of_cons; tauto
              | rewrite inBounds_iff; cbn; lia]). }
  destruct Hout as (p & Hp & Hout).
  change 8%nat with (length (around x y)).
  eapply length_filter_lt; eassumption.
Qed.

(** ** Stores that grow, grids that stay *)

Lemma gridShape_ext h h' cells width height :
  heapExt h h' -> gridShape h cells width height ->
  gridShape h' cells width height.
Proof.
  intros Hext (Hh & Hw & Hc). split; [done|]. split; [done|].
  intros i j row r Hi Hj. destruct (Hc i j row r Hi Hj) as (c & E & Hxy).
  exists c. auto.
Qed.

Lemma stateAt_ext h h' g x y s :
  heapExt h h' -> stateAt h g x y = Some s -> stateAt h' g x y = Some s.
Proof.
  intros Hext. unfold stateAt.
  destruct (cellAt (Grid.cells g) x y) as [r|]; [|done].
  destruct (h !! r) as [c|] eqn:Hc; [|done].
  now rewrite (Hext _ _ Hc).
Qed.

Lemma liveNeighborCount_dead heap g r c :
  wellFormed heap g -> allDead heap (Grid.cells g) ->
  r ∈ concat (Grid.cells g) -> heap !! r = Some c ->
  liveNeighborCount heap c = 0%nat.
Proof.
  intros [Hshape Hin] Hdead Hr Hc. unfold liveNeighborCount.
  specialize (Hin r c Hr Hc).
  induction Hin as [|n ns (r' & -> & Hr') _ IH]; [done|].
  rewrite filter_cons_False; [exact IH|].
  cbn. destruct (heap !! r') as [c'|] eqn:Hc'; [|intros []].
  rewrite (Hdead r' c' Hr' Hc'). intros [].
Qed.

(** ** Repeated steps *)

Lemma wellFormed_step heap g :
  wellFormed heap g ->
  exists g' heap',
    createNextGeneration g heap = Ok (g', heap') /\
    wellFormed heap' g' /\ heapExt heap heap' /\
    Grid.width g' = Grid.width g /\ Grid.height g' = Grid.height g /\
    Grid.generation g' = Grid.generation g + 1.
Proof.
  intros Hwf.
  destruct (createNextGeneration_spec heap g Hwf)
    as (newCells & heap' & E & Hext & Hshape & Hin & _).
  eexists _, heap'. split; [exact E|]. split; [split; assumption|].
  split; [assumption|]. done.
Qed.

Lemma stepN_spec n heap g :
  wellFormed heap g ->
  exists g' heap',
    stepN n g heap = Ok (g', heap') /\ wellFormed heap' g' /\
    Grid.width g' = Grid.width g /\ Grid.height g' = Grid.height g /\
    Grid.generation g' = Grid.generation g + Z.of_nat n.
Proof.
  revert heap g. induction n as [|n IH]; intros heap g Hwf.
  - exists g, heap. split; [done|]. split; [exact Hwf|]. cbn. lia.
  - destruct (wellFormed_step heap g Hwf)
      as (g1 & heap1 & E1 & Hwf1 & _ & Hw1 & Hh1 & Hg1).
    destruct (IH heap1 g1 Hwf1) as (g' & heap' & E' & Hwf' & Hw' & Hh' & Hg').
    exists g', heap'. cbn [stepN]. rewrite (bind_Ok _ _ _ _ _ E1).
    split; [exact E'|]. split; [exact Hwf'|]. lia.
Qed.

Lemma blinker_built : createInitialGrid 5 5 blinkerCells [] = Ok blinker.
Proof. vm_compute. reflexivity. Qed.

Lemma blinker_wellFormed : wellFormed (snd blinker) (fst blinker).
Proof.
  pose proof blinker_built as E. rewrite (surjective_pairing blinker) in E.
  now destruct (createInitialGrid_inv _ _ _ _ _ _ E) as (_ & _ & _ & Hwf & _).
Qed.

(** ** The states of a grid built by [createInitialGrid] *)

Lemma forM__invariant_prefix {A} (body : A -> M unit)
    (I : list A -> list Cell.t -> Prop) l h h' :
  (forall pre a h1 h2,
     I pre h1 -> body a h1 = Ok (tt, h2) -> I (pre ++ [a]) h2) ->
  I [] h -> forM_ body l h = Ok (tt, h') -> I l h'.
Proof.
  intros Hbody.
  enough (Hgen : forall pre h, I pre h -> forM_ body l h = Ok (tt, h') ->
                   I (pre ++ l) h') by (intros; now apply (Hgen [] h)).
  induction l as [|a l IH]; intros pre h0 HI; cbn [forM_].
  - intros [= <-]. now rewrite app_nil_r.
  - intros E. apply bind_inv in E as ([] & h1 & E1 & E2).
    rewrite (cons_middle a pre l), app_assoc. apply (IH _ h1); [|exact E2].
    eapply Hbody; eassumption.
Qed.

Lemma markAlive_states cells width height aliveCells h h' :
  gridShape h cells width height -> allDead h cells ->
  forM_ (fun aliveCell : Cell.t =>
    if (Cell.x aliveCell <? width) && (Cell.y aliveCell <? height) then
      row <- liftR (member (jsIndex cells (Cell.y aliveCell))) ;;
      cell <- liftR (member (jsIndex row (Cell.x aliveCell))) ;;
      setState cell alive
    else ret tt) aliveCells h = Ok (tt, h') ->
  forall r c, r ∈ concat cells -> h' !! r = Some c ->
    (Cell.state c = alive <->
     exists a, a ∈ aliveCells /\ Cell.x a = Cell.x c /\ Cell.y a = Cell.y c).
Proof.
  intros Hshape Hdead E.
  enough (HJ : sameCells cells h h' /\
    forall r c, r ∈ concat cells -> h' !! r = Some c ->
      (Cell.state c = alive <->
       exists a, a ∈ aliveCells /\ Cell.x a = Cell.x c /\ Cell.y a = Cell.y c))
    by apply HJ.
  revert E.
  apply (forM__invariant_prefix _ (fun done h1 =>
    sameCells cells h h1 /\
    forall r c, r ∈ concat cells -> h1 !! r = Some c ->
      (Cell.state c = alive <->
       exists a, a ∈ done /\ Cell.x a = Cell.x c /\ Cell.y a = Cell.y c))).
  2:{ split; [apply sameCells_refl|]. intros r c Hr Hc.
      rewrite (Hdead r c Hr Hc). split; [done|].
      intros (a & Ha & _). now apply not_elem_of_nil in Ha. }
  intros done a h1 h2 [Hsame HJ]. cbv beta. rewrite markAlive_eq.
  pose proof (sameCells_shape _ _ _ _ _ Hsame Hshape) as Hshape1.
  destruct ((Cell.x a <? width) && (Cell.y a <? height)) eqn:Hguard.
  - destruct (cellAt cells (Cell.x a) (Cell.y a)) as [r0|] eqn:Hr0;
      [|discriminate].
    destruct (h1 !! r0) as [c0|] eqn:Hc0; [|discriminate].
    intros [= <-].
    destruct (gridShape_cellAt _ _ _ _ _ _ _ Hshape1 Hr0)
      as (_ & _ & Hin0 & c0' & Hc0' & Hx0 & Hy0).
    assert (c0' = c0) as -> by congruence.
    split.
    { eapply sameCells_trans; [exact Hsame|].
      now apply (sameCells_assign cells h1 r0 c0
                   (fun c => Cell.set_state c alive)). }
    intros r c Hr. destruct (decide (r = r0)) as [->|Hne].
    + rewrite list_lookup_insert_eq by (now apply lookup_lt_Some in Hc0).
      intros [= <-]. cbn. split; [|done]. intros _.
      exists a. split; [|done]. apply elem_of_app. right. now left.
    + rewrite list_lookup_insert_ne by done. intros Hc.
      rewrite (HJ r c Hr Hc). split.
      * intros (a' & Ha' & Hxy). exists a'. split; [|done].
        apply elem_of_app. now left.
      * intros (a' & [Ha'|Ha']%elem_of_app & Hx & Hy); [eauto|].
        apply list_elem_of_singleton in Ha' as ->.
        destruct (gridShape_elem _ _ _ _ _ Hshape1 Hr) as (c1 & Hc1 & Hr1).
        assert (c1 = c) as -> by congruence.
        rewrite <- Hx, <- Hy, Hr0 in Hr1. congruence.
  - intros [= <-]. split; [exact Hsame|]. intros r c Hr Hc.
    rewrite (HJ r c Hr Hc). split.
    + intros (a' & Ha' & Hxy). exists a'. split; [|done].
      apply elem_of_app. now left.
    + intros (a' & [Ha'|Ha']%elem_of_app & Hx & Hy); [eauto|].
      apply list_elem_of_singleton in Ha' as ->.
      destruct (gridShape_elem _ _ _ _ _ Hshape1 Hr) as (c1 & Hc1 & Hr1).
      assert (c1 = c) as -> by congruence.
      destruct (gridShape_cellAt _ _ _ _ _ _ _ Hshape1 Hr1) as (Hxr & Hyr & _).
      apply andb_false_iff in Hguard as [Hguard|Hguard];
        apply Z.ltb_ge in Hguard; lia.
Qed.

(** A cell of a grid built by [createInitialGrid] is alive exactly when its
    coordinates were given. *)
Lemma createInitialGrid_states width height aliveCells heap g heap' :
  createInitialGrid width height aliveCells heap = Ok (g, heap') ->
  forall r c, r ∈ concat (Grid.cells g) -> heap' !! r = Some c ->
    (Cell.state c = alive <->
     exists a, a ∈ aliveCells /\ Cell.x a = Cell.x c /\ Cell.y a = Cell.y c).
Proof.
  intros (cells & heap1 & heap2 & E1 & E2 & E3 & ->)%createInitialGrid_phases.
  destruct (initCells_dims _ _ _ _ _ E1) as [Hh Hw].
  destruct (initCells_spec width height heap Hh Hw)
    as (cells' & heap1' & E1' & _ & Hshape1 & Hdead1 & _).
  rewrite E1 in E1'. injection E1' as <- <-.
  pose proof (markAlive_states _ _ _ _ _ _ Hshape1 Hdead1 E2) as Hstates.
  pose proof (markAlive_inv _ _ _ _ _ _ Hshape1 E2) as Hsame2.
  pose proof (sameCells_shape _ _ _ _ _ Hsame2 Hshape1) as Hshape2.
  destruct (assignNeighbors_grid _ _ _ _ Hshape2) as (heap3 & E3' & Hget & _).
  rewrite E3 in E3'. injection E3' as <-.
  cbn [Grid.cells]. intros r c Hr. rewrite Hget.
  destruct (heap2 !! r) as [c2|] eqn:Hc2; cbn; [|discriminate].
  intros [= <-]. rewrite refreshed_state, refreshed_x, refreshed_y.
  now apply (Hstates r).
Qed.

(** ** The engine refines the functional Game of Life *)

Lemma represents_ext h h' g b :
  heapExt h h' -> represents h g b -> represents h' g b.
Proof.
  intros Hext Hrep x y Hx Hy. eapply stateAt_ext; [exact Hext|].
  now apply Hrep.
Qed.

Lemma createInitialGrid_represents width height aliveCells heap g heap' :
  createInitialGrid width height aliveCells heap = Ok (g, heap') ->
  represents heap' g (boardOf aliveCells).
Proof.
  intros E x y Hx Hy.
  destruct (createInitialGrid_inv _ _ _ _ _ _ E)
    as (_ & _ & _ & [Hshape _] & _).
  destruct (gridShape_in_range _ _ _ _ x y Hshape Hx Hy) as [r Hr].
  destruct (gridShape_cellAt _ _ _ _ _ _ _ Hshape Hr)
    as (_ & _ & Hin & c & Hc & Hcx & Hcy).
  pose proof (createInitialGrid_states _ _ _ _ _ _ E r c Hin Hc) as Hstate.
  unfold stateAt. rewrite Hr, Hc. f_equal. unfold boardOf.
  destruct (existsb _ aliveCells) eqn:Hex.
  - apply Hstate. apply existsb_exists in Hex as (a & Ha & Hxy).
    apply andb_true_iff in Hxy as [Hax Hay].
    apply Z.eqb_eq in Hax, Hay. exists a.
    split; [now apply list_elem_of_In|]. lia.
  - destruct (Cell.state c); [|done].
    destruct (proj1 Hstate eq_refl) as (a & Ha & Hax & Hay).
    assert (Hex' : existsb (fun a => (Cell.x a =? x) && (Cell.y a =? y))
                     aliveCells = true).
    { apply existsb_exists. exists a. split; [now apply list_elem_of_In|].
      apply andb_true_iff. split; apply Z.eqb_eq; lia. }
    congruence.
Qed.

Lemma length_filter_fmap {A B} (f : A -> B) (P : B -> bool) (Q : A -> bool)
    (l : list A) :
  (forall a, a ∈ l -> P (f a) = Q a) ->
  length (filter (fun b => P b) (map f l))
  = length (filter (fun a => Q a) l).
Proof.
  induction l as [|a l IH]; intros HPQ; [done|].
  cbn [map]. rewrite !filter_cons, (HPQ a) by left.
  destruct (decide (Q a)); cbn [length]; rewrite IH; try done;
    intros a' Ha'; apply HPQ; now right.
Qed.

Lemma liveNeighborCount_liveAround heap g b r c :
  gridShape heap (Grid.cells g) (Grid.width g) (Grid.height g) ->
  cacheExact heap g -> represents heap g b ->
  r ∈ concat (Grid.cells g) -> heap !! r = Some c ->
  liveNeighborCount heap c
  = liveAround (Grid.width g) (Grid.height g) b (Cell.x c) (Cell.y c).
Proof.
  intros Hshape Hexact Hrep Hr Hc.
  unfold liveNeighborCount, liveAround. rewrite (Hexact r c Hr Hc).
  unfold neighborList. apply length_filter_fmap.
  intros [px py] Hp. apply list_elem_of_filter in Hp as [Hin _].
  apply inBounds_iff in Hin. cbn [fst snd] in *.
  specialize (Hrep px py ltac:(lia) ltac:(lia)). unfold stateAt in Hrep.
  destruct (cellAt (Grid.cells g) px py) as [r'|]; [|discriminate].
  cbn. destruct (heap !! r') as [c'|]; [|discriminate].
  now injection Hrep as ->.
Qed.

Lemma createNextGeneration_represents heap g b :
  wellFormed heap g -> cacheExact heap g -> represents heap g b ->
  exists g' heap',
    createNextGeneration g heap = Ok (g', heap') /\
    wellFormed heap' g' /\ cacheExact heap' g' /\ heapExt heap heap' /\
    Grid.width g' = Grid.width g /\ Grid.height g' = Grid.height g /\
    represents heap' g' (lifeStep (Grid.width g) (Grid.height g) b).
Proof.
  intros Hwf Hexact Hrep. pose proof Hwf as [Hshape _].
  destruct (createNextGeneration_spec heap g Hwf)
    as (newCells & heap' & E & Hext & Hshape' & Hin' & Hexact' & _ & Hall).
  eexists _, heap'. split; [exact E|]. split; [split; assumption|].
  split; [apply Hexact'|]. split; [exact Hext|].
  split; [reflexivity|]. split; [reflexivity|].
  intros x y Hx Hy. cbn [Grid.width Grid.height] in Hx, Hy.
  destruct (gridShape_in_range _ _ _ _ x y Hshape Hx Hy) as [r Hr].
  destruct (gridShape_cellAt _ _ _ _ _ _ _ Hshape Hr)
    as (_ & _ & Hin & c & Hc & Hcx & Hcy).
  destruct (Forall2_cellAt _ _ _ _ _ _ Hall Hr)
    as (r' & Hr' & c0 & c' & Hc0 & Hc' & Hstate & _).
  assert (c0 = c) as -> by congruence.
  unfold stateAt. cbn [Grid.cells]. rewrite Hr', Hc'. f_equal.
  rewrite Hstate. unfold lifeStep.
  rewrite (liveNeighborCount_liveAround heap g b r c) by assumption.
  specialize (Hrep x y Hx Hy). unfold stateAt in Hrep.
  rewrite Hr, Hc in Hrep. injection Hrep as ->. now rewrite Hcx, Hcy.
Qed.

Lemma boardsEqual_true width height b1 b2 :
  boardsEqual width height b1 b2 = true <->
  forall x y, 0 <= x < width -> 0 <= y < height -> b1 x y = b2 x y.
Proof.
  unfold boardsEqual. rewrite forallb_forall. split.
  - intros Hall x y Hx Hy.
    specialize (Hall y ltac:(apply list_elem_of_In, elem_of_seqZ; lia)).
    rewrite forallb_forall in Hall.
    specialize (Hall x ltac:(apply list_elem_of_In, elem_of_seqZ; lia)).
    now apply bool_decide_eq_true in Hall.
  - intros Hall y Hy%list_elem_of_In%elem_of_seqZ.
    apply forallb_forall. intros x Hx%list_elem_of_In%elem_of_seqZ.
    apply bool_decide_eq_true, Hall; lia.
Qed.

Lemma areGridsEqual_represents heap g1 g2 b1 b2 :
  gridShape heap (Grid.cells g1) (Grid.width g1) (Grid.height g1) ->
  gridShape heap (Grid.cells g2) (Grid.width g2) (Grid.height g2) ->
  Grid.width g1 = Grid.width g2 -> Grid.height g1 = Grid.height g2 ->
  represents heap g1 b1 -> represents heap g2 b2 ->
  areGridsEqual g1 g2 heap
  = Ok (boardsEqual (Grid.width g1) (Grid.height g1) b1 b2).
Proof.
  intros Hshape1 Hshape2 Hw Hh Hrep1 Hrep2.
  destruct (areGridsEqual_spec heap g1 g2 Hshape1 Hshape2) as (b & E & Hb).
  rewrite E. f_equal. apply eq_true_iff_eq. rewrite Hb, boardsEqual_true.
  split.
  - intros (_ & _ & Hall) x y Hx Hy. specialize (Hall x y Hx Hy).
    rewrite (Hrep1 x y), (Hrep2 x y) in Hall by lia. congruence.
  - intros Hall. split; [done|]. split; [done|]. intros x y Hx Hy.
    rewrite (Hrep1 x y), (Hrep2 x y) by lia. f_equal. now apply Hall.
Qed.

(** ** The rule, in the words of the spec *)

Lemma nextState_alive_iff (s : CellState) (n : nat) :
  nextState s n = alive <->
  (s = alive /\ (n = 2 \/ n = 3)%nat) \/ (s = dead /\ n = 3%nat).
Proof.
  unfold nextState.
  destruct s, (Nat.eqb_spec n 2), (Nat.eqb_spec n 3); cbn;
    intuition (first [congruence | lia]).
Qed.

(** * The claims *)

(** C1. On a well-formed grid [createNextGeneration] returns, leaves every
    object of the store it was given as it was, and puts at every place
    [(x, y)] of the new grid a cell that is alive exactly when the cell at
    that place of the given grid was alive with 2 or 3 live neighbours, or
    dead with exactly 3, and dead in every other case; the live neighbours
    are counted among the cached neighbours of the cell, with their states
    in the store before the step. *)
Theorem C1_step_rule (heap : list Cell.t) (g : Grid.t) :
  wellFormed heap g ->
  exists g' heap',
    createNextGeneration g heap = Ok (g', heap') /\
    heapExt heap heap' /\
    forall x y r c,
      cellAt (Grid.cells g) x y = Some r -> heap !! r = Some c ->
      exists r' c',
        cellAt (Grid.cells g') x y = Some r' /\ heap' !! r' = Some c' /\
        let n := liveNeighborCount heap c in
        (Cell.state c' = alive <->
           (Cell.state c = alive /\ (n = 2 \/ n = 3)%nat) \/
           (Cell.state c = dead /\ n = 3%nat)) /\
        (Cell.state c' = dead <->
           ~ ((Cell.state c = alive /\ (n = 2 \/ n = 3)%nat) \/
              (Cell.state c = dead /\ n = 3%nat))).
Proof.
  intros Hwf.
  destruct (createNextGeneration_spec heap g Hwf)
    as (newCells & heap' & E & Hext & _ & _ & _ & _ & Hall).
  eexists _, heap'. split; [exact E|]. split; [exact Hext|].
  cbn [Grid.cells]. intros x y r c Hr Hc.
  destruct (Forall2_cellAt _ _ _ _ _ _ Hall Hr)
    as (r' & Hr' & c0 & c' & Hc0 & Hc' & Hstate & _).
  assert (c0 = c) as -> by congruence.
  exists r', c'. split; [exact Hr'|]. split; [exact Hc'|]. cbn zeta.
  rewrite Hstate. split; [apply nextState_alive_iff|].
  rewrite <- nextState_alive_iff.
  destruct (nextState _ _); split; congruence.
Qed.

Lemma C1_step_rule_witness :
  wellFormed (snd blinker) (fst blinker) /\
  exists g' heap',
    createNextGeneration (fst blinker) (snd blinker) = Ok (g', heap') /\
    heapExt (snd blinker) heap' /\
    forall x y r c,
      cellAt (Grid.cells (fst blinker)) x y = Some r ->
      snd blinker !! r = Some c ->
      exists r' c',
        cellAt (Grid.cells g') x y = Some r' /\ heap' !! r' = Some c' /\
        let n := liveNeighborCount (snd blinker) c in
        (Cell.state c' = alive <->
           (Cell.state c = alive /\ (n = 2 \/ n = 3)%nat) \/
           (Cell.state c = dead /\ n = 3%nat)) /\
        (Cell.state c' = dead <->
           ~ ((Cell.state c = alive /\ (n = 2 \/ n = 3)%nat) \/
              (Cell.state c = dead /\ n = 3%nat))).
Proof.
  split; [exact blinker_wellFormed|].
  exact (C1_step_rule (snd blinker) (fst blinker) blinker_wellFormed).
Defined.

(** C4. In a grid built by [createInitialGrid], the neighbour list of the
    cell at [(x, y)] is the list of the cells at the in-bounds coordinates
    among the eight around [(x, y)], in the order north-west, west,
    south-west, north, south, north-east, east, south-east: its entries are
    exactly the cells of the grid at distance at most one in both
    coordinates, the cell itself excepted (no wraparound); there are 8 of
    them for an interior cell and fewer for a cell of an edge; the cell
    itself is not among them and none occurs twice. *)
Theorem C4_neighbors (width height : Z) (aliveCells : list Cell.t)
    (heap : list Cell.t) (g : Grid.t) (heap' : list Cell.t)
    (x y : Z) (r : nat) (c : Cell.t) :
  createInitialGrid width height aliveCells heap = Ok (g, heap') ->
  cellAt (Grid.cells g) x y = Some r -> heap' !! r = Some c ->
  Cell.neighbors c
  = map (fun p => cellAt (Grid.cells g) (fst p) (snd p))
        (filter (fun p => inBounds width height p)
           [ (x - 1, y - 1); (x - 1, y); (x - 1, y + 1);
             (x, y - 1);                 (x, y + 1);
             (x + 1, y - 1); (x + 1, y); (x + 1, y + 1) ]) /\
  (forall n, n ∈ Cell.neighbors c <->
     exists x' y' r', n = Some r' /\ cellAt (Grid.cells g) x' y' = Some r' /\
       x - 1 <= x' <= x + 1 /\ y - 1 <= y' <= y + 1 /\ (x', y') <> (x, y)) /\
  (0 < x < width - 1 -> 0 < y < height - 1 ->
   length (Cell.neighbors c) = 8%nat) /\
  (x = 0 \/ x = width - 1 \/ y = 0 \/ y = height - 1 ->
   (length (Cell.neighbors c) < 8)%nat) /\
  (Some r ∉ Cell.neighbors c) /\
  NoDup (Cell.neighbors c).
Proof.
  intros E Hr Hc.
  destruct (createInitialGrid_inv _ _ _ _ _ _ E)
    as (Hw & Hh & _ & [Hshape _] & Hexact & _).
  rewrite Hw, Hh in Hshape.
  destruct (gridShape_cellAt _ _ _ _ _ _ _ Hshape Hr)
    as (_ & _ & Hin & c' & Hc' & Hx & Hy).
  assert (c' = c) as -> by congruence.
  rewrite (Hexact r c Hin Hc), Hw, Hh, Hx, Hy.
  split; [|split; [|split; [|split; [|split]]]].
  - unfold neighborList. now rewrite around_eq.
  - intros n. now apply (elem_of_neighborList heap').
  - apply neighborList_length_interior.
  - apply neighborList_length_edge.
  - now apply (neighborList_not_self heap').
  - now apply (neighborList_NoDup heap').
Qed.

Lemma C4_neighbors_witness :
  createInitialGrid 5 5 blinkerCells [] = Ok blinker /\
  cellAt (Grid.cells (fst blinker)) 2 2 = Some 12%nat /\
  snd blinker !! 12%nat = Some blinkerCentre /\
  Cell.neighbors blinkerCentre
  = map (fun p => cellAt (Grid.cells (fst blinker)) (fst p) (snd p))
        (filter (fun p => inBounds 5 5 p)
           [ (2 - 1, 2 - 1); (2 - 1, 2); (2 - 1, 2 + 1);
             (2, 2 - 1);                 (2, 2 + 1);
             (2 + 1, 2 - 1); (2 + 1, 2); (2 + 1, 2 + 1) ]) /\
  length (Cell.neighbors blinkerCentre) = 8%nat /\
  (Some 12%nat ∉ Cell.neighbors blinkerCentre) /\
  NoDup (Cell.neighbors blinkerCentre).
Proof.
  assert (H1 : createInitialGrid 5 5 blinkerCells []
               = Ok (fst blinker, snd blinker)) by exact blinker_built.
  assert (H2 : cellAt (Grid.cells (fst blinker)) 2 2 = Some 12%nat)
    by reflexivity.
  assert (H3 : snd blinker !! 12%nat = Some blinkerCentre) by reflexivity.
  destruct (C4_neighbors 5 5 blinkerCells [] (fst blinker) (snd blinker)
              2 2 12%nat blinkerCentre H1 H2 H3)
    as (Heq & _ & Hlen & _ & Hself & Hnodup).
  split; [exact blinker_built|]. split; [exact H2|]. split; [exact H3|].
  split; [exact Heq|]. split; [apply Hlen; lia|]. split; assumption.
Defined.

(** C5. [areGridsEqual] on two grids of the store, each of the shape its
    width and height announce, returns, and returns [true] exactly when the
    widths are equal, the heights are equal and the cells at every place
    [(x, y)] have the same state.  Whatever the grids, it returns [false]
    when the widths or the heights differ.  Its result does not change with
    the generation counters, nor with anything in the store but the states
    of the cells (the neighbour caches in particular). *)
Theorem C5_equals (heap : list Cell.t) (A B : Grid.t) :
  (gridShape heap (Grid.cells A) (Grid.width A) (Grid.height A) ->
   gridShape heap (Grid.cells B) (Grid.width B) (Grid.height B) ->
   exists b, areGridsEqual A B heap = Ok b /\
     (b = true <->
      Grid.width A = Grid.width B /\ Grid.height A = Grid.height B /\
      forall x y, 0 <= x < Grid.width A -> 0 <= y < Grid.height A ->
                  stateAt heap A x y = stateAt heap B x y)) /\
  (Grid.width A <> Grid.width B \/ Grid.height A <> Grid.height B ->
   areGridsEqual A B heap = Ok false) /\
  (forall genA genB,
     areGridsEqual
       (Grid.mk (Grid.cells A) (Grid.width A) (Grid.height A) genA)
       (Grid.mk (Grid.cells B) (Grid.width B) (Grid.height B) genB) heap
     = areGridsEqual A B heap) /\
  (forall heap' : list Cell.t,
     (forall r, Cell.state <$> heap' !! r = Cell.state <$> heap !! r) ->
     areGridsEqual A B heap' = areGridsEqual A B heap).
Proof.
  split; [apply areGridsEqual_spec|].
  split; [apply areGridsEqual_dims|]. split.
  - intros genA genB. now apply areGridsEqual_ext.
  - intros heap' Hstates. now apply areGridsEqual_ext.
Qed.

Lemma C5_equals_witness :
  gridShape (snd blinker) (Grid.cells (fst blinker)) 5 5 /\
  areGridsEqual (fst blinker) (fst blinker) (snd blinker) = Ok true /\
  areGridsEqual (Grid.mk [] 0 0 0) (Grid.mk [] 0 1 0) [] = Ok false /\
  areGridsEqual (fst blinker) (fst blinker)
    (map (fun c => Cell.set_neighbors c []) (snd blinker)) = Ok true.
Proof.
  pose proof (proj1 blinker_wellFormed) as Hshape.
  split; [exact Hshape|].
  destruct (C5_equals (snd blinker) (fst blinker) (fst blinker))
    as (Hiff & _ & _ & Hcache).
  destruct (Hiff Hshape Hshape) as (b & E & Hb).
  assert (b = true) as -> by (apply Hb; done).
  split; [exact E|]. split.
  - apply (proj1 (proj2 (C5_equals [] (Grid.mk [] 0 0 0) (Grid.mk [] 0 1 0)))).
    right. cbn. lia.
  - rewrite Hcache; [exact E|].
    intros r. rewrite list_lookup_fmap. now destruct (snd blinker !! r).
Defined.

(** C6. [createNextGeneration] returns a grid whose generation is that of
    its argument plus one, for every counter on which the addition of the
    code is exact ([exactCounter]: from -2^53 up to 2^53 - 1): on every
    well-formed grid with such a counter it returns, and whenever it
    returns on such a counter the counter is incremented.
    [createInitialGrid] returns a grid of generation 0: it returns for all
    positive dimensions and all coordinates that are not negative, and
    whenever it returns the counter is 0.  Over any number of steps that
    keeps the counter within -2^53 and 2^53 the counter only grows: after
    [n] steps it is the initial one plus [n]. *)
Theorem C6_generation :
  (forall (heap : list Cell.t) g,
     wellFormed heap g ->
     exactCounter (Grid.generation g) ->
     exists g' heap',
       createNextGeneration g heap = Ok (g', heap') /\
       Grid.generation g' = Grid.generation g + 1) /\
  (forall (heap : list Cell.t) g g' heap',
     createNextGeneration g heap = Ok (g', heap') ->
     exactCounter (Grid.generation g) ->
     Grid.generation g' = Grid.generation g + 1) /\
  (forall width height aliveCells (heap : list Cell.t),
     0 < width -> 0 < height ->
     Forall (safeCoord width height) aliveCells ->
     exists g heap',
       createInitialGrid width height aliveCells heap = Ok (g, heap') /\
       Grid.generation g = 0) /\
  (forall width height aliveCells (heap : list Cell.t) g heap',
     createInitialGrid width height aliveCells heap = Ok (g, heap') ->
     Grid.generation g = 0) /\
  (forall n (heap : list Cell.t) g,
     wellFormed heap g ->
     - 2 ^ 53 <= Grid.generation g ->
     Grid.generation g + Z.of_nat n <= 2 ^ 53 ->
     exists g' heap',
       stepN n g heap = Ok (g', heap') /\
       Grid.generation g' = Grid.generation g + Z.of_nat n /\
       Grid.generation g <= Grid.generation g').
Proof.
  split; [|split; [|split; [|split]]].
  - intros heap g Hwf _.
    destruct (wellFormed_step heap g Hwf) as (g' & heap' & E & _ & _ & _ & _ & Hg).
    eauto.
  - intros heap g g' heap' E _. unfold createNextGeneration in E.
    apply bind_inv in E as (newCells & heap1 & _ & E).
    apply bind_inv in E as ([] & heap2 & _ & E).
    now injection E as <- _.
  - intros width height aliveCells heap Hw Hh Hsafe.
    destruct (createInitialGrid_total width height aliveCells heap)
      as (g & heap' & E); [lia|lia|exact Hsafe|].
    exists g, heap'. split; [exact E|].
    now destruct (createInitialGrid_inv _ _ _ _ _ _ E) as (_ & _ & Hg & _).
  - intros width height aliveCells heap g heap' E.
    now destruct (createInitialGrid_inv _ _ _ _ _ _ E) as (_ & _ & Hg & _).
  - intros n heap g Hwf _ _.
    destruct (stepN_spec n heap g Hwf) as (g' & heap' & E & _ & _ & _ & Hg).
    exists g', heap'. split; [exact E|]. lia.
Qed.

Lemma C6_generation_witness :
  wellFormed (snd blinker) (fst blinker) /\
  exactCounter (Grid.generation (fst blinker)) /\
  Grid.generation (fst blinker) + Z.of_nat 3 <= 2 ^ 53 /\
  Forall (safeCoord 5 5) blinkerCells /\
  (exists g' heap',
     createNextGeneration (fst blinker) (snd blinker) = Ok (g', heap') /\
     Grid.generation g' = Grid.generation (fst blinker) + 1) /\
  (exists g heap',
     createInitialGrid 5 5 blinkerCells [] = Ok (g, heap') /\
     Grid.generation g = 0) /\
  Grid.generation (fst blinker) = 0 /\
  (exists g' heap',
     stepN 3 (fst blinker) (snd blinker) = Ok (g', heap') /\
     Grid.generation g' = Grid.generation (fst blinker) + Z.of_nat 3 /\
     Grid.generation (fst blinker) <= Grid.generation g').
Proof.
  assert (Hsafe : Forall (safeCoord 5 5) blinkerCells).
  { repeat (constructor; [right; cbn; lia|]). constructor. }
  assert (Hgen : Grid.generation (fst blinker) = 0) by reflexivity.
  assert (Hexact : exactCounter (Grid.generation (fst blinker))).
  { rewrite Hgen. unfold exactCounter. lia. }
  assert (Hlow : - 2 ^ 53 <= Grid.generation (fst blinker)).
  { rewrite Hgen. lia. }
  assert (Hhigh : Grid.generation (fst blinker) + Z.of_nat 3 <= 2 ^ 53).
  { rewrite Hgen. lia. }
  destruct C6_generation as (Hstep & _ & Hinit & Hinit' & Hsteps).
  split; [exact blinker_wellFormed|]. split; [exact Hexact|].
  split; [exact Hhigh|]. split; [exact Hsafe|]. split; [|split; [|split]].
  - exact (Hstep _ _ blinker_wellFormed Hexact).
  - apply Hinit; [lia | lia | exact Hsafe].
  - exact (Hinit' 5 5 blinkerCells [] (fst blinker) (snd blinker) blinker_built).
  - exact (Hsteps 3%nat _ _ blinker_wellFormed Hlow Hhigh).
Defined.

(** C10. Every grid returned by [createInitialGrid] is well formed: it has
    [height] rows of [width] cells, the cell at [cells[y][x]] has the
    coordinates [(x, y)], and every neighbour of every cell is a cell of the
    grid; its cells are new objects.  [createNextGeneration] on a
    well-formed grid returns a well-formed grid of the same width and
    height, made of new objects: none is a cell of the grid it was given, so
    that no neighbour belongs to that grid. *)
Theorem C10_shape_invariant :
  (forall width height aliveCells (heap : list Cell.t) g heap',
     createInitialGrid width height aliveCells heap = Ok (g, heap') ->
     Grid.width g = width /\ Grid.height g = height /\
     Z.of_nat (length (Grid.cells g)) = height /\
     Forall (fun row : list nat => Z.of_nat (length row) = width)
            (Grid.cells g) /\
     (forall x y r, cellAt (Grid.cells g) x y = Some r ->
        exists c, heap' !! r = Some c /\ Cell.x c = x /\ Cell.y c = y) /\
     neighborsInGrid heap' (Grid.cells g) /\
     (forall r, r ∈ concat (Grid.cells g) -> heap !! r = None) /\
     wellFormed heap' g) /\
  (forall (heap : list Cell.t) g,
     wellFormed heap g ->
     exists g' heap',
       createNextGeneration g heap = Ok (g', heap') /\
       wellFormed heap' g' /\
       Grid.width g' = Grid.width g /\ Grid.height g' = Grid.height g /\
       (forall x y r, cellAt (Grid.cells g') x y = Some r ->
          exists c, heap' !! r = Some c /\ Cell.x c = x /\ Cell.y c = y) /\
       (forall r, r ∈ concat (Grid.cells g') ->
          heap !! r = None /\ r ∉ concat (Grid.cells g))).
Proof.
  split.
  - intros width height aliveCells heap g heap' E.
    destruct (createInitialGrid_inv _ _ _ _ _ _ E)
      as (Hw & Hh & _ & Hwf & _ & _ & Hfresh).
    pose proof Hwf as [Hshape Hin]. rewrite Hw, Hh in Hshape.
    split; [done|]. split; [done|].
    split; [apply Hshape|]. split; [apply Hshape|].
    split; [|split; [assumption|split; [|assumption]]].
    + intros x y r Hr.
      now destruct (gridShape_cellAt _ _ _ _ _ _ _ Hshape Hr)
        as (_ & _ & _ & H).
    + intros r Hr. apply lookup_ge_None. now apply Hfresh.
  - intros heap g Hwf.
    destruct (createNextGeneration_spec heap g Hwf)
      as (newCells & heap' & E & Hext & Hshape & Hin & _ & Hfresh & _).
    eexists _, heap'. split; [exact E|]. cbn.
    split; [split; assumption|]. split; [done|]. split; [done|]. split.
    + intros x y r Hr.
      now destruct (gridShape_cellAt _ _ _ _ _ _ _ Hshape Hr)
        as (_ & _ & _ & H).
    + intros r Hnew. apply Hfresh in Hnew. split.
      * now apply lookup_ge_None.
      * intros Hold.
        destruct (gridShape_valid _ _ _ _ _ (proj1 Hwf) Hold) as [c Hc].
        apply lookup_lt_Some in Hc. lia.
Qed.

Lemma C10_shape_invariant_witness :
  wellFormed (snd blinker) (fst blinker) /\
  Z.of_nat (length (Grid.cells (fst blinker))) = 5 /\
  Forall (fun row : list nat => Z.of_nat (length row) = 5)
         (Grid.cells (fst blinker)) /\
  exists g' heap',
    createNextGeneration (fst blinker) (snd blinker) = Ok (g', heap') /\
    wellFormed heap' g' /\
    Grid.width g' = 5 /\ Grid.height g' = 5.
Proof.
  destruct C10_shape_invariant as [Hinit Hstep].
  destruct (Hinit 5 5 blinkerCells [] (fst blinker) (snd blinker) blinker_built)
    as (_ & _ & Hrows & Hcols & _ & _ & _ & Hwf).
  split; [exact Hwf|]. split; [exact Hrows|]. split; [exact Hcols|].
  destruct (Hstep _ _ Hwf) as (g' & heap' & E & Hwf' & Hw & Hh & _).
  exists g', heap'. split; [exact E|]. split; [exact Hwf'|].
  split; [exact Hw | exact Hh].
Defined.

Lemma allDead_stateAt heap g x y :
  gridShape heap (Grid.cells g) (Grid.width g) (Grid.height g) ->
  allDead heap (Grid.cells g) ->
  0 <= x < Grid.width g -> 0 <= y < Grid.height g ->
  stateAt heap g x y = Some dead.
Proof.
  intros Hshape Hdead Hx Hy.
  destruct (gridShape_in_range _ _ _ _ x y Hshape Hx Hy) as [r Hr].
  destruct (gridShape_cellAt _ _ _ _ _ _ _ Hshape Hr)
    as (_ & _ & Hin & c & Hc & _).
  unfold stateAt. rewrite Hr, Hc. f_equal. eapply Hdead; eassumption.
Qed.

Lemma allDead_step heap g :
  wellFormed heap g -> allDead heap (Grid.cells g) ->
  exists g' heap',
    createNextGeneration g heap = Ok (g', heap') /\
    wellFormed heap' g' /\ heapExt heap heap' /\
    Grid.width g' = Grid.width g /\ Grid.height g' = Grid.height g /\
    allDead heap' (Grid.cells g').
Proof.
  intros Hwf Hdead.
  destruct (createNextGeneration_spec heap g Hwf)
    as (newCells & heap' & E & Hext & Hshape & Hin & _ & _ & Hall).
  eexists _, heap'. split; [exact E|]. split; [split; assumption|].
  split; [exact Hext|]. split; [reflexivity|]. split; [reflexivity|].
  cbn [Grid.cells].
  intros r' c' (i & j & row' & Hi & Hj)%elem_of_concat_lookup Hc'.
  destruct (Forall2_grid_lookup_r _ _ _ _ _ _ _ Hall Hi Hj)
    as (row & r & Hrow & Hr & c & c'' & Hc & Hc'' & Hstate & _).
  assert (c'' = c') as -> by congruence.
  assert (Hrin : r ∈ concat (Grid.cells g))
    by (apply elem_of_concat_lookup; eauto).
  rewrite Hstate, (Hdead r c Hrin Hc),
    (liveNeighborCount_dead heap g r c Hwf Hdead Hrin Hc).
  reflexivity.
Qed.

(** C7. The step of a well-formed grid all of whose cells are dead is a grid
    all of whose cells are dead.  For positive dimensions,
    [createInitialGrid] without alive coordinates returns a grid with a dead
    cell at every place, and this grid is equal, for [areGridsEqual], to its
    step. *)
Theorem C7_all_dead :
  (forall (heap : list Cell.t) g,
     wellFormed heap g -> allDead heap (Grid.cells g) ->
     exists g' heap',
       createNextGeneration g heap = Ok (g', heap') /\
       allDead heap' (Grid.cells g') /\
       forall x y, 0 <= x < Grid.width g -> 0 <= y < Grid.height g ->
                   stateAt heap' g' x y = Some dead) /\
  (forall width height (heap : list Cell.t),
     0 < width -> 0 < height ->
     exists g heap1 g' heap2,
       createInitialGrid width height [] heap = Ok (g, heap1) /\
       allDead heap1 (Grid.cells g) /\
       (forall x y, 0 <= x < width -> 0 <= y < height ->
                    stateAt heap1 g x y = Some dead) /\
       createNextGeneration g heap1 = Ok (g', heap2) /\
       areGridsEqual g g' heap2 = Ok true).
Proof.
  split.
  - intros heap g Hwf Hdead.
    destruct (allDead_step heap g Hwf Hdead)
      as (g' & heap' & E & [Hshape' _] & _ & Hw & Hh & Hdead').
    exists g', heap'. split; [exact E|]. split; [exact Hdead'|].
    intros x y Hx Hy. apply allDead_stateAt; [assumption..|lia|lia].
  - intros width height heap Hw Hh.
    destruct (createInitialGrid_total width height [] heap)
      as (g & heap1 & E); [lia|lia|constructor|].
    destruct (createInitialGrid_inv _ _ _ _ _ _ E)
      as (Hgw & Hgh & _ & Hwf & _).
    pose proof (createInitialGrid_empty_dead _ _ _ _ _ E) as Hdead.
    destruct (allDead_step heap1 g Hwf Hdead)
      as (g' & heap2 & E' & [Hshape' _] & Hext & Hw' & Hh' & Hdead').
    pose proof (gridShape_ext _ _ _ _ _ Hext (proj1 Hwf)) as Hshape2.
    exists g, heap1, g', heap2. split; [exact E|]. split; [exact Hdead|].
    split; [|split; [exact E'|]].
    + intros x y Hx Hy. apply allDead_stateAt; [apply Hwf|exact Hdead|lia|lia].
    + destruct (areGridsEqual_spec heap2 g g' Hshape2 Hshape')
        as (b & Eb & Hb).
      rewrite Eb. f_equal. apply Hb.
      split; [congruence|]. split; [congruence|]. intros x y Hx Hy.
      rewrite (allDead_stateAt heap2 g' x y) by (try assumption; lia).
      apply (stateAt_ext heap1 heap2 g x y dead Hext).
      apply allDead_stateAt; [apply Hwf|exact Hdead|lia|lia].
Qed.

Lemma C7_all_dead_witness :
  (exists g heap1,
     createInitialGrid 3 2 [] [] = Ok (g, heap1) /\
     wellFormed heap1 g /\ allDead heap1 (Grid.cells g) /\
     exists g' heap',
       createNextGeneration g heap1 = Ok (g', heap') /\
       allDead heap' (Grid.cells g')) /\
  (exists g heap1 g' heap2,
     createInitialGrid 3 2 [] [] = Ok (g, heap1) /\
     stateAt heap1 g 2 1 = Some dead /\
     createNextGeneration g heap1 = Ok (g', heap2) /\
     areGridsEqual g g' heap2 = Ok true).
Proof.
  destruct C7_all_dead as [Hstep Hinit].
  destruct (Hinit 3 2 []) as (g & heap1 & g' & heap2 & E & Hdead & Hstate & E' & Eb);
    [lia|lia|].
  pose proof (createInitialGrid_inv _ _ _ _ _ _ E) as (_ & _ & _ & Hwf & _).
  split.
  - exists g, heap1. split; [exact E|]. split; [exact Hwf|].
    split; [exact Hdead|].
    destruct (Hstep heap1 g Hwf Hdead) as (g1 & heap' & E1 & Hdead1 & _).
    exists g1, heap'. split; [exact E1 | exact Hdead1].
  - exists g, heap1, g', heap2. split; [exact E|].
    split; [apply Hstate; lia|]. split; [exact E' | exact Eb].
Defined.

(** ** Degenerate dimensions *)

Lemma mapM_ret_nil {A B} (l : list A) (h : list Cell.t) :
  mapM (fun _ : A => ret (@nil B)) l h = Ok (replicate (length l) [], h).
Proof.
  induction l as [|a l IH]; [done|].
  cbn [mapM length replicate]. unfold bind at 1. unfold ret at 1.
  now rewrite (bind_Ok _ _ _ _ _ IH).
Qed.

Lemma initCells_degenerate width height heap :
  height = 0 \/ (0 < height /\ width = 0) ->
  arrayInit height (fun y =>
    arrayInit width (fun x => alloc (Cell.mk dead x y []))) heap
  = Ok (replicate (Z.to_nat height) [], heap).
Proof.
  intros [->|[Hh ->]]; [done|].
  unfold arrayInit at 1. destruct (Z.ltb_spec height 0); [lia|].
  rewrite <- (length_seqZ 0 height). apply mapM_ret_nil.
Qed.

Lemma cellAt_replicate_nil n x y : cellAt (replicate n []) x y = None.
Proof.
  unfold cellAt. destruct (jsIndex _ y) as [row|] eqn:Hrow; [|done].
  apply jsIndex_Some in Hrow as [_ Hrow].
  apply lookup_replicate in Hrow as [-> _]. apply jsIndex_None. cbn. lia.
Qed.

Lemma assignNeighbors_replicate_nil n width height heap :
  assignNeighbors (replicate n []) width height heap = Ok (tt, heap).
Proof.
  unfold assignNeighbors. rewrite forM__concat.
  now replace (concat (replicate n (@nil nat))) with (@nil nat)
    by (induction n; [done | cbn; congruence]).
Qed.

Lemma markAlive_rejected cells width height aliveCells h :
  Forall (fun a => ~ (Cell.x a < width /\ Cell.y a < height)) aliveCells ->
  forM_ (fun aliveCell : Cell.t =>
    if (Cell.x aliveCell <? width) && (Cell.y aliveCell <? height) then
      row <- liftR (member (jsIndex cells (Cell.y aliveCell))) ;;
      cell <- liftR (member (jsIndex row (Cell.x aliveCell))) ;;
      setState cell alive
    else ret tt) aliveCells h = Ok (tt, h).
Proof.
  intros Hout. apply forM__skip. intros a Ha.
  pose proof (proj1 (Forall_forall _ _) Hout a Ha) as Hguard.
  cbv beta in *.
  destruct (Z.ltb_spec (Cell.x a) width), (Z.ltb_spec (Cell.y a) height);
    cbn [andb]; first [reflexivity | lia].
Qed.

Lemma markAlive_TypeError n width height aliveCells h :
  Exists (fun a => Cell.x a < width /\ Cell.y a < height) aliveCells ->
  forM_ (fun aliveCell : Cell.t =>
    if (Cell.x aliveCell <? width) && (Cell.y aliveCell <? height) then
      row <- liftR (member (jsIndex (replicate n []) (Cell.y aliveCell))) ;;
      cell <- liftR (member (jsIndex row (Cell.x aliveCell))) ;;
      setState cell alive
    else ret tt) aliveCells h = Throw TypeError.
Proof.
  induction aliveCells as [|a l IH]; intros Hex.
  - now apply Exists_nil in Hex.
  - cbn [forM_]. unfold bind at 1. rewrite markAlive_eq.
    rewrite cellAt_replicate_nil.
    destruct ((Cell.x a <? width) && (Cell.y a <? height)) eqn:Hguard;
      [done|].
    apply IH. apply Exists_cons in Hex as [[Hx Hy]|Hex]; [|exact Hex].
    apply andb_false_iff in Hguard as [Hguard|Hguard];
      apply Z.ltb_ge in Hguard; lia.
Qed.

(** C3, as the code has it.  [createInitialGrid] does not check its
    dimensions.  With a negative height, or a positive height and a negative
    width, the allocation of an array raises [RangeError].  With a height
    of 0, or a positive height and a width of 0, nothing raises on account
    of the dimensions: when no coordinate passes the guard
    [x < width && y < height], the result is the grid of [height] empty rows
    with the given width and height and generation 0, and the store is
    unchanged; when a coordinate passes the guard, its cell is looked up in
    a grid without cells and [TypeError] is raised. *)
Theorem C3_dimensions_unchecked (width height : Z) (aliveCells : list Cell.t)
    (heap : list Cell.t) :
  width <= 0 \/ height <= 0 ->
  (height < 0 \/ (0 < height /\ width < 0) ->
   createInitialGrid width height aliveCells heap = Throw RangeError) /\
  (height = 0 \/ (0 < height /\ width = 0) ->
   Forall (fun a => ~ (Cell.x a < width /\ Cell.y a < height)) aliveCells ->
   createInitialGrid width height aliveCells heap
   = Ok (Grid.mk (replicate (Z.to_nat height) []) width height 0, heap)) /\
  (height = 0 \/ (0 < height /\ width = 0) ->
   Exists (fun a => Cell.x a < width /\ Cell.y a < height) aliveCells ->
   createInitialGrid width height aliveCells heap = Throw TypeError).
Proof.
  intros _. split; [|split].
  - intros Hneg. unfold createInitialGrid.
    apply bind_Throw, initCells_RangeError, Hneg.
  - intros Hzero Hout. apply createInitialGrid_phases.
    exists (replicate (Z.to_nat height) []), heap, heap.
    split; [now apply initCells_degenerate|].
    split; [now apply markAlive_rejected|].
    split; [apply assignNeighbors_replicate_nil | reflexivity].
  - intros Hzero Hin. unfold createInitialGrid.
    rewrite (bind_Ok _ _ _ _ _ (initCells_degenerate _ _ heap Hzero)).
    apply bind_Throw. now apply markAlive_TypeError.
Qed.

Lemma C3_dimensions_unchecked_witness :
  createInitialGrid (-1) 1 [] [] = Throw RangeError /\
  createInitialGrid (-1) 0 [aliveAt 0 0] []
  = Ok (Grid.mk [] (-1) 0 0, []) /\
  createInitialGrid 0 2 [aliveAt (-1) 1] [] = Throw TypeError.
Proof.
  split; [|split].
  - apply (C3_dimensions_unchecked (-1) 1 [] []); lia.
  - apply (proj1 (proj2 (C3_dimensions_unchecked (-1) 0 [aliveAt 0 0] []
                           ltac:(lia)))); [lia|].
    constructor; [cbn; lia | constructor].
  - apply (proj2 (proj2 (C3_dimensions_unchecked 0 2 [aliveAt (-1) 1] []
                           ltac:(lia)))); [lia|].
    constructor. cbn. lia.
Defined.

(** C3 as stated fails: with a width of 0 and a height of 5 a grid of five
    empty rows is returned. *)
Lemma C3_counterexample :
  (0 <= 0 \/ 5 <= 0) /\
  createInitialGrid 0 5 [] [] = Ok (Grid.mk [[]; []; []; []; []] 0 5 0, []) /\
  forall e, createInitialGrid 0 5 [] [] <> Throw e.
Proof. split; [lia|]. split; [reflexivity | discriminate]. Qed.

(** ** Coordinates out of range *)

Lemma forM__filter {A} (body : A -> M unit) (P : A -> Prop)
    `{forall a, Decision (P a)} (l : list A) (h : list Cell.t) :
  (forall a h1, ~ P a -> body a h1 = Ok (tt, h1)) ->
  forM_ body (filter P l) h = forM_ body l h.
Proof.
  intros Hskip. revert h. induction l as [|a l IH]; intros h; [done|].
  rewrite filter_cons. destruct (decide (P a)) as [Ha|Ha]; cbn [forM_].
  - unfold bind. destruct (body a h) as [[[] h1]|]; [apply IH | done].
  - now rewrite (bind_Ok _ _ _ _ _ (Hskip a h Ha)).
Qed.

(** The coordinates that the guard rejects, those with [x >= width] or
    [y >= height], have no effect. *)
Lemma createInitialGrid_guard width height aliveCells heap :
  createInitialGrid width height aliveCells heap
  = createInitialGrid width height
      (filter (fun a => Cell.x a < width /\ Cell.y a < height) aliveCells)
      heap.
Proof.
  unfold createInitialGrid, bind.
  destruct (arrayInit height _ heap) as [[cells heap1]|]; [|done].
  rewrite forM__filter; [done|].
  intros a h1 Hout.
  destruct (Z.ltb_spec (Cell.x a) width), (Z.ltb_spec (Cell.y a) height);
    cbn [andb]; first [reflexivity | lia].
Qed.

(** When no coordinate is negative, the grid is the one built from the
    coordinates of [[0, width) x [0, height)] alone. *)
Lemma createInitialGrid_in_range width height aliveCells heap :
  Forall (fun a => 0 <= Cell.x a /\ 0 <= Cell.y a) aliveCells ->
  createInitialGrid width height aliveCells heap
  = createInitialGrid width height
      (filter (fun a => 0 <= Cell.x a < width /\ 0 <= Cell.y a < height)
              aliveCells)
      heap.
Proof.
  intros Hnonneg. rewrite createInitialGrid_guard. f_equal.
  induction Hnonneg as [|a l Ha _ IH]; [done|].
  rewrite !filter_cons, IH.
  destruct (decide (Cell.x a < width /\ Cell.y a < height)),
    (decide (0 <= Cell.x a < width /\ 0 <= Cell.y a < height));
    first [done | lia].
Qed.

Lemma cellAt_negative cells x y : x < 0 \/ y < 0 -> cellAt cells x y = None.
Proof.
  intros Hneg. unfold cellAt.
  destruct (jsIndex cells y) as [row|] eqn:Hrow; [|done].
  apply jsIndex_Some in Hrow as [Hy _]. apply jsIndex_None. lia.
Qed.

Lemma markAlive_negative cells width height aliveCells h :
  gridShape h cells width height ->
  Exists (fun a => (Cell.x a < 0 \/ Cell.y a < 0) /\
                   Cell.x a < width /\ Cell.y a < height) aliveCells ->
  forM_ (fun aliveCell : Cell.t =>
    if (Cell.x aliveCell <? width) && (Cell.y aliveCell <? height) then
      row <- liftR (member (jsIndex cells (Cell.y aliveCell))) ;;
      cell <- liftR (member (jsIndex row (Cell.x aliveCell))) ;;
      setState cell alive
    else ret tt) aliveCells h = Throw TypeError.
Proof.
  intros Hshape Hex. revert h Hshape.
  induction Hex as [a l (Hneg & Hx & Hy)|a l Hex IH]; intros h Hshape;
    cbn [forM_]; unfold bind at 1; rewrite markAlive_eq.
  - rewrite (proj2 (Z.ltb_lt _ _) Hx), (proj2 (Z.ltb_lt _ _) Hy). cbn [andb].
    now rewrite (cellAt_negative _ _ _ Hneg).
  - destruct ((Cell.x a <? width) && (Cell.y a <? height)); [|now apply IH].
    destruct (cellAt cells (Cell.x a) (Cell.y a)) as [r|] eqn:Hr; [|done].
    destruct (gridShape_cellAt _ _ _ _ _ _ _ Hshape Hr)
      as (_ & _ & Hin & c & Hc & _).
    rewrite Hc. apply IH. eapply sameCells_shape; [|exact Hshape].
    now apply (sameCells_assign cells h r c (fun c => Cell.set_state c alive)).
Qed.

(** A negative coordinate below the upper bounds makes [createInitialGrid]
    raise [TypeError]. *)
Lemma createInitialGrid_negative width height aliveCells heap :
  0 < width -> 0 < height ->
  Exists (fun a => (Cell.x a < 0 \/ Cell.y a < 0) /\
                   Cell.x a < width /\ Cell.y a < height) aliveCells ->
  createInitialGrid width height aliveCells heap = Throw TypeError.
Proof.
  intros Hw Hh Hex.
  destruct (initCells_spec width height heap) as
    (cells & heap1 & E1 & _ & Hshape1 & _); [lia|lia|].
  unfold createInitialGrid. rewrite (bind_Ok _ _ _ _ _ E1).
  apply bind_Throw. now apply markAlive_negative.
Qed.

(** C2: the guard of [createInitialGrid] tests the upper bounds only.  A
    coordinate with a negative [x] or [y] below them passes it, the lookup
    [cells[y][x]] is [undefined], and the assignment of its state raises
    [TypeError]. *)
Theorem C2_negative_coordinate_raises :
  createInitialGrid 5 5 [aliveAt (-1) 0] [] = Throw TypeError /\
  createInitialGrid 5 5 [aliveAt 0 (-1)] [] = Throw TypeError /\
  createInitialGrid 5 5 [aliveAt 1 1; aliveAt (-1) (-1)] [] = Throw TypeError.
Proof. repeat split; reflexivity. Qed.

(** ** Patterns on any store *)

Lemma createInitialGrid_board width height aliveCells heap :
  0 < width -> 0 < height -> Forall (safeCoord width height) aliveCells ->
  exists g heap',
    createInitialGrid width height aliveCells heap = Ok (g, heap') /\
    wellFormed heap' g /\ cacheExact heap' g /\
    Grid.width g = width /\ Grid.height g = height /\
    represents heap' g (boardOf aliveCells).
Proof.
  intros Hw Hh Hsafe.
  destruct (createInitialGrid_total width height aliveCells heap)
    as (g & heap' & E); [lia|lia|exact Hsafe|].
  destruct (createInitialGrid_inv _ _ _ _ _ _ E)
    as (Hgw & Hgh & _ & Hwf & Hexact & _).
  exists g, heap'. split; [exact E|]. split; [exact Hwf|].
  split; [exact Hexact|]. split; [exact Hgw|]. split; [exact Hgh|].
  eapply createInitialGrid_represents, E.
Qed.

Lemma blockCells_safe : Forall (safeCoord 5 5) blockCells.
Proof. repeat (constructor; [right; cbn; lia|]). constructor. Qed.

Lemma blinkerCells_safe : Forall (safeCoord 5 5) blinkerCells.
Proof. repeat (constructor; [right; cbn; lia|]). constructor. Qed.

(** C8. Whatever the store, [createInitialGrid] builds the block on a 5x5
    grid, [createNextGeneration] returns its step, and [areGridsEqual]
    finds the two equal; in particular from the empty store. *)
Theorem C8_block_fixed_point :
  (forall heap : list Cell.t,
     exists g heap1 g' heap2,
       createInitialGrid 5 5 blockCells heap = Ok (g, heap1) /\
       createNextGeneration g heap1 = Ok (g', heap2) /\
       areGridsEqual g g' heap2 = Ok true) /\
  eval (g <- createInitialGrid 5 5 blockCells ;;
        g' <- createNextGeneration g ;;
        liftR (areGridsEqual g g')) = Ok true.
Proof.
  split; [|vm_compute; reflexivity].
  intros heap.
  destruct (createInitialGrid_board 5 5 blockCells heap)
    as (g & heap1 & E & Hwf & Hexact & Hw & Hh & Hrep);
    [lia | lia | exact blockCells_safe |].
  destruct (createNextGeneration_represents heap1 g _ Hwf Hexact Hrep)
    as (g' & heap2 & E' & Hwf' & _ & Hext & Hw' & Hh' & Hrep').
  exists g, heap1, g', heap2. split; [exact E|]. split; [exact E'|].
  rewrite (areGridsEqual_represents heap2 g g' _ _
             (gridShape_ext _ _ _ _ _ Hext (proj1 Hwf)) (proj1 Hwf')
             (eq_sym Hw') (eq_sym Hh')
             (represents_ext _ _ _ _ Hext Hrep) Hrep').
  rewrite Hw, Hh. vm_compute. reflexivity.
Qed.

(** C9. Whatever the store, [createInitialGrid] builds the blinker on a 5x5
    grid and [createNextGeneration] returns its first and second steps;
    [areGridsEqual] finds the second step equal to the grid, and the first
    step different from it; in particular from the empty store. *)
Theorem C9_blinker_period_two :
  (forall heap : list Cell.t,
     exists g heap1 g1 heap2 g2 heap3,
       createInitialGrid 5 5 blinkerCells heap = Ok (g, heap1) /\
       createNextGeneration g heap1 = Ok (g1, heap2) /\
       createNextGeneration g1 heap2 = Ok (g2, heap3) /\
       areGridsEqual g2 g heap3 = Ok true /\
       areGridsEqual g g1 heap3 = Ok false) /\
  eval (g <- createInitialGrid 5 5 blinkerCells ;;
        g1 <- createNextGeneration g ;;
        g2 <- createNextGeneration g1 ;;
        back <- liftR (areGridsEqual g2 g) ;;
        still <- liftR (areGridsEqual g g1) ;;
        ret (back, still)) = Ok (true, false).
Proof.
  split; [|vm_compute; reflexivity].
  intros heap.
  destruct (createInitialGrid_board 5 5 blinkerCells heap)
    as (g & heap1 & E & Hwf & Hexact & Hw & Hh & Hrep);
    [lia | lia | exact blinkerCells_safe |].
  destruct (createNextGeneration_represents heap1 g _ Hwf Hexact Hrep)
    as (g1 & heap2 & E1 & Hwf1 & Hexact1 & Hext1 & Hw1 & Hh1 & Hrep1).
  destruct (createNextGeneration_represents heap2 g1 _ Hwf1 Hexact1 Hrep1)
    as (g2 & heap3 & E2 & Hwf2 & _ & Hext2 & Hw2 & Hh2 & Hrep2).
  pose proof (heapExt_trans _ _ _ Hext1 Hext2) as Hext.
  exists g, heap1, g1, heap2, g2, heap3.
  split; [exact E|]. split; [exact E1|]. split; [exact E2|]. split.
  - rewrite (areGridsEqual_represents heap3 g2 g _ _
               (proj1 Hwf2) (gridShape_ext _ _ _ _ _ Hext (proj1 Hwf))
               ltac:(congruence) ltac:(congruence)
               Hrep2 (represents_ext _ _ _ _ Hext Hrep)).
    rewrite Hw2, Hh2, Hw1, Hh1, Hw, Hh. vm_compute. reflexivity.
  - rewrite (areGridsEqual_represents heap3 g g1 _ _
               (gridShape_ext _ _ _ _ _ Hext (proj1 Hwf))
               (gridShape_ext _ _ _ _ _ Hext2 (proj1 Hwf1))
               (eq_sym Hw1) (eq_sym Hh1)
               (represents_ext _ _ _ _ Hext Hrep)
               (represents_ext _ _ _ _ Hext2 Hrep1)).
    rewrite Hw, Hh. vm_compute. reflexivity.
Qed.

(** * Beyond the claims *)

(** ** [getGenerationColor] *)

Lemma colors_length : Z.of_nat (length colors) = 18.
Proof. reflexivity. Qed.

Lemma colors_next (k : Z) :
  0 <= k < 18 ->
  (jsIndex colors ((k + 1) mod 18) = jsIndex colors k <-> k = 17).
Proof.
  intros Hk.
  assert (Hcases : k = 0 \/ k = 1 \/ k = 2 \/ k = 3 \/ k = 4 \/ k = 5 \/
                   k = 6 \/ k = 7 \/ k = 8 \/ k = 9 \/ k = 10 \/ k = 11 \/
                   k = 12 \/ k = 13 \/ k = 14 \/ k = 15 \/ k = 16 \/ k = 17)
    by lia.
  repeat (destruct Hcases as [->|Hcases]); try subst k;
    vm_compute; split; intros H; first [discriminate H | reflexivity].
Qed.

Lemma getGenerationColor_nonneg (generation : Z) :
  0 <= generation -> is_Some (getGenerationColor generation).
Proof.
  intros Hg. unfold getGenerationColor. rewrite colors_length.
  destruct (jsIndex_in_range colors (Z.rem generation 18)) as [c Hc];
    [|now exists c].
  rewrite colors_length. apply Z.rem_bound_pos; lia.
Qed.

(** X1. For a generation that is not negative [getGenerationColor] returns
    one of the 18 entries of [colors], the same one every 18 generations.
    For a negative generation that is not a multiple of 18 the index is
    negative and the result is [undefined]. *)
Theorem X1_color_defined (generation : Z) :
  (0 <= generation ->
   (exists c, getGenerationColor generation = Some c /\ c ∈ colors) /\
   getGenerationColor (generation + 18) = getGenerationColor generation) /\
  (generation < 0 -> Z.rem generation 18 <> 0 ->
   getGenerationColor generation = None).
Proof.
  unfold getGenerationColor. rewrite colors_length. split.
  - intros Hg. split.
    + destruct (jsIndex_in_range colors (Z.rem generation 18)) as [c Hc].
      { rewrite colors_length. apply Z.rem_bound_pos; lia. }
      exists c. split; [exact Hc|].
      apply jsIndex_Some in Hc as [_ Hc].
      eapply list_elem_of_lookup_2, Hc.
    + rewrite !Z.rem_mod_nonneg by lia.
      now rewrite <- (Z_mod_plus_full generation 1 18), Z.mul_1_l.
  - intros Hneg Hrem. apply jsIndex_None. left.
    pose proof (Z.rem_nonpos generation 18 ltac:(lia) ltac:(lia)). lia.
Qed.

Lemma X1_color_defined_witness :
  (exists c, getGenerationColor 40 = Some c /\ c ∈ colors) /\
  getGenerationColor (40 + 18) = getGenerationColor 40 /\
  getGenerationColor (-5) = None.
Proof.
  destruct (X1_color_defined 40) as [Hpos _].
  destruct (X1_color_defined (-5)) as [_ Hneg].
  split; [apply Hpos; lia|]. split; [apply Hpos; lia|].
  apply Hneg; [lia | discriminate].
Defined.

(** X2. Two consecutive generations, neither negative, have different
    colours, except the last and the first of a cycle of 18: [colors] ends
    with the entry it starts with. *)
Theorem X2_color_changes (generation : Z) :
  0 <= generation ->
  (getGenerationColor (generation + 1) = getGenerationColor generation <->
   Z.rem generation 18 = 17).
Proof.
  intros Hg. unfold getGenerationColor. rewrite colors_length.
  rewrite !Z.rem_mod_nonneg by lia.
  rewrite <- (Zplus_mod_idemp_l generation 1 18).
  apply colors_next. apply Z.mod_pos_bound. lia.
Qed.

Lemma X2_color_changes_witness :
  getGenerationColor (35 + 1) = getGenerationColor 35 /\
  getGenerationColor (36 + 1) <> getGenerationColor 36.
Proof.
  split.
  - apply (X2_color_changes 35); [lia | reflexivity].
  - intros H. apply (X2_color_changes 36) in H; [discriminate H | lia].
Defined.

(** ** [findIndex] and [filter] by index *)

Lemma findIndexFrom_bound {A} (p : A -> bool) (l : list A) (i : Z) :
  findIndexFrom p l i = -1 \/ i <= findIndexFrom p l i.
Proof.
  revert i. induction l as [|a l IH]; intros i; cbn; [now left|].
  destruct (p a); [right; lia|]. destruct (IH (i + 1)); [now left | right; lia].
Qed.

Lemma findIndexFrom_found {A} (p : A -> bool) (l : list A) (i : Z) :
  0 <= i -> (findIndexFrom p l i >? -1) = existsb p l.
Proof.
  revert i. induction l as [|a l IH]; intros i Hi; cbn; [done|].
  destruct (p a); cbn; [|apply IH; lia].
  apply Z.gtb_lt. lia.
Qed.

Lemma filterIndexFrom_after {A} (l : list A) (i k : Z) :
  k < i -> filterIndexFrom (fun _ index => negb (index =? k)) l i = l.
Proof.
  revert i. induction l as [|a l IH]; intros i Hk; cbn; [done|].
  destruct (Z.eqb_spec i k); [lia|]. cbn. now rewrite IH by lia.
Qed.

Lemma filterIndexFrom_removeFirst {A} (p : A -> bool) (l : list A) (i : Z) :
  0 <= i -> existsb p l = true ->
  filterIndexFrom (fun _ index => negb (index =? findIndexFrom p l i)) l i
  = removeFirst p l.
Proof.
  revert i. induction l as [|a l IH]; intros i Hi Hex; [discriminate|].
  cbn in *. destruct (p a); cbn in *.
  - rewrite Z.eqb_refl. cbn. apply filterIndexFrom_after. lia.
  - pose proof (findIndexFrom_found p l (i + 1) ltac:(lia)) as Hfound.
    rewrite Hex in Hfound. apply Z.gtb_lt in Hfound.
    destruct (findIndexFrom_bound p l (i + 1)) as [Hnone|Hge]; [lia|].
    destruct (Z.eqb_spec i (findIndexFrom p l (i + 1))); [lia|]. cbn.
    now rewrite IH by (try lia; done).
Qed.

Lemma removeFirst_elem {A} (p : A -> bool) (l : list A) (a : A) :
  a ∈ removeFirst p l -> a ∈ l.
Proof.
  induction l as [|b l IH]; cbn; [done|].
  destruct (p b); [now right|].
  intros [->|Ha]%elem_of_cons; [left | right; auto].
Qed.

Lemma removeFirst_NoDup {A B} (f : A -> B) (p : A -> bool) (l : list A) :
  NoDup (map f l) -> NoDup (map f (removeFirst p l)).
Proof.
  induction l as [|b l IH]; cbn; [done|].
  intros [Hb Hnd]%NoDup_cons. destruct (p b); [exact Hnd|].
  cbn. apply NoDup_cons. split; [|auto].
  intros (a & Hfa & Ha%removeFirst_elem)%list_elem_of_fmap.
  apply Hb. apply list_elem_of_fmap. eauto.
Qed.

Lemma existsb_listed l x y :
  existsb (fun cell => (Cell.x cell =? x) && (Cell.y cell =? y)) l = true <->
  listed l x y.
Proof.
  rewrite existsb_exists. unfold listed. split.
  - intros (a & Ha & Hxy). apply andb_true_iff in Hxy as [Hx Hy].
    apply Z.eqb_eq in Hx, Hy. exists a. now rewrite list_elem_of_In.
  - intros (a & Ha & Hx & Hy). exists a. rewrite <- list_elem_of_In.
    split; [done|]. apply andb_true_iff. now rewrite !Z.eqb_eq.
Qed.

Lemma listed_coordOf l x y : listed l x y <-> (x, y) ∈ map coordOf l.
Proof.
  unfold listed. rewrite list_elem_of_fmap. unfold coordOf. split.
  - intros (a & Ha & <- & <-). eauto.
  - intros (a & [= -> ->] & Ha). eauto.
Qed.

(** With pairwise distinct coordinates, removing the first element at
    [(x, y)] removes the coordinates [(x, y)] and nothing else. *)
Lemma listed_removeFirst l x y x' y' :
  NoDup (map coordOf l) ->
  listed (removeFirst
            (fun cell => (Cell.x cell =? x) && (Cell.y cell =? y)) l) x' y'
  <-> listed l x' y' /\ (x', y') <> (x, y).
Proof.
  induction l as [|a l IH]; intros Hnd.
  - cbn. unfold listed. split.
    + intros (b & Hb & _). now apply not_elem_of_nil in Hb.
    + intros [(b & Hb & _) _]. now apply not_elem_of_nil in Hb.
  - cbn [map] in Hnd. apply NoDup_cons in Hnd as [Hnotin Hnd].
    cbn [removeFirst].
    destruct ((Cell.x a =? x) && (Cell.y a =? y)) eqn:Ha.
    + apply andb_true_iff in Ha as [Hx Hy]. apply Z.eqb_eq in Hx, Hy.
      split.
      * intros (b & Hb & <- & <-). split.
        -- exists b. split; [now right | done].
        -- intros [= Hbx Hby]. apply Hnotin. apply listed_coordOf.
           exists b. unfold coordOf. split; [done|]. split; congruence.
      * intros [(b & [->|Hb]%elem_of_cons & <- & <-) Hne]; [|exists b; done].
        exfalso. apply Hne. congruence.
    + split.
      * intros (b & [->|Hb]%elem_of_cons & <- & <-).
        -- split; [exists a; split; [left | done]|].
           intros [= Hbx Hby]. rewrite Hbx, Hby, !Z.eqb_refl in Ha.
           discriminate.
        -- destruct (proj1 (IH Hnd)) as [(b' & Hb' & Hx' & Hy') Hne].
           { exists b. done. }
           split; [|done]. exists b'. split; [now right | done].
      * intros [(b & [->|Hb]%elem_of_cons & <- & <-) Hne].
        -- exists a. split; [left | done].
        -- destruct (proj2 (IH Hnd)) as (b' & Hb' & Hx' & Hy').
           { split; [exists b; done | done]. }
           exists b'. split; [now right | done].
Qed.

(** ** Boards and grids *)

Lemma represents_boardIn heap g :
  gridShape heap (Grid.cells g) (Grid.width g) (Grid.height g) ->
  represents heap g (boardIn heap g).
Proof.
  intros Hshape x y Hx Hy. unfold boardIn.
  destruct (gridShape_in_range _ _ _ _ x y Hshape Hx Hy) as [r Hr].
  destruct (gridShape_cellAt _ _ _ _ _ _ _ Hshape Hr)
    as (_ & _ & _ & c & Hc & _).
  unfold stateAt. now rewrite Hr, Hc.
Qed.

Lemma represents_agree heap g b b' :
  represents heap g b ->
  (forall x y, 0 <= x < Grid.width g -> 0 <= y < Grid.height g ->
               b x y = b' x y) ->
  represents heap g b'.
Proof. intros Hrep Hb x y Hx Hy. rewrite <- Hb by done. now apply Hrep. Qed.

Lemma represents_unique heap g b b' x y :
  represents heap g b -> represents heap g b' ->
  0 <= x < Grid.width g -> 0 <= y < Grid.height g -> b x y = b' x y.
Proof.
  intros Hrep Hrep' Hx Hy.
  pose proof (Hrep x y Hx Hy) as H1. rewrite (Hrep' x y Hx Hy) in H1.
  now injection H1.
Qed.



Lemma wellFormed_ext h h' g :
  heapExt h h' -> wellFormed h g -> wellFormed h' g.
Proof.
  intros Hext [Hshape Hin]. split; [eapply gridShape_ext; eassumption|].
  intros r c Hr Hc.
  destruct (gridShape_valid _ _ _ _ _ Hshape Hr) as [c0 Hc0].
  rewrite (Hext _ _ Hc0) in Hc. injection Hc as <-. now apply (Hin r).
Qed.

Lemma cacheExact_ext h h' g :
  heapExt h h' ->
  gridShape h (Grid.cells g) (Grid.width g) (Grid.height g) ->
  cacheExact h g -> cacheExact h' g.
Proof.
  intros Hext Hshape Hexact r c Hr Hc.
  destruct (gridShape_valid _ _ _ _ _ Hshape Hr) as [c0 Hc0].
  rewrite (Hext _ _ Hc0) in Hc. injection Hc as <-. now apply (Hexact r).
Qed.

Lemma blinker_exact : cacheExact (snd blinker) (fst blinker).
Proof.
  pose proof blinker_built as E. rewrite (surjective_pairing blinker) in E.
  now destruct (createInitialGrid_inv _ _ _ _ _ _ E)
    as (_ & _ & _ & _ & Hexact & _).
Qed.

(** ** The engine, further *)

(** X3. In a grid returned by [createInitialGrid], the cell at a place
    [(x, y)] of the grid is alive when some element of [aliveCells] has the
    coordinates [(x, y)], and dead otherwise: the order of the elements,
    their repetition and their other fields do not matter. *)
Theorem X3_construct_states (width height : Z) (aliveCells : list Cell.t)
    (heap : list Cell.t) (g : Grid.t) (heap' : list Cell.t) (x y : Z) :
  createInitialGrid width height aliveCells heap = Ok (g, heap') ->
  0 <= x < width -> 0 <= y < height ->
  (stateAt heap' g x y = Some alive <-> listed aliveCells x y) /\
  (stateAt heap' g x y = Some dead <-> ~ listed aliveCells x y).
Proof.
  intros E Hx Hy.
  destruct (createInitialGrid_inv _ _ _ _ _ _ E) as (Hw & Hh & _).
  rewrite (createInitialGrid_represents _ _ _ _ _ _ E x y) by lia.
  unfold boardOf. rewrite <- existsb_listed.
  destruct (existsb _ aliveCells); split; split; intros H;
    first [done | discriminate H | now destruct H].
Qed.

Lemma X3_construct_states_witness :
  createInitialGrid 5 5 blinkerCells [] = Ok blinker /\
  (stateAt (snd blinker) (fst blinker) 2 2 = Some alive
   <-> listed blinkerCells 2 2) /\
  (stateAt (snd blinker) (fst blinker) 2 2 = Some dead
   <-> ~ listed blinkerCells 2 2).
Proof.
  split; [exact blinker_built|].
  apply (X3_construct_states 5 5 blinkerCells [] (fst blinker) (snd blinker));
    [exact blinker_built | lia | lia].
Defined.

(** X4. The elements of [aliveCells] that the guard of [createInitialGrid]
    rejects, those with [x >= width] or [y >= height], have no effect on the
    result: the grid and the store are those of the list without them.
    When no coordinate is negative, they are those of the list restricted
    to the coordinates of the grid. *)
Theorem X4_construct_drops_high (width height : Z) (aliveCells : list Cell.t)
    (heap : list Cell.t) :
  createInitialGrid width height aliveCells heap
  = createInitialGrid width height
      (filter (fun a => Cell.x a < width /\ Cell.y a < height) aliveCells)
      heap /\
  (Forall (fun a => 0 <= Cell.x a /\ 0 <= Cell.y a) aliveCells ->
   createInitialGrid width height aliveCells heap
   = createInitialGrid width height
       (filter (fun a => 0 <= Cell.x a < width /\ 0 <= Cell.y a < height)
               aliveCells)
       heap).
Proof.
  split; [apply createInitialGrid_guard | apply createInitialGrid_in_range].
Qed.

Lemma X4_construct_drops_high_witness :
  Forall (fun a => 0 <= Cell.x a /\ 0 <= Cell.y a)
         [aliveAt 1 1; aliveAt 7 0; aliveAt 0 9] /\
  createInitialGrid 3 3 [aliveAt 1 1; aliveAt 7 0; aliveAt 0 9] []
  = createInitialGrid 3 3
      (filter (fun a => 0 <= Cell.x a < 3 /\ 0 <= Cell.y a < 3)
              [aliveAt 1 1; aliveAt 7 0; aliveAt 0 9]) [].
Proof.
  assert (H : Forall (fun a => 0 <= Cell.x a /\ 0 <= Cell.y a)
                     [aliveAt 1 1; aliveAt 7 0; aliveAt 0 9]).
  { repeat (constructor; [cbn; lia|]). constructor. }
  split; [exact H|].
  exact (proj2 (X4_construct_drops_high 3 3 _ []) H).
Defined.

(** X5. For positive dimensions, a list of coordinates with an element
    below the upper bounds and with a negative [x] or [y] makes
    [createInitialGrid] raise [TypeError], wherever the element is in the
    list and whatever the store. *)
Theorem X5_construct_negative_raises (width height : Z)
    (aliveCells : list Cell.t) (heap : list Cell.t) :
  0 < width -> 0 < height ->
  Exists (fun a => (Cell.x a < 0 \/ Cell.y a < 0) /\
                   Cell.x a < width /\ Cell.y a < height) aliveCells ->
  createInitialGrid width height aliveCells heap = Throw TypeError.
Proof. apply createInitialGrid_negative. Qed.

Lemma X5_construct_negative_raises_witness :
  createInitialGrid 4 3 [aliveAt 1 1; aliveAt 2 (-3); aliveAt 0 0] []
  = Throw TypeError.
Proof.
  apply (X5_construct_negative_raises 4 3); [lia | lia |].
  apply Exists_cons_tl, Exists_cons_hd. cbn. lia.
Defined.

Lemma around_count width height x y :
  0 <= x < width -> 0 <= y < height ->
  length (filter (fun p => inBounds width height p) (around x y))
  = (span width x * span height y - 1)%nat.
Proof.
  intros Hx Hy. unfold span. rewrite around_eq.
  destruct (Z.ltb_spec 0 x), (Z.ltb_spec x (width - 1)),
    (Z.ltb_spec 0 y), (Z.ltb_spec y (height - 1));
    repeat first
      [ rewrite filter_cons_True by (apply inBounds_iff; cbn; lia)
      | rewrite filter_cons_False by (rewrite inBounds_iff; cbn; lia) ];
    reflexivity.
Qed.

(** X6. In a grid of the right shape with exact neighbour caches, as
    [createInitialGrid] and [createNextGeneration] return them, a cell is in
    the neighbour list of another exactly when the two are at a distance of
    at most one in both coordinates and are not the same; hence the cell at
    one place is a neighbour of the cell at another exactly when the
    converse holds. *)
Theorem X6_neighbors_symmetric (heap : list Cell.t) (g : Grid.t)
    (x1 y1 x2 y2 : Z) (r1 r2 : nat) (c1 c2 : Cell.t) :
  gridShape heap (Grid.cells g) (Grid.width g) (Grid.height g) ->
  cacheExact heap g ->
  cellAt (Grid.cells g) x1 y1 = Some r1 -> heap !! r1 = Some c1 ->
  cellAt (Grid.cells g) x2 y2 = Some r2 -> heap !! r2 = Some c2 ->
  (Some r2 ∈ Cell.neighbors c1 <->
   x1 - 1 <= x2 <= x1 + 1 /\ y1 - 1 <= y2 <= y1 + 1 /\ (x2, y2) <> (x1, y1))
  /\
  (Some r2 ∈ Cell.neighbors c1 <-> Some r1 ∈ Cell.neighbors c2).
Proof.
  intros Hshape Hexact Hr1 Hc1 Hr2 Hc2.
  assert (Hnb : forall xa ya xb yb ra rb ca,
            cellAt (Grid.cells g) xa ya = Some ra -> heap !! ra = Some ca ->
            cellAt (Grid.cells g) xb yb = Some rb ->
            (Some rb ∈ Cell.neighbors ca <->
             xa - 1 <= xb <= xa + 1 /\ ya - 1 <= yb <= ya + 1 /\
             (xb, yb) <> (xa, ya))).
  { intros xa ya xb yb ra rb ca Hra Hca Hrb.
    destruct (gridShape_cellAt _ _ _ _ _ _ _ Hshape Hra)
      as (_ & _ & Hin & ca' & Hca' & Hx & Hy).
    assert (ca' = ca) as -> by congruence.
    rewrite (Hexact ra ca Hin Hca), Hx, Hy.
    rewrite (elem_of_neighborList heap) by exact Hshape. split.
    - intros (x' & y' & r' & [= <-] & Hr' & Hdx & Hdy & Hne).
      pose proof (cellAt_inj _ _ _ _ (xb, yb) (x', y') rb Hshape Hrb Hr')
        as Heq.
      injection Heq as -> ->. done.
    - intros (Hdx & Hdy & Hne). exists xb, yb, rb. done. }
  split; [now apply (Hnb x1 y1 x2 y2 r1 r2 c1)|].
  rewrite (Hnb x1 y1 x2 y2 r1 r2 c1), (Hnb x2 y2 x1 y1 r2 r1 c2) by done.
  split; intros (Hdx & Hdy & Hne); (split; [lia|]; split; [lia|]);
    intros [= -> ->]; now apply Hne.
Qed.

Lemma X6_neighbors_symmetric_witness :
  gridShape (snd blinker) (Grid.cells (fst blinker)) 5 5 /\
  cacheExact (snd blinker) (fst blinker) /\
  cellAt (Grid.cells (fst blinker)) 2 2 = Some 12%nat /\
  cellAt (Grid.cells (fst blinker)) 3 1 = Some 8%nat /\
  (Some 8%nat ∈ Cell.neighbors blinkerCentre <->
   2 - 1 <= 3 <= 2 + 1 /\ 2 - 1 <= 1 <= 2 + 1 /\ (3, 1) <> (2, 2)).
Proof.
  pose proof (proj1 blinker_wellFormed) as Hshape.
  split; [exact Hshape|]. split; [exact blinker_exact|].
  split; [reflexivity|]. split; [reflexivity|].
  destruct (snd blinker !! 8%nat) as [c2|] eqn:Hc2; [|discriminate Hc2].
  apply (X6_neighbors_symmetric (snd blinker) (fst blinker) 2 2 3 1
           12%nat 8%nat blinkerCentre c2 Hshape blinker_exact);
    first [reflexivity | exact Hc2].
Defined.

(** X7. In a grid returned by [createInitialGrid], the cell at [(x, y)] has
    as many neighbours as there are places around it in the grid: the
    product of the numbers of in-bounds columns among [x - 1], [x], [x + 1]
    and of in-bounds rows among [y - 1], [y], [y + 1], minus one.  In a grid
    of at least two columns and two rows that is 3 for a corner and 5 for
    another cell of an edge. *)
Theorem X7_neighbor_count (width height : Z) (aliveCells : list Cell.t)
    (heap : list Cell.t) (g : Grid.t) (heap' : list Cell.t)
    (x y : Z) (r : nat) (c : Cell.t) :
  createInitialGrid width height aliveCells heap = Ok (g, heap') ->
  cellAt (Grid.cells g) x y = Some r -> heap' !! r = Some c ->
  length (Cell.neighbors c) = (span width x * span height y - 1)%nat /\
  (2 <= width -> 2 <= height ->
   (x = 0 \/ x = width - 1) -> (y = 0 \/ y = height - 1) ->
   length (Cell.neighbors c) = 3%nat) /\
  (2 <= width -> 2 <= height ->
   ((x = 0 \/ x = width - 1) /\ 0 < y < height - 1) \/
   (0 < x < width - 1 /\ (y = 0 \/ y = height - 1)) ->
   length (Cell.neighbors c) = 5%nat).
Proof.
  intros E Hr Hc.
  destruct (createInitialGrid_inv _ _ _ _ _ _ E)
    as (Hw & Hh & _ & [Hshape _] & Hexact & _).
  rewrite Hw, Hh in Hshape.
  destruct (gridShape_cellAt _ _ _ _ _ _ _ Hshape Hr)
    as (Hx & Hy & Hin & c' & Hc' & Hcx & Hcy).
  assert (c' = c) as -> by congruence.
  assert (Hlen : length (Cell.neighbors c)
                 = (span width x * span height y - 1)%nat).
  { rewrite (Hexact r c Hin Hc), Hw, Hh, Hcx, Hcy.
    unfold neighborList. rewrite length_map. now apply around_count. }
  split; [exact Hlen|]. rewrite Hlen. unfold span. split.
  - intros Hw2 Hh2 Hxe Hye.
    destruct (Z.ltb_spec 0 x), (Z.ltb_spec x (width - 1)),
      (Z.ltb_spec 0 y), (Z.ltb_spec y (height - 1));
      first [reflexivity | lia].
  - intros Hw2 Hh2 Hedge.
    destruct (Z.ltb_spec 0 x), (Z.ltb_spec x (width - 1)),
      (Z.ltb_spec 0 y), (Z.ltb_spec y (height - 1));
      first [reflexivity | lia].
Qed.

Lemma X7_neighbor_count_witness :
  createInitialGrid 5 5 blinkerCells [] = Ok blinker /\
  cellAt (Grid.cells (fst blinker)) 4 0 = Some 4%nat /\
  (exists c, snd blinker !! 4%nat = Some c /\
             length (Cell.neighbors c) = 3%nat).
Proof.
  split; [exact blinker_built|]. split; [reflexivity|].
  destruct (snd blinker !! 4%nat) as [c|] eqn:Hc; [|discriminate Hc].
  exists c. split; [reflexivity|].
  destruct (X7_neighbor_count 5 5 blinkerCells [] (fst blinker) (snd blinker)
              4 0 4%nat c blinker_built eq_refl Hc) as (_ & Hcorner & _).
  apply Hcorner; lia.
Defined.

Lemma boardsEqual_refl width height b : boardsEqual width height b b = true.
Proof. now apply boardsEqual_true. Qed.



Lemma stepN_represents n heap g b :
  wellFormed heap g -> cacheExact heap g -> represents heap g b ->
  exists g' heap',
    stepN n g heap = Ok (g', heap') /\
    wellFormed heap' g' /\ cacheExact heap' g' /\
    Grid.width g' = Grid.width g /\ Grid.height g' = Grid.height g /\
    represents heap' g'
      (Nat.iter n (lifeStep (Grid.width g) (Grid.height g)) b).
Proof.
  revert heap g b. induction n as [|n IH]; intros heap g b Hwf Hexact Hrep.
  - exists g, heap. split; [reflexivity|]. split; [exact Hwf|].
    split; [exact Hexact|]. split; [reflexivity|]. split; [reflexivity|].
    exact Hrep.
  - destruct (createNextGeneration_represents heap g b Hwf Hexact Hrep)
      as (g1 & heap1 & E1 & Hwf1 & Hexact1 & _ & Hw1 & Hh1 & Hrep1).
    destruct (IH heap1 g1 _ Hwf1 Hexact1 Hrep1)
      as (g' & heap' & E' & Hwf' & Hexact' & Hw' & Hh' & Hrep').
    exists g', heap'. cbn [stepN]. rewrite (bind_Ok _ _ _ _ _ E1).
    split; [exact E'|]. split; [exact Hwf'|]. split; [exact Hexact'|].
    split; [congruence|]. split; [congruence|].
    rewrite Nat.iter_succ_r. now rewrite Hw1, Hh1 in Hrep'.
Qed.

(** X8. On a well-formed grid with exact neighbour caches that holds a board
    [b], [createNextGeneration] returns a grid of the same kind that holds
    the step of [b]: the state of every place is the rule applied to its
    state and to the number of live places among the in-bounds places
    around it.  Hence [n] steps in a row return a grid that holds the [n]-th
    iterate of the step of boards. *)
Theorem X8_step_refines (heap : list Cell.t) (g : Grid.t) (b : Board) :
  wellFormed heap g -> cacheExact heap g -> represents heap g b ->
  (exists g' heap',
     createNextGeneration g heap = Ok (g', heap') /\
     wellFormed heap' g' /\ cacheExact heap' g' /\
     represents heap' g' (lifeStep (Grid.width g) (Grid.height g) b)) /\
  (forall n, exists g' heap',
     stepN n g heap = Ok (g', heap') /\
     wellFormed heap' g' /\ cacheExact heap' g' /\
     represents heap' g'
       (Nat.iter n (lifeStep (Grid.width g) (Grid.height g)) b)).
Proof.
  intros Hwf Hexact Hrep. split.
  - destruct (createNextGeneration_represents heap g b Hwf Hexact Hrep)
      as (g' & heap' & E & Hwf' & Hexact' & _ & _ & _ & Hrep').
    exists g', heap'. done.
  - intros n.
    destruct (stepN_represents n heap g b Hwf Hexact Hrep)
      as (g' & heap' & E & Hwf' & Hexact' & _ & _ & Hrep').
    exists g', heap'. done.
Qed.

Lemma X8_step_refines_witness :
  wellFormed (snd blinker) (fst blinker) /\
  cacheExact (snd blinker) (fst blinker) /\
  represents (snd blinker) (fst blinker) (boardOf blinkerCells) /\
  (exists g' heap',
     createNextGeneration (fst blinker) (snd blinker) = Ok (g', heap') /\
     wellFormed heap' g' /\ cacheExact heap' g' /\
     represents heap' g' (lifeStep 5 5 (boardOf blinkerCells))) /\
  (exists g' heap',
     stepN 4 (fst blinker) (snd blinker) = Ok (g', heap') /\
     wellFormed heap' g' /\ cacheExact heap' g' /\
     represents heap' g' (Nat.iter 4 (lifeStep 5 5) (boardOf blinkerCells))).
Proof.
  assert (Hrep : represents (snd blinker) (fst blinker) (boardOf blinkerCells)).
  { apply (createInitialGrid_represents 5 5 blinkerCells []).
    exact blinker_built. }
  destruct (X8_step_refines (snd blinker) (fst blinker) (boardOf blinkerCells)
              blinker_wellFormed blinker_exact Hrep) as [Hone Hmany].
  split; [exact blinker_wellFormed|]. split; [exact blinker_exact|].
  split; [exact Hrep|]. split; [exact Hone | exact (Hmany 4%nat)].
Defined.

(** X9. Two well-formed grids with exact neighbour caches that
    [areGridsEqual] finds equal have steps that [areGridsEqual] finds
    equal. *)
Theorem X9_equal_grids_step_equal (heap : list Cell.t) (A B : Grid.t) :
  wellFormed heap A -> cacheExact heap A ->
  wellFormed heap B -> cacheExact heap B ->
  areGridsEqual A B heap = Ok true ->
  exists A' heap1 B' heap2,
    createNextGeneration A heap = Ok (A', heap1) /\
    createNextGeneration B heap1 = Ok (B', heap2) /\
    areGridsEqual A' B' heap2 = Ok true.
Proof.
  intros HwfA HexactA HwfB HexactB Heq.
  destruct (areGridsEqual_spec heap A B (proj1 HwfA) (proj1 HwfB))
    as (b & Eb & Hb).
  rewrite Eb in Heq. injection Heq as ->.
  destruct (proj1 Hb eq_refl) as (Hw & Hh & Hstates).
  pose proof (represents_boardIn heap A (proj1 HwfA)) as HrepA.
  assert (HrepB : represents heap B (boardIn heap A)).
  { apply (represents_agree heap B (boardIn heap B));
      [apply represents_boardIn, HwfB|].
    intros x y Hx Hy. unfold boardIn. rewrite Hstates by lia. done. }
  destruct (createNextGeneration_represents heap A _ HwfA HexactA HrepA)
    as (A' & heap1 & EA & HwfA' & _ & Hext1 & HwA & HhA & HrepA').
  destruct (createNextGeneration_represents heap1 B (boardIn heap A)
              (wellFormed_ext _ _ _ Hext1 HwfB)
              (cacheExact_ext _ _ _ Hext1 (proj1 HwfB) HexactB)
              (represents_ext _ _ _ _ Hext1 HrepB))
    as (B' & heap2 & EB & HwfB' & _ & Hext2 & HwB & HhB & HrepB').
  exists A', heap1, B', heap2. split; [exact EA|]. split; [exact EB|].
  rewrite (areGridsEqual_represents heap2 A' B' _ _
             (gridShape_ext _ _ _ _ _ Hext2 (proj1 HwfA')) (proj1 HwfB')
             ltac:(congruence) ltac:(congruence)
             (represents_ext _ _ _ _ Hext2 HrepA') HrepB').
  rewrite <- Hw, <- Hh. f_equal. apply boardsEqual_refl.
Qed.

Lemma X9_equal_grids_step_equal_witness :
  areGridsEqual (fst blinker) (fst blinker) (snd blinker) = Ok true /\
  exists A' heap1 B' heap2,
    createNextGeneration (fst blinker) (snd blinker) = Ok (A', heap1) /\
    createNextGeneration (fst blinker) heap1 = Ok (B', heap2) /\
    areGridsEqual A' B' heap2 = Ok true.
Proof.
  assert (E : areGridsEqual (fst blinker) (fst blinker) (snd blinker)
              = Ok true) by (vm_compute; reflexivity).
  split; [exact E|].
  exact (X9_equal_grids_step_equal (snd blinker) (fst blinker) (fst blinker)
           blinker_wellFormed blinker_exact blinker_wellFormed blinker_exact
           E).
Defined.

(** X10. On the grids of a store that have the shape their width and height
    announce, [areGridsEqual] is an equivalence: a grid is equal to itself,
    the result does not depend on the order of the two arguments, and two
    grids equal to a third are equal. *)
Theorem X10_equals_equivalence (heap : list Cell.t) (A B C : Grid.t) :
  gridShape heap (Grid.cells A) (Grid.width A) (Grid.height A) ->
  gridShape heap (Grid.cells B) (Grid.width B) (Grid.height B) ->
  gridShape heap (Grid.cells C) (Grid.width C) (Grid.height C) ->
  areGridsEqual A A heap = Ok true /\
  areGridsEqual A B heap = areGridsEqual B A heap /\
  (areGridsEqual A B heap = Ok true -> areGridsEqual B C heap = Ok true ->
   areGridsEqual A C heap = Ok true).
Proof.
  intros HA HB HC.
  destruct (areGridsEqual_spec heap A A HA HA) as (baa & Eaa & Haa).
  destruct (areGridsEqual_spec heap A B HA HB) as (bab & Eab & Hab).
  destruct (areGridsEqual_spec heap B A HB HA) as (bba & Eba & Hba).
  destruct (areGridsEqual_spec heap B C HB HC) as (bbc & Ebc & Hbc).
  destruct (areGridsEqual_spec heap A C HA HC) as (bac & Eac & Hac).
  split; [|split].
  - rewrite Eaa. f_equal. now apply Haa.
  - rewrite Eab, Eba. f_equal. apply eq_true_iff_eq. rewrite Hab, Hba.
    split; intros (Hw & Hh & Hs); (split; [done|]; split; [done|]);
      intros x y Hx Hy; symmetry; apply Hs; lia.
  - rewrite Eab, Ebc, Eac. intros [= ->] [= ->]. f_equal. apply Hac.
    destruct (proj1 Hab eq_refl) as (Hw1 & Hh1 & Hs1).
    destruct (proj1 Hbc eq_refl) as (Hw2 & Hh2 & Hs2).
    split; [congruence|]. split; [congruence|]. intros x y Hx Hy.
    rewrite Hs1 by done. apply Hs2; lia.
Qed.

Lemma X10_equals_equivalence_witness :
  gridShape (snd blinker) (Grid.cells (fst blinker)) 5 5 /\
  areGridsEqual (fst blinker) (fst blinker) (snd blinker) = Ok true.
Proof.
  pose proof (proj1 blinker_wellFormed) as Hshape.
  split; [exact Hshape|].
  exact (proj1 (X10_equals_equivalence (snd blinker) (fst blinker)
                  (fst blinker) (fst blinker) Hshape Hshape Hshape)).
Defined.

(** ** The page: a click on a cell *)

Lemma listed_app l1 l2 x y :
  listed (l1 ++ l2) x y <-> listed l1 x y \/ listed l2 x y.
Proof.
  unfold listed. split.
  - intros (a & [Ha|Ha]%elem_of_app & Hxy); [left | right]; eauto.
  - intros [(a & Ha & Hxy)|(a & Ha & Hxy)]; exists a;
      (split; [apply elem_of_app; auto | done]).
Qed.

Lemma listed_singleton x y x' y' :
  listed [aliveAt x y] x' y' <-> (x', y') = (x, y).
Proof.
  unfold listed. split.
  - intros (a & ->%list_elem_of_singleton & <- & <-). done.
  - intros [= -> ->]. exists (aliveAt x y). split; [left | done].
Qed.

Lemma listed_toggled x y l x' y' :
  NoDup (map coordOf l) ->
  listed (toggled x y l) x' y' <->
  (listed l x' y' /\ (x', y') <> (x, y)) \/
  ((x', y') = (x, y) /\ ~ listed l x y).
Proof.
  intros Hnd. unfold toggled.
  destruct (existsb _ l) eqn:Hex.
  - apply existsb_listed in Hex. rewrite (listed_removeFirst l x y) by done.
    split; [auto|]. intros [H|[_ Hno]]; [done | now destruct Hno].
  - assert (Hno : ~ listed l x y).
    { intros H%existsb_listed. congruence. }
    rewrite listed_app, listed_singleton. split.
    + intros [H|Heq]; [|now right]. left. split; [done|].
      intros [= -> ->]. done.
    + intros [[H _]|[Heq _]]; auto.
Qed.

Lemma toggled_NoDup x y l :
  NoDup (map coordOf l) -> NoDup (map coordOf (toggled x y l)).
Proof.
  intros Hnd. unfold toggled. destruct (existsb _ l) eqn:Hex.
  - now apply removeFirst_NoDup.
  - rewrite map_app. apply NoDup_app. split; [done|]. split.
    + intros p Hp ->%list_elem_of_singleton.
      change (coordOf (aliveAt x y)) with (x, y) in Hp.
      apply listed_coordOf, existsb_listed in Hp. congruence.
    + apply NoDup_singleton.
Qed.

Lemma toggled_Forall (P : Cell.t -> Prop) x y l :
  Forall P l -> P (aliveAt x y) -> Forall P (toggled x y l).
Proof.
  intros Hl Ha. unfold toggled. destruct (existsb _ l).
  - apply Forall_forall. intros a Hin%removeFirst_elem.
    exact (proj1 (Forall_forall _ _) Hl a Hin).
  - apply Forall_app. split; [done|]. now constructor.
Qed.

(** A click on an unlisted place and a second click on it give the list
    back. *)
Lemma toggled_twice x y l :
  ~ listed l x y -> toggled x y (toggled x y l) = l.
Proof.
  intros Hno.
  assert (Hex : existsb (fun cell => (Cell.x cell =? x) && (Cell.y cell =? y))
                  l = false).
  { destruct (existsb _ l) eqn:Hex; [|done].
    now apply existsb_listed in Hex. }
  unfold toggled at 2. rewrite Hex. unfold toggled.
  rewrite existsb_app, Hex. cbn. rewrite !Z.eqb_refl. cbn.
  clear Hno. induction l as [|a l IH]; cbn in *.
  - now rewrite !Z.eqb_refl.
  - apply orb_false_iff in Hex as [Ha Hex]. rewrite Ha. f_equal. now apply IH.
Qed.

Lemma toggleCellState_eq (x y : Z) (s : Home.t) heap :
  Home.isRunning s = false ->
  Home.toggleCellState x y s heap
  = (newGrid <- createInitialGrid Home.width Home.height
                  (Home.aliveCells s ++ [aliveAt x y]) ;;
     ret (Home.mk (toggled x y (Home.aliveCells s)) newGrid
            (Home.isRunning s) (Home.isAutoAdvancing s)
            (Home.isDragging s) (Home.dragState s))) heap.
Proof.
  intros Hrun. unfold Home.toggleCellState. rewrite Hrun. cbv zeta.
  unfold findIndex, filterIndex, toggled.
  rewrite findIndexFrom_found by lia.
  destruct (existsb _ (Home.aliveCells s)) eqn:Hex; [|reflexivity].
  now rewrite filterIndexFrom_removeFirst by (try lia; done).
Qed.

Lemma pageInv_safe heap s x y :
  pageInv heap s -> 0 <= x -> 0 <= y ->
  Forall (safeCoord Home.width Home.height)
         (Home.aliveCells s ++ [aliveAt x y]).
Proof.
  intros (_ & _ & _ & _ & _ & Hin & _) Hx Hy. apply Forall_app. split.
  - eapply Forall_impl; [exact Hin|]. cbn. intros a Ha. right. lia.
  - constructor; [|constructor]. right. cbn. lia.
Qed.

(** A click while the simulation is not running: the grid is rebuilt from
    the list as it was and the cell clicked. *)
Lemma toggleCellState_spec heap s x y :
  pageInv heap s -> Home.isRunning s = false ->
  0 <= x < Home.width -> 0 <= y < Home.height ->
  exists g heap',
    createInitialGrid Home.width Home.height
      (Home.aliveCells s ++ [aliveAt x y]) heap = Ok (g, heap') /\
    Home.toggleCellState x y s heap
    = Ok (Home.mk (toggled x y (Home.aliveCells s)) g
            (Home.isRunning s) (Home.isAutoAdvancing s)
            (Home.isDragging s) (Home.dragState s), heap') /\
    pageInv heap'
      (Home.mk (toggled x y (Home.aliveCells s)) g
         (Home.isRunning s) (Home.isAutoAdvancing s)
         (Home.isDragging s) (Home.dragState s)).
Proof.
  intros Hinv Hrun Hx Hy.
  destruct (createInitialGrid_total Home.width Home.height
              (Home.aliveCells s ++ [aliveAt x y]) heap)
    as (g & heap' & E).
  { unfold Home.height. lia. }
  { unfold Home.width. lia. }
  { apply (pageInv_safe heap); [exact Hinv | lia | lia]. }
  exists g, heap'. split; [exact E|]. split.
  - rewrite toggleCellState_eq by exact Hrun.
    now rewrite (bind_Ok _ _ _ _ _ E).
  - destruct (createInitialGrid_inv _ _ _ _ _ _ E)
      as (Hw & Hh & Hgen & Hwf & Hexact & _).
    destruct Hinv as (_ & _ & _ & _ & _ & Hin & Hnd).
    split; [exact Hwf|]. split; [exact Hexact|]. split; [exact Hw|].
    split; [exact Hh|]. cbn. split; [lia|]. split.
    + apply toggled_Forall; [exact Hin | cbn; lia].
    + now apply toggled_NoDup.
Qed.

Lemma createInitialGrid_alive_iff width height aliveCells heap g heap' x y :
  createInitialGrid width height aliveCells heap = Ok (g, heap') ->
  0 <= x < width -> 0 <= y < height ->
  (stateAt heap' g x y = Some alive <-> listed aliveCells x y) /\
  (stateAt heap' g x y = Some dead <-> ~ listed aliveCells x y).
Proof.
  intros E Hx Hy.
  destruct (createInitialGrid_inv _ _ _ _ _ _ E) as (Hw & Hh & _).
  rewrite (createInitialGrid_represents _ _ _ _ _ _ E x y) by lia.
  unfold boardOf. rewrite <- existsb_listed.
  destruct (existsb _ aliveCells); split; split; intros H;
    first [done | discriminate H | now destruct H].
Qed.

Lemma initial_spec heap :
  exists g heap',
    createInitialGrid Home.width Home.height [] heap = Ok (g, heap') /\
    Home.initial heap = Ok (Home.mk [] g false false false alive, heap') /\
    pageInv heap' (Home.mk [] g false false false alive) /\
    allDead heap' (Grid.cells g).
Proof.
  destruct (createInitialGrid_total Home.width Home.height [] heap)
    as (g & heap' & E);
    [unfold Home.height; lia | unfold Home.width; lia | constructor |].
  exists g, heap'. split; [exact E|]. split.
  - unfold Home.initial. now rewrite (bind_Ok _ _ _ _ _ E).
  - destruct (createInitialGrid_inv _ _ _ _ _ _ E)
      as (Hw & Hh & Hgen & Hwf & Hexact & _).
    split; [|eapply createInitialGrid_empty_dead, E].
    split; [exact Hwf|]. split; [exact Hexact|]. split; [exact Hw|].
    split; [exact Hh|]. cbn. split; [lia|]. split; constructor.
Qed.

(** X11. A click on the cell at [(x, y)] while the simulation is not
    running toggles the coordinates in [aliveCells]: they are listed
    afterwards exactly when they were not, and no other coordinates change.
    The grid is rebuilt at generation 0 from the list as it was before the
    click, with the cell clicked added: that cell is alive on the new grid
    whether or not it was listed, and any other cell is alive exactly when
    it was listed before the click. *)
Theorem X11_click (heap : list Cell.t) (s : Home.t) (x y : Z) :
  pageInv heap s -> Home.isRunning s = false ->
  0 <= x < Home.width -> 0 <= y < Home.height ->
  exists s' heap',
    Home.toggleCellState x y s heap = Ok (s', heap') /\
    (listed (Home.aliveCells s') x y <-> ~ listed (Home.aliveCells s) x y) /\
    (forall x' y', (x', y') <> (x, y) ->
       (listed (Home.aliveCells s') x' y'
        <-> listed (Home.aliveCells s) x' y')) /\
    stateAt heap' (Home.grid s') x y = Some alive /\
    (forall x' y', 0 <= x' < Home.width -> 0 <= y' < Home.height ->
       (x', y') <> (x, y) ->
       (stateAt heap' (Home.grid s') x' y' = Some alive
        <-> listed (Home.aliveCells s) x' y')) /\
    Grid.generation (Home.grid s') = 0.
Proof.
  intros Hinv Hrun Hx Hy.
  destruct (toggleCellState_spec heap s x y Hinv Hrun Hx Hy)
    as (g & heap' & E & Et & Hinv').
  pose proof Hinv as (_ & _ & _ & _ & _ & _ & Hnd).
  eexists _, heap'. split; [exact Et|]. cbn [Home.aliveCells Home.grid].
  split; [|split; [|split; [|split]]].
  - rewrite (listed_toggled x y _ x y Hnd). split.
    + intros [[_ Hne]|[_ Hno]]; [now destruct Hne | exact Hno].
    + intros Hno. right. split; [reflexivity | exact Hno].
  - intros x' y' Hne. rewrite (listed_toggled x y _ x' y' Hnd). split.
    + intros [[H _]|[Heq _]]; [exact H | now destruct Hne].
    + intros H. left. split; [exact H | exact Hne].
  - apply (createInitialGrid_alive_iff _ _ _ _ _ _ x y E Hx Hy).
    apply listed_app. right. now apply listed_singleton.
  - intros x' y' Hx' Hy' Hne.
    rewrite (proj1 (createInitialGrid_alive_iff _ _ _ _ _ _ x' y' E Hx' Hy')).
    rewrite listed_app, listed_singleton. split; [|auto].
    intros [H|Heq]; [exact H | now destruct Hne].
  - now destruct (createInitialGrid_inv _ _ _ _ _ _ E) as (_ & _ & Hgen & _).
Qed.

Lemma X11_click_witness :
  exists s heap,
    Home.initial [] = Ok (s, heap) /\ pageInv heap s /\
    Home.isRunning s = false /\
    exists s' heap',
      Home.toggleCellState 3 4 s heap = Ok (s', heap') /\
      (listed (Home.aliveCells s') 3 4 <-> ~ listed (Home.aliveCells s) 3 4) /\
      stateAt heap' (Home.grid s') 3 4 = Some alive /\
      Grid.generation (Home.grid s') = 0.
Proof.
  destruct (initial_spec []) as (g & heap & _ & E & Hinv & _).
  eexists _, heap. split; [exact E|]. split; [exact Hinv|].
  split; [reflexivity|].
  destruct (X11_click heap _ 3 4 Hinv eq_refl)
    as (s' & heap' & Et & Hl & _ & Hs & _ & Hg);
    [unfold Home.width; lia | unfold Home.height; lia |].
  exists s', heap'. split; [exact Et|]. split; [exact Hl|].
  split; [exact Hs | exact Hg].
Defined.

(** X12. A click on a cell whose coordinates are listed removes them from
    [aliveCells] but leaves the cell alive on the grid, which is built from
    the list as it was; the cell dies on the grid only with the next click,
    on another cell. *)
Theorem X12_click_on_listed_cell (heap : list Cell.t) (s : Home.t)
    (x y x2 y2 : Z) :
  pageInv heap s -> Home.isRunning s = false ->
  0 <= x < Home.width -> 0 <= y < Home.height ->
  0 <= x2 < Home.width -> 0 <= y2 < Home.height ->
  listed (Home.aliveCells s) x y -> (x2, y2) <> (x, y) ->
  exists s1 heap1 s2 heap2,
    Home.toggleCellState x y s heap = Ok (s1, heap1) /\
    ~ listed (Home.aliveCells s1) x y /\
    stateAt heap1 (Home.grid s1) x y = Some alive /\
    Home.toggleCellState x2 y2 s1 heap1 = Ok (s2, heap2) /\
    ~ listed (Home.aliveCells s2) x y /\
    stateAt heap2 (Home.grid s2) x y = Some dead.
Proof.
  intros Hinv Hrun Hx Hy Hx2 Hy2 Hlisted Hne.
  destruct (toggleCellState_spec heap s x y Hinv Hrun Hx Hy)
    as (g1 & heap1 & E1 & Et1 & Hinv1).
  destruct (toggleCellState_spec heap1 _ x2 y2 Hinv1 Hrun Hx2 Hy2)
    as (g2 & heap2 & E2 & Et2 & Hinv2).
  pose proof Hinv as (_ & _ & _ & _ & _ & _ & Hnd).
  pose proof Hinv1 as (_ & _ & _ & _ & _ & _ & Hnd1).
  cbn [Home.aliveCells Home.grid Home.isRunning Home.isAutoAdvancing
       Home.isDragging Home.dragState] in *.
  assert (Hno1 : ~ listed (toggled x y (Home.aliveCells s)) x y).
  { rewrite (listed_toggled x y _ x y Hnd).
    intros [[_ H]|[_ H]]; [now destruct H | now destruct H]. }
  assert (Hno2 : ~ listed (toggled x2 y2 (toggled x y (Home.aliveCells s)))
                   x y).
  { rewrite (listed_toggled x2 y2 _ x y Hnd1).
    intros [[H _]|[Heq _]]; [now destruct Hno1|].
    apply Hne. now injection Heq as -> ->. }
  eexists _, heap1, _, heap2. split; [exact Et1|].
  cbn [Home.aliveCells Home.grid]. split; [exact Hno1|]. split.
  - apply (createInitialGrid_alive_iff _ _ _ _ _ _ x y E1 Hx Hy).
    apply listed_app. now left.
  - split; [exact Et2|]. split; [exact Hno2|].
    apply (createInitialGrid_alive_iff _ _ _ _ _ _ x y E2 Hx Hy).
    rewrite listed_app, listed_singleton.
    intros [H|Heq]; [now destruct Hno1|].
    apply Hne. now injection Heq as -> ->.
Qed.

(** X13. Two clicks in a row on a cell whose coordinates are not listed
    give [aliveCells] back as it was, while the grid, built by the second
    click from the list of the first, shows the cell alive. *)
Theorem X13_click_twice (heap : list Cell.t) (s : Home.t) (x y : Z) :
  pageInv heap s -> Home.isRunning s = false ->
  0 <= x < Home.width -> 0 <= y < Home.height ->
  ~ listed (Home.aliveCells s) x y ->
  exists s1 heap1 s2 heap2,
    Home.toggleCellState x y s heap = Ok (s1, heap1) /\
    Home.toggleCellState x y s1 heap1 = Ok (s2, heap2) /\
    Home.aliveCells s2 = Home.aliveCells s /\
    stateAt heap2 (Home.grid s2) x y = Some alive.
Proof.
  intros Hinv Hrun Hx Hy Hno.
  destruct (toggleCellState_spec heap s x y Hinv Hrun Hx Hy)
    as (g1 & heap1 & E1 & Et1 & Hinv1).
  destruct (toggleCellState_spec heap1 _ x y Hinv1 Hrun Hx Hy)
    as (g2 & heap2 & E2 & Et2 & Hinv2).
  cbn [Home.aliveCells Home.grid Home.isRunning Home.isAutoAdvancing
       Home.isDragging Home.dragState] in *.
  eexists _, heap1, _, heap2. split; [exact Et1|]. split; [exact Et2|].
  cbn [Home.aliveCells Home.grid]. split; [now apply toggled_twice|].
  apply (createInitialGrid_alive_iff _ _ _ _ _ _ x y E2 Hx Hy).
  apply listed_app. right. now apply listed_singleton.
Qed.

Lemma X13_click_twice_witness :
  exists s heap,
    Home.initial [] = Ok (s, heap) /\ pageInv heap s /\
    Home.isRunning s = false /\ ~ listed (Home.aliveCells s) 7 0 /\
    exists s1 heap1 s2 heap2,
      Home.toggleCellState 7 0 s heap = Ok (s1, heap1) /\
      Home.toggleCellState 7 0 s1 heap1 = Ok (s2, heap2) /\
      Home.aliveCells s2 = Home.aliveCells s /\
      stateAt heap2 (Home.grid s2) 7 0 = Some alive.
Proof.
  destruct (initial_spec []) as (g & heap & _ & E & Hinv & _).
  assert (Hno : ~ listed (@nil Cell.t) 7 0).
  { intros (a & Ha & _). now apply not_elem_of_nil in Ha. }
  eexists _, heap. split; [exact E|]. split; [exact Hinv|].
  split; [reflexivity|]. split; [exact Hno|].
  apply (X13_click_twice heap _ 7 0 Hinv eq_refl);
    [unfold Home.width; lia | unfold Home.height; lia | exact Hno].
Defined.

Lemma X12_click_on_listed_cell_witness :
  exists s heap,
    pageInv heap s /\ Home.isRunning s = false /\
    listed (Home.aliveCells s) 7 0 /\
    exists s1 heap1 s2 heap2,
      Home.toggleCellState 7 0 s heap = Ok (s1, heap1) /\
      ~ listed (Home.aliveCells s1) 7 0 /\
      stateAt heap1 (Home.grid s1) 7 0 = Some alive /\
      Home.toggleCellState 8 1 s1 heap1 = Ok (s2, heap2) /\
      ~ listed (Home.aliveCells s2) 7 0 /\
      stateAt heap2 (Home.grid s2) 7 0 = Some dead.
Proof.
  destruct (initial_spec []) as (g & heap & _ & _ & Hinv & _).
  destruct (toggleCellState_spec heap _ 7 0 Hinv eq_refl)
    as (g1 & heap1 & _ & _ & Hinv1);
    [unfold Home.width; lia | unfold Home.height; lia |].
  assert (Hl : listed (toggled 7 0 []) 7 0).
  { exists (aliveAt 7 0). split; [left | done]. }
  eexists _, heap1. split; [exact Hinv1|]. split; [reflexivity|].
  split; [exact Hl|].
  apply (X12_click_on_listed_cell heap1 _ 7 0 8 1 Hinv1 eq_refl);
    first [unfold Home.width; lia | unfold Home.height; lia
          | exact Hl | discriminate].
Defined.

(** ** The page: every handler keeps the invariant *)

Lemma pageInv_same heap s s' :
  pageInv heap s ->
  Home.grid s' = Home.grid s -> Home.aliveCells s' = Home.aliveCells s ->
  pageInv heap s'.
Proof. unfold pageInv. intros H -> ->. exact H. Qed.

Lemma toggleCellState_inv heap s x y :
  pageInv heap s -> 0 <= x < Home.width -> 0 <= y < Home.height ->
  exists s' heap',
    Home.toggleCellState x y s heap = Ok (s', heap') /\ pageInv heap' s'.
Proof.
  intros Hinv Hx Hy. destruct (Home.isRunning s) eqn:Hrun.
  - exists s, heap. split; [|exact Hinv].
    unfold Home.toggleCellState. now rewrite Hrun.
  - destruct (toggleCellState_spec heap s x y Hinv Hrun Hx Hy)
      as (g & heap' & _ & Et & Hinv').
    eexists _, heap'. split; [exact Et | exact Hinv'].
Qed.

Lemma pageInv_stateOf heap s x y :
  pageInv heap s -> 0 <= x < Home.width -> 0 <= y < Home.height ->
  exists st, stateOf (Home.grid s) x y heap = Ok st.
Proof.
  intros ([Hshape _] & _ & Hw & Hh & _) Hx Hy.
  destruct (stateOf_Ok heap (Home.grid s) x y Hshape) as (st & E & _);
    [lia | lia | eauto].
Qed.

Lemma handleMouseDown_inv heap s x y :
  pageInv heap s -> 0 <= x < Home.width -> 0 <= y < Home.height ->
  exists s' heap',
    Home.handleMouseDown x y s heap = Ok (s', heap') /\ pageInv heap' s'.
Proof.
  intros Hinv Hx Hy. unfold Home.handleMouseDown.
  destruct (Home.isRunning s); [exists s, heap; done|].
  destruct (pageInv_stateOf heap s x y Hinv Hx Hy) as [st Est].
  destruct (toggleCellState_inv heap s x y Hinv Hx Hy)
    as (s' & heap' & Et & Hinv').
  eexists _, heap'. split.
  - rewrite (bind_Ok _ _ _ _ _ (liftR_Ok _ _ _ Est)). cbv zeta.
    now rewrite (bind_Ok _ _ _ _ _ Et).
  - now apply (pageInv_same heap' s').
Qed.

Lemma handleMouseEnter_inv heap s x y :
  pageInv heap s -> 0 <= x < Home.width -> 0 <= y < Home.height ->
  exists s' heap',
    Home.handleMouseEnter x y s heap = Ok (s', heap') /\ pageInv heap' s'.
Proof.
  intros Hinv Hx Hy. unfold Home.handleMouseEnter.
  destruct (Home.isRunning s || negb (Home.isDragging s));
    [exists s, heap; done|].
  destruct (pageInv_stateOf heap s x y Hinv Hx Hy) as [st Est].
  pose proof (toggleCellState_inv heap s x y Hinv Hx Hy) as Htoggle.
  destruct (Home.dragState s); cbn [isAlive isDead].
  - rewrite (bind_Ok _ _ heap (isDead st) heap)
      by (now rewrite (bind_Ok _ _ _ _ _ (liftR_Ok _ _ _ Est))).
    destruct (isDead st); [exact Htoggle|].
    unfold bind, ret. exists s, heap. done.
  - unfold bind at 1. unfold ret at 1.
    rewrite (bind_Ok _ _ heap (isAlive st) heap)
      by (now rewrite (bind_Ok _ _ _ _ _ (liftR_Ok _ _ _ Est))).
    destruct (isAlive st); [exact Htoggle|]. exists s, heap. done.
Qed.

(** A call of [advanceGeneration] in a render whose grid holds [b]. *)
Lemma advanceGeneration_spec heap s b :
  pageInv heap s -> represents heap (Home.grid s) b ->
  exists g' heap',
    createNextGeneration (Home.grid s) heap = Ok (g', heap') /\
    areGridsEqual (Home.grid s) g' heap'
    = Ok (boardsEqual Home.width Home.height b
            (lifeStep Home.width Home.height b)) /\
    Home.advanceGeneration s heap
    = Ok (Home.mk (Home.aliveCells s) g'
            (Home.isRunning s
             && negb (boardsEqual Home.width Home.height b
                        (lifeStep Home.width Home.height b)))
            (Home.isAutoAdvancing s
             && negb (boardsEqual Home.width Home.height b
                        (lifeStep Home.width Home.height b)))
            (Home.isDragging s) (Home.dragState s), heap') /\
    pageInv heap'
      (Home.mk (Home.aliveCells s) g' false false false alive) /\
    represents heap' g' (lifeStep Home.width Home.height b) /\
    Grid.generation g' = Grid.generation (Home.grid s) + 1.
Proof.
  intros (Hwf & Hexact & Hw & Hh & Hgen & Hin & Hnd) Hrep.
  destruct (createNextGeneration_represents heap _ b Hwf Hexact Hrep)
    as (g' & heap' & E & Hwf' & Hexact' & Hext & Hw' & Hh' & Hrep').
  assert (Hg : Grid.generation g' = Grid.generation (Home.grid s) + 1).
  { destruct (wellFormed_step heap _ Hwf)
      as (g1 & heap1 & E1 & _ & _ & _ & _ & Hg1).
    rewrite E in E1. now injection E1 as <- <-. }
  assert (Eeq : areGridsEqual (Home.grid s) g' heap'
                = Ok (boardsEqual Home.width Home.height b
                        (lifeStep Home.width Home.height b))).
  { rewrite (areGridsEqual_represents heap' (Home.grid s) g' b
               (lifeStep (Grid.width (Home.grid s))
                  (Grid.height (Home.grid s)) b)
               (gridShape_ext _ _ _ _ _ Hext (proj1 Hwf)) (proj1 Hwf')
               (eq_sym Hw') (eq_sym Hh')
               (represents_ext _ _ _ _ Hext Hrep) Hrep').
    now rewrite Hw, Hh. }
  rewrite Hw, Hh in Hrep'.
  exists g', heap'. split; [exact E|]. split; [exact Eeq|]. split; [|split].
  - unfold Home.advanceGeneration.
    rewrite (bind_Ok _ _ _ _ _ E), (bind_Ok _ _ _ _ _ (liftR_Ok _ _ _ Eeq)).
    destruct (boardsEqual _ _ b _); cbn [negb];
      now rewrite ?andb_false_r, ?andb_true_r.
  - split; [exact Hwf'|]. split; [exact Hexact'|]. cbn.
    split; [congruence|]. split; [congruence|]. split; [lia|]. done.
  - split; [exact Hrep' | exact Hg].
Qed.

Lemma advanceGeneration_inv heap s :
  pageInv heap s ->
  exists s' heap',
    Home.advanceGeneration s heap = Ok (s', heap') /\ pageInv heap' s'.
Proof.
  intros Hinv.
  destruct (advanceGeneration_spec heap s (boardIn heap (Home.grid s)) Hinv)
    as (g' & heap' & _ & _ & Ea & Hinv' & _).
  { apply represents_boardIn, Hinv. }
  eexists _, heap'. split; [exact Ea|].
  now apply (pageInv_same heap' (Home.mk (Home.aliveCells s) g'
                                   false false false alive)).
Qed.

Lemma resetGrid_spec heap s :
  exists g heap',
    createInitialGrid Home.width Home.height [] heap = Ok (g, heap') /\
    Home.resetGrid s heap
    = Ok (Home.mk [] g false false (Home.isDragging s) (Home.dragState s),
          heap') /\
    pageInv heap'
      (Home.mk [] g false false (Home.isDragging s) (Home.dragState s)).
Proof.
  destruct (initial_spec heap) as (g & heap' & E & _ & Hinv & _).
  exists g, heap'. split; [exact E|]. split.
  - unfold Home.resetGrid. now rewrite (bind_Ok _ _ _ _ _ E).
  - now apply (pageInv_same heap' (Home.mk [] g false false false alive)).
Qed.

Lemma dispatch_inv heap s e :
  Home.validEvent e -> pageInv heap s ->
  exists s' heap', Home.dispatch e s heap = Ok (s', heap') /\ pageInv heap' s'.
Proof.
  intros Hvalid Hinv. destruct e as [x y|x y| | | | | |]; cbn [Home.dispatch].
  - destruct Hvalid. now apply handleMouseDown_inv.
  - destruct Hvalid. now apply handleMouseEnter_inv.
  - eexists _, heap. split; [reflexivity|]. now apply (pageInv_same heap s).
  - eexists _, heap. split; [reflexivity|]. now apply (pageInv_same heap s).
  - eexists _, heap. split; [reflexivity|]. now apply (pageInv_same heap s).
  - now apply advanceGeneration_inv.
  - eexists _, heap. split; [reflexivity|]. now apply (pageInv_same heap s).
  - destruct (resetGrid_spec heap s) as (g & heap' & _ & Er & Hinv').
    eexists _, heap'. split; [exact Er | exact Hinv'].
Qed.

Lemma run_inv es heap s :
  Forall Home.validEvent es -> pageInv heap s ->
  exists s' heap', Home.run es s heap = Ok (s', heap') /\ pageInv heap' s'.
Proof.
  intros Hvalid. revert heap s.
  induction Hvalid as [|e es He _ IH]; intros heap s Hinv.
  - exists s, heap. done.
  - destruct (dispatch_inv heap s e He Hinv) as (s1 & heap1 & E1 & Hinv1).
    destruct (IH heap1 s1 Hinv1) as (s' & heap' & E' & Hinv').
    exists s', heap'. cbn [Home.run]. now rewrite (bind_Ok _ _ _ _ _ E1).
Qed.

(** X14. From the first render, and whatever the store, no sequence of
    events on rendered cells and buttons makes a handler raise: every
    handler returns, and in every render the grid is a well-formed 25x25
    grid with exact neighbour caches, the generation is not negative, so
    that it has a colour, and the alive coordinates are inside the grid and
    pairwise distinct. *)
Theorem X14_page_never_raises (heap : list Cell.t) (es : list Home.Event) :
  Forall Home.validEvent es ->
  exists s heap',
    (s0 <- Home.initial ;; Home.run es s0) heap = Ok (s, heap') /\
    pageInv heap' s /\
    is_Some (getGenerationColor (Grid.generation (Home.grid s))).
Proof.
  intros Hvalid.
  destruct (initial_spec heap) as (g & heap0 & _ & E0 & Hinv0 & _).
  destruct (run_inv es heap0 _ Hvalid Hinv0) as (s & heap' & E & Hinv).
  exists s, heap'. split; [now rewrite (bind_Ok _ _ _ _ _ E0)|].
  split; [exact Hinv|].
  destruct Hinv as (_ & _ & _ & _ & Hgen & _).
  now apply getGenerationColor_nonneg.
Qed.

Lemma X14_page_never_raises_witness :
  Forall Home.validEvent
    [Home.MouseDown 1 2; Home.MouseEnter 2 2; Home.MouseUp; Home.Start;
     Home.Auto; Home.Advance; Home.Reset] /\
  exists s heap',
    (s0 <- Home.initial ;;
     Home.run [Home.MouseDown 1 2; Home.MouseEnter 2 2; Home.MouseUp;
               Home.Start; Home.Auto; Home.Advance; Home.Reset] s0) []
    = Ok (s, heap') /\
    pageInv heap' s /\
    is_Some (getGenerationColor (Grid.generation (Home.grid s))).
Proof.
  assert (H : Forall Home.validEvent
                [Home.MouseDown 1 2; Home.MouseEnter 2 2; Home.MouseUp;
                 Home.Start; Home.Auto; Home.Advance; Home.Reset]).
  { repeat (constructor;
            [first [exact I | cbn; unfold Home.width, Home.height; lia]|]).
    constructor. }
  split; [exact H|]. exact (X14_page_never_raises [] _ H).
Defined.






(** X17. [resetGrid] empties [aliveCells], clears [isRunning] and
    [isAutoAdvancing] and installs a grid at generation 0 all of whose
    cells are dead, whatever the state before.  Started from there, the
    first call of [advanceGeneration] stops the simulation by itself, on a
    grid at generation 1 all of whose cells are dead. *)
Theorem X17_reset (heap : list Cell.t) (s : Home.t) :
  exists s1 heap1 s2 heap2,
    Home.resetGrid s heap = Ok (s1, heap1) /\
    Home.aliveCells s1 = [] /\ Home.isRunning s1 = false /\
    Home.isAutoAdvancing s1 = false /\
    Grid.generation (Home.grid s1) = 0 /\
    (forall x y, 0 <= x < Home.width -> 0 <= y < Home.height ->
       stateAt heap1 (Home.grid s1) x y = Some dead) /\
    Home.advanceGeneration (Home.startSimulation s1) heap1 = Ok (s2, heap2) /\
    Home.isRunning s2 = false /\ Home.isAutoAdvancing s2 = false /\
    Grid.generation (Home.grid s2) = 1 /\
    (forall x y, 0 <= x < Home.width -> 0 <= y < Home.height ->
       stateAt heap2 (Home.grid s2) x y = Some dead).
Proof.
  destruct (resetGrid_spec heap s) as (g & heap1 & E & Er & Hinv).
  pose proof (createInitialGrid_inv _ _ _ _ _ _ E)
    as (Hw & Hh & Hgen & _).
  pose proof (createInitialGrid_represents _ _ _ _ _ _ E) as Hrep.
  assert (Hfix : boardsEqual Home.width Home.height (boardOf [])
                   (lifeStep Home.width Home.height (boardOf [])) = true)
    by (vm_compute; reflexivity).
  edestruct (advanceGeneration_spec heap1
               (Home.startSimulation
                  (Home.mk [] g false false (Home.isDragging s)
                     (Home.dragState s)))
               (boardOf []))
    as (g' & heap2 & _ & _ & Ea & Hinv' & Hrep' & Hg').
  { apply (pageInv_same heap1 _ _ Hinv); reflexivity. }
  { exact Hrep. }
  rewrite Hfix in Ea. cbn [negb] in Ea. rewrite !andb_false_r in Ea.
  destruct Hinv' as (_ & _ & Hw' & Hh' & _). cbn [Home.grid] in Hw', Hh'.
  eexists _, heap1, _, heap2. split; [exact Er|].
  cbn [Home.aliveCells Home.isRunning Home.isAutoAdvancing Home.grid].
  split; [reflexivity|]. split; [reflexivity|]. split; [reflexivity|].
  split; [exact Hgen|]. split.
  { intros x y Hx Hy. rewrite Hrep by (rewrite ?Hw, ?Hh; done). done. }
  split; [exact Ea|].
  cbn [Home.aliveCells Home.isRunning Home.isAutoAdvancing Home.grid].
  split; [reflexivity|]. split; [reflexivity|].
  cbn [Home.startSimulation Home.grid] in Hg'. split; [lia|].
  intros x y Hx Hy.
  rewrite (Hrep' x y) by (rewrite ?Hw', ?Hh'; done).
  f_equal. symmetry.
  exact (proj1 (boardsEqual_true _ _ _ _) Hfix x y Hx Hy).
Qed.

(** ** The page: a drag *)

Lemma stateOf_stateAt heap g x y st :
  stateAt heap g x y = Some st -> stateOf g x y heap = Ok st.
Proof.
  rewrite stateOf_eq. unfold stateAt.
  destruct (cellAt (Grid.cells g) x y) as [r|]; [|discriminate].
  destruct (heap !! r); [|discriminate]. now intros [= ->].
Qed.

(** X18. While the simulation is not running, a press on a cell that is
    shown dead and is not listed starts a drag in the mode alive and lists
    the cell; entering then another unlisted cell lists it too, and the
    grid shows both alive.  Once the button is released, entering a cell
    changes nothing. *)
Theorem X18_drag_paints (heap : list Cell.t) (s : Home.t)
    (x y x2 y2 x3 y3 : Z) :
  pageInv heap s -> Home.isRunning s = false ->
  0 <= x < Home.width -> 0 <= y < Home.height ->
  0 <= x2 < Home.width -> 0 <= y2 < Home.height ->
  stateAt heap (Home.grid s) x y = Some dead ->
  ~ listed (Home.aliveCells s) x y -> ~ listed (Home.aliveCells s) x2 y2 ->
  (x2, y2) <> (x, y) ->
  exists s1 heap1 s2 heap2,
    Home.handleMouseDown x y s heap = Ok (s1, heap1) /\
    Home.isDragging s1 = true /\ Home.dragState s1 = alive /\
    Home.handleMouseEnter x2 y2 s1 heap1 = Ok (s2, heap2) /\
    listed (Home.aliveCells s2) x y /\ listed (Home.aliveCells s2) x2 y2 /\
    stateAt heap2 (Home.grid s2) x y = Some alive /\
    stateAt heap2 (Home.grid s2) x2 y2 = Some alive /\
    Home.handleMouseEnter x3 y3 (Home.handleMouseUp s2) heap2
    = Ok (Home.handleMouseUp s2, heap2).
Proof.
  intros Hinv Hrun Hx Hy Hx2 Hy2 Hdead Hno Hno2 Hne.
  destruct (toggleCellState_spec heap s x y Hinv Hrun Hx Hy)
    as (g1 & heap1 & E1 & Et1 & Hinv1).
  set (s1 := Home.mk (toggled x y (Home.aliveCells s)) g1 (Home.isRunning s)
               (Home.isAutoAdvancing s) true alive).
  assert (Hinv1' : pageInv heap1 s1)
    by (apply (pageInv_same heap1 _ _ Hinv1); reflexivity).
  assert (Hrun1 : Home.isRunning s1 = false) by exact Hrun.
  destruct (toggleCellState_spec heap1 s1 x2 y2 Hinv1' Hrun1 Hx2 Hy2)
    as (g2 & heap2 & E2 & Et2 & Hinv2).
  pose proof Hinv as (_ & _ & _ & _ & _ & _ & Hnd).
  pose proof Hinv1 as (_ & _ & _ & _ & _ & _ & Hnd1).
  cbn [Home.aliveCells] in Hnd1.
  assert (Hl1 : listed (toggled x y (Home.aliveCells s)) x y).
  { apply (listed_toggled x y _ x y Hnd). right. done. }
  assert (Hno21 : ~ listed (toggled x y (Home.aliveCells s)) x2 y2).
  { rewrite (listed_toggled x y _ x2 y2 Hnd).
    intros [[H _]|[Heq _]]; [now destruct Hno2 | now destruct Hne]. }
  exists s1, heap1. eexists _, heap2. split.
  { unfold Home.handleMouseDown. rewrite Hrun.
    rewrite (bind_Ok _ _ _ _ _
               (liftR_Ok _ _ _ (stateOf_stateAt _ _ _ _ _ Hdead))).
    cbv zeta. now rewrite (bind_Ok _ _ _ _ _ Et1). }
  split; [reflexivity|]. split; [reflexivity|]. split.
  { unfold Home.handleMouseEnter. rewrite Hrun1.
    change (Home.isDragging s1) with true.
    change (Home.dragState s1) with alive. cbn [negb orb isAlive].
    assert (Hshown : stateOf (Home.grid s1) x2 y2 heap1 = Ok dead).
    { apply stateOf_stateAt.
      apply (createInitialGrid_alive_iff _ _ _ _ _ _ x2 y2 E1 Hx2 Hy2).
      rewrite listed_app, listed_singleton.
      intros [H|Heq]; [now destruct Hno2 | now destruct Hne]. }
    rewrite (bind_Ok _ _ heap1 true heap1)
      by (now rewrite (bind_Ok _ _ _ _ _ (liftR_Ok _ _ _ Hshown))).
    exact Et2. }
  cbn [Home.aliveCells Home.grid]. split; [|split; [|split; [|split]]].
  - apply (listed_toggled x2 y2 _ x y Hnd1). left. split; [exact Hl1|].
    intros [= -> ->]. now apply Hne.
  - apply (listed_toggled x2 y2 _ x2 y2 Hnd1). right. done.
  - apply (createInitialGrid_alive_iff _ _ _ _ _ _ x y E2 Hx Hy).
    apply listed_app. left. exact Hl1.
  - apply (createInitialGrid_alive_iff _ _ _ _ _ _ x2 y2 E2 Hx2 Hy2).
    apply listed_app. right. now apply listed_singleton.
  - unfold Home.handleMouseEnter. cbn [Home.handleMouseUp Home.isDragging
      Home.isRunning negb]. now rewrite orb_true_r.
Qed.

Lemma X18_drag_paints_witness :
  exists s heap,
    Home.initial [] = Ok (s, heap) /\ pageInv heap s /\
    Home.isRunning s = false /\
    stateAt heap (Home.grid s) 3 4 = Some dead /\
    ~ listed (Home.aliveCells s) 3 4 /\ ~ listed (Home.aliveCells s) 4 4 /\
    exists s1 heap1 s2 heap2,
      Home.handleMouseDown 3 4 s heap = Ok (s1, heap1) /\
      Home.handleMouseEnter 4 4 s1 heap1 = Ok (s2, heap2) /\
      listed (Home.aliveCells s2) 3 4 /\ listed (Home.aliveCells s2) 4 4 /\
      stateAt heap2 (Home.grid s2) 3 4 = Some alive /\
      stateAt heap2 (Home.grid s2) 4 4 = Some alive.
Proof.
  destruct (initial_spec []) as (g & heap & E0 & E & Hinv & Hdead).
  assert (Hno : forall x y, ~ listed (@nil Cell.t) x y).
  { intros x y (a & Ha & _). now apply not_elem_of_nil in Ha. }
  assert (Hshown : stateAt heap g 3 4 = Some dead).
  { apply (createInitialGrid_alive_iff _ _ _ _ _ _ 3 4 E0);
      [unfold Home.width; lia | unfold Home.height; lia | apply Hno]. }
  eexists _, heap. split; [exact E|]. split; [exact Hinv|].
  split; [reflexivity|]. split; [exact Hshown|].
  split; [apply Hno|]. split; [apply Hno|].
  assert (Hx : 0 <= 3 < Home.width) by (unfold Home.width; lia).
  assert (Hy : 0 <= 4 < Home.height) by (unfold Home.height; lia).
  assert (Hx2 : 0 <= 4 < Home.width) by (unfold Home.width; lia).
  assert (Hne : (4, 4) <> (3, 4)) by discriminate.
  destruct (X18_drag_paints heap _ 3 4 4 4 0 0 Hinv eq_refl Hx Hy Hx2 Hy
              Hshown (Hno 3 4) (Hno 4 4) Hne)
    as (s1 & heap1 & s2 & heap2 & Ed & _ & _ & Ee & Hl & Hl2 & Hs & Hs2 & _).
  exists s1, heap1, s2, heap2. split; [exact Ed|]. split; [exact Ee|].
  split; [exact Hl|]. split; [exact Hl2|]. split; [exact Hs | exact Hs2].
Defined.
